(** * Sampling and event pipeline of the profiler: code cache, context table,
      liveness tracker and chunked recorder.

    The development embeds the C++ sources shallowly: every class becomes a
    record, every method a function on that record, and every loop either a
    structural/well-founded recursion or a fuelled iteration whose fuel is
    shown sufficient.

    Conventions for machine integers.
    - Unsigned arithmetic ([u32], [u64], pointers compared as addresses) is
      written with its reduction modulo [2^32] / [2^64].
    - Conversions into a narrower signed type are written with [to_int].
    - Signed [int] arithmetic whose overflow is undefined in C++ is written
      over [Z]; the invariants stated below keep it in range. *)

From Stdlib Require Import ZArith Lia List Bool String Ascii Sorted.
From stdpp Require Import base list sorting gmap.
From Equations Require Import Equations.

Local Open Scope Z_scope.

(** ** Outcomes of fallible code *)

(** A call either returns, trips an [assert], reads or writes outside an
    array (undefined in the source), or exhausts the fuel of a modelled loop. *)
Inductive outcome (A : Type) : Type :=
| Ret (a : A)
| AssertFail
| Undefined
| OutOfFuel.
Arguments Ret {A} a.
Arguments AssertFail {A}.
Arguments Undefined {A}.
Arguments OutOfFuel {A}.

Definition obind {A B} (m : outcome A) (k : A -> outcome B) : outcome B :=
  match m with
  | Ret a => k a
  | AssertFail => AssertFail
  | Undefined => Undefined
  | OutOfFuel => OutOfFuel
  end.

#[global] Instance outcome_ret : MRet outcome := fun _ a => Ret a.
#[global] Instance outcome_bind : MBind outcome := fun _ _ k m => obind m k.

(** ** Machine words *)

Definition u32 (z : Z) : Z := z mod 2 ^ 32.
Definition u64 (z : Z) : Z := z mod 2 ^ 64.

(** Conversion of an integer value to [int] (two's complement, 32 bits). *)
Definition to_int (z : Z) : Z := (z + 2 ^ 31) mod 2 ^ 32 - 2 ^ 31.

Definition is_u32 (z : Z) : Prop := 0 <= z < 2 ^ 32.
Definition is_u64 (z : Z) : Prop := 0 <= z < 2 ^ 64.
Definition is_int (z : Z) : Prop := - 2 ^ 31 <= z < 2 ^ 31.

(** Array read: [a[i]] is defined only inside the allocation. *)
Definition aread {A} (a : list A) (i : Z) : outcome A :=
  if i <? 0 then Undefined
  else match a !! Z.to_nat i with
       | Some x => Ret x
       | None => Undefined
       end.

(** ** Release of allocated memory *)

(** The function a block of memory was obtained from: [malloc], [new] or
    [new[]]. *)
Inductive allocator := Malloc | New | NewArray.

Definition same_allocator (a b : allocator) : bool :=
  match a, b with
  | Malloc, Malloc | New, New | NewArray, NewArray => true
  | _, _ => false
  end.

(** A pointer as its release sees it: the allocator of the block it points
    into, and its distance in bytes from the start of that block. NULL is
    [None]. *)
Record pointer := mkPointer {
  p_block : allocator;
  p_offset : Z
}.

(** [free(p)], [delete p] and [delete[] p]. Nothing happens for NULL;
    otherwise the call is defined only for the very pointer that the
    matching allocator returned. *)
Definition release (by_ : allocator) (p : option pointer) : outcome unit :=
  match p with
  | None => Ret tt
  | Some q =>
      if same_allocator (p_block q) by_ && (p_offset q =? 0) then Ret tt
      else Undefined
  end.

Definition free : option pointer -> outcome unit := release Malloc.
Definition delete : option pointer -> outcome unit := release New.
Definition delete_array : option pointer -> outcome unit := release NewArray.

(** * NativeFunc and CodeCache (codeCache.h, codeCache.cpp) *)

Module NativeFunc.

(** The header [{_lib_index, _mark}] in front of the NUL-terminated name.
    The C++ code hands out the pointer to [_name]; the model hands out the
    whole record, and a nullable [char*] is an [option]. *)
Record t := mk {
  _lib_index : Z;
  _mark : bool;
  _name : string
}.

Definition create (name : string) (lib_index : Z) : t :=
  {| _lib_index := lib_index; _mark := false; _name := name |}.

(** [sizeof(NativeFunc)]: a [short], two [char]s and the empty array
    [_name]. *)
Definition sizeof_NativeFunc : Z := 4.

(** The pointer [create] returns. The block comes from [malloc], and
    [strcpy(f->_name, name)] returns [f->_name], which lies
    [sizeof(NativeFunc)] bytes into it. *)
Definition created : pointer :=
  {| p_block := Malloc; p_offset := sizeof_NativeFunc |}.

(** [NativeFunc::from(name)]: back from the name to the header. *)
Definition from (name : pointer) : pointer :=
  {| p_block := p_block name; p_offset := p_offset name - sizeof_NativeFunc |}.

(** [NativeFunc::destroy(name)]. For NULL, [from] yields an address below
    zero that no allocator returned. *)
Definition destroy (name : option pointer) : outcome unit :=
  match name with
  | Some p => free (Some (from p))
  | None => Undefined
  end.

Definition libIndex (f : t) : Z := _lib_index f.
Definition isMarked (f : t) : bool := _mark f.
Definition mark (f : t) : t :=
  {| _lib_index := _lib_index f; _mark := true; _name := _name f |}.

End NativeFunc.

Module CodeBlob.

Record t := mk {
  _start : Z;
  _end : Z;
  _name : option NativeFunc.t
}.

(** [CodeBlob::comparator]: start ascending, then end descending. *)
Definition comparator (cb1 cb2 : t) : Z :=
  if _start cb1 <? _start cb2 then -1
  else if _start cb1 >? _start cb2 then 1
  else if _end cb1 =? _end cb2 then 0
  else if _end cb1 >? _end cb2 then -1 else 1.

(** Contents of a slot of [new CodeBlob[n]] that was never written. *)
Definition uninit : t := {| _start := 0; _end := 0; _name := None |}.

End CodeBlob.

(** Only [loc] of a frame descriptor is read by the code cache; the rest of
    the record (declared in dwarf.h) is carried as an opaque payload. *)
Record FrameDesc := mkFrameDesc {
  loc : Z;
  fd_payload : Z
}.

Module CodeCache.

Definition NO_MIN_ADDRESS : Z := 2 ^ 64 - 1.   (* (const void* )-1 *)
Definition NO_MAX_ADDRESS : Z := 0.
Definition INITIAL_CODE_CACHE_CAPACITY : Z := 1000.

Record t := mk {
  _name : option NativeFunc.t;
  _lib_index : Z;
  _min_address : Z;
  _max_address : Z;
  _text_base : Z;
  _got_start : Z;
  _got_end : Z;
  _got_patchable : bool;
  _dwarf_table : option (list FrameDesc);
  _dwarf_table_length : Z;
  _capacity : Z;
  _count : Z;
  _blobs : list CodeBlob.t
}.

(** [new CodeBlob[n]] *)
Definition new_blobs (n : Z) : list CodeBlob.t :=
  replicate (Z.to_nat n) CodeBlob.uninit.

(** [memcpy(dst, src, n * sizeof(CodeBlob))] into a fresh array [dst]. *)
Definition memcpy_blobs (dst src : list CodeBlob.t) (n : Z) : list CodeBlob.t :=
  take (Z.to_nat n) src ++ drop (Z.to_nat n) dst.

(** The blobs in use: the first [_count] slots of the array. *)
Definition live (c : t) : list CodeBlob.t :=
  take (Z.to_nat (_count c)) (_blobs c).

(** [CodeCache::CodeCache(name, lib_index, min_address, max_address)] *)
Definition make (name : string) (lib_index min_address max_address : Z) : t :=
  {| _name := Some (NativeFunc.create name (-1));
     _lib_index := lib_index;
     _min_address := min_address;
     _max_address := max_address;
     _text_base := 0;
     _got_start := 0;
     _got_end := 0;
     _got_patchable := false;
     _dwarf_table := None;
     _dwarf_table_length := 0;
     _capacity := INITIAL_CODE_CACHE_CAPACITY;
     _count := 0;
     _blobs := new_blobs INITIAL_CODE_CACHE_CAPACITY |}.

(** Name carried by a [char*] that came out of [NativeFunc::create]. *)
Definition name_of (p : option NativeFunc.t) : option string :=
  NativeFunc._name <$> p.

(** Copy constructor. [_got_patchable] is left uninitialised by the source;
    its indeterminate value is the parameter [junk]. The name of a
    constructed cache is never NULL; a NULL name is carried over as it is. *)
Definition copy (junk : bool) (other : t) : t :=
  let len := _dwarf_table_length other in
  {| _name := (fun f => NativeFunc.create (NativeFunc._name f) (-1)) <$> _name other;
     _lib_index := _lib_index other;
     _min_address := _min_address other;
     _max_address := _max_address other;
     _text_base := _text_base other;
     _got_start := 0;
     _got_end := 0;
     _got_patchable := junk;
     _dwarf_table := Some (take (Z.to_nat len) (default [] (_dwarf_table other)));
     _dwarf_table_length := len;
     _capacity := _capacity other;
     _count := _count other;
     _blobs := memcpy_blobs (new_blobs (_capacity other)) (_blobs other) (_count other) |}.

(** The pointers a cache holds, as their release sees them. [_name] is
    the result of [NativeFunc::create] in both constructors and in
    [operator=]; [_blobs] is the result of [new CodeBlob[...]]
    everywhere. Who allocated a dwarf table is not recorded in the cache
    ([setDwarfTable] takes it from its caller, the copy constructor from
    [new FrameDesc[...]]): the allocator is the parameter [dwarf_block]. *)
Definition name_pointer (name : option NativeFunc.t) : option pointer :=
  (fun _ => NativeFunc.created) <$> name.

Definition blobs_pointer : option pointer :=
  Some {| p_block := NewArray; p_offset := 0 |}.

Definition dwarf_pointer (dwarf_block : allocator) (c : t) : option pointer :=
  (fun _ => {| p_block := dwarf_block; p_offset := 0 |}) <$> _dwarf_table c.

(** The assignments of the [else] branch of [operator=], which follow its
    three [delete]s. *)
Definition assign_from (this other : t) : t :=
  {| _name := (fun f => NativeFunc.create (NativeFunc._name f) (-1)) <$> _name other;
     _lib_index := _lib_index other;
     _min_address := _min_address other;
     _max_address := _max_address other;
     _text_base := _text_base other;
     _got_start := _got_start other;
     _got_end := _got_end other;
     _got_patchable := _got_patchable this;
     _dwarf_table := None;
     _dwarf_table_length := 0;
     _capacity := INITIAL_CODE_CACHE_CAPACITY;
     _count := 0;
     _blobs := new_blobs INITIAL_CODE_CACHE_CAPACITY |}.

(** Objects live in a store indexed by their address, so that
    [&other == this] is a comparison of keys. *)
Abbreviation store := (gmap Z t).

(** [CodeCache::operator=], as [*this_ = *other] in store [h]: unless the
    two are the same object, [delete _name; delete _dwarf_table;
    delete _blobs;] and then the assignments. *)
Definition assign (dwarf_block : allocator) (this_ other : Z) (h : store)
  : outcome store :=
  match h !! this_, h !! other with
  | Some c, Some o =>
      if decide (other = this_) then Ret h
      else
        _ ← delete (name_pointer (_name c));
        _ ← delete (dwarf_pointer dwarf_block c);
        _ ← delete blobs_pointer;
        Ret (<[this_ := assign_from c o]> h)
  | _, _ => Undefined
  end.

(** [CodeCache c(other)] placed at the fresh address [this_]. *)
Definition copy_construct (junk : bool) (this_ other : Z) (h : store) : outcome store :=
  match h !! other with
  | Some o => Ret (<[this_ := copy junk o]> h)
  | None => Undefined
  end.

Definition set_blobs (c : t) (capacity count : Z) (blobs : list CodeBlob.t) : t :=
  {| _name := _name c; _lib_index := _lib_index c;
     _min_address := _min_address c; _max_address := _max_address c;
     _text_base := _text_base c;
     _got_start := _got_start c; _got_end := _got_end c;
     _got_patchable := _got_patchable c;
     _dwarf_table := _dwarf_table c;
     _dwarf_table_length := _dwarf_table_length c;
     _capacity := capacity; _count := count; _blobs := blobs |}.

Definition set_bounds (c : t) (min_address max_address : Z) : t :=
  {| _name := _name c; _lib_index := _lib_index c;
     _min_address := min_address; _max_address := max_address;
     _text_base := _text_base c;
     _got_start := _got_start c; _got_end := _got_end c;
     _got_patchable := _got_patchable c;
     _dwarf_table := _dwarf_table c;
     _dwarf_table_length := _dwarf_table_length c;
     _capacity := _capacity c; _count := _count c; _blobs := _blobs c |}.

(** [CodeCache::expand] *)
Definition expand (c : t) : t :=
  let new_blobs_ := new_blobs (_capacity c * 2) in
  set_blobs c (_capacity c * 2) (_count c)
            (memcpy_blobs new_blobs_ (_blobs c) (_count c)).

(** [CodeCache::updateBounds] *)
Definition updateBounds (start end_ : Z) (c : t) : t :=
  let mn := if start <? _min_address c then start else _min_address c in
  let mx := if end_ >? _max_address c then end_ else _max_address c in
  set_bounds c mn mx.

(** The loop of [add] that replaces non-printable characters. [char] is
    signed on the profiler's x86-64 targets, so bytes from 0x80 up compare
    below the space character as well. *)
Definition schar (a : ascii) : Z :=
  let n := Z.of_N (N_of_ascii a) in if n <? 128 then n else n - 256.

Fixpoint sanitize (s : string) : string :=
  match s with
  | EmptyString => EmptyString
  | String a s' =>
      String (if schar a <? 32 then "?"%char else a) (sanitize s')
  end.

(** [CodeCache::add]. A store past the end of [_blobs] is undefined. *)
Definition add (start length : Z) (name : string) (update_bounds : bool)
           (c : t) : outcome t :=
  let name_copy := NativeFunc.create (sanitize name) (_lib_index c) in
  let c1 := if _count c >=? _capacity c then expand c else c in
  let end_ := u64 (start + length) in
  let blob := {| CodeBlob._start := start; CodeBlob._end := end_;
                 CodeBlob._name := Some name_copy |} in
  if (_count c1 <? 0) || (Z.of_nat (List.length (_blobs c1)) <=? _count c1)
  then Undefined
  else
    let c2 := set_blobs c1 (_capacity c1) (_count c1 + 1)
                        (<[Z.to_nat (_count c1) := blob]> (_blobs c1)) in
    Ret (if update_bounds then updateBounds start end_ c2 else c2).

(** [qsort] with [CodeBlob::comparator]: the result is a permutation of
    the input ordered by the comparator. The order of blobs that compare
    equal (same start and end) is unspecified for [qsort]; the model keeps
    the order of insertion. *)
Fixpoint insert_blob (b : CodeBlob.t) (l : list CodeBlob.t) : list CodeBlob.t :=
  match l with
  | [] => [b]
  | x :: l' =>
      if CodeBlob.comparator b x <=? 0 then b :: l else x :: insert_blob b l'
  end.

Definition qsort (l : list CodeBlob.t) : list CodeBlob.t :=
  foldr insert_blob [] l.

(** [CodeCache::sort] *)
Definition sort (c : t) : t :=
  if _count c =? 0 then c
  else
    let n := Z.to_nat (_count c) in
    let blobs := qsort (take n (_blobs c)) ++ drop n (_blobs c) in
    let first := default CodeBlob.uninit (blobs !! 0%nat) in
    let last_ := default CodeBlob.uninit (blobs !! Z.to_nat (_count c - 1)) in
    let mn := if _min_address c =? NO_MIN_ADDRESS
              then CodeBlob._start first else _min_address c in
    let mx := if _max_address c =? NO_MAX_ADDRESS
              then CodeBlob._end last_ else _max_address c in
    set_bounds (set_blobs c (_capacity c) (_count c) blobs) mn mx.

(** How the [while] loop of [binarySearch] is left. *)
Inductive exit :=
| Found (name : option NativeFunc.t)
| NotFound (low : Z).

(** The [while (low <= high)] loop; every iteration consumes one unit of
    fuel. *)
Fixpoint binarySearch_loop (fuel : nat) (blobs : list CodeBlob.t)
         (address low high : Z) : outcome exit :=
  if low <=? high then
    match fuel with
    | O => OutOfFuel
    | S fuel' =>
        let mid := Z.shiftr (u32 (low + high)) 1 in
        b ← aread blobs mid;
        if CodeBlob._end b <=? address then
          binarySearch_loop fuel' blobs address (mid + 1) high
        else if CodeBlob._start b >? address then
          binarySearch_loop fuel' blobs address low (mid - 1)
        else Ret (Found (CodeBlob._name b))
    end
  else Ret (NotFound low).

(** [CodeCache::binarySearch]. The loop halves [high - low] each turn, so
    [_count + 1] units of fuel are more than it can use. *)
Definition binarySearch (c : t) (address : Z) : outcome (option NativeFunc.t) :=
  e ← binarySearch_loop (S (Z.to_nat (_count c))) (_blobs c) address
                        0 (_count c - 1);
  match e with
  | Found name => Ret name
  | NotFound low =>
      if 0 <? low then
        b ← aread (_blobs c) (low - 1);
        if (CodeBlob._start b =? CodeBlob._end b)
           || (CodeBlob._end b =? address)
        then Ret (CodeBlob._name b)
        else Ret (_name c)
      else Ret (_name c)
  end.

(** [CodeCache::find], the linear scan. *)
Definition find (c : t) (address : Z) : option CodeBlob.t :=
  List.find (fun b => (CodeBlob._start b <=? address)
                      && (address <? CodeBlob._end b)) (live c).

Definition contains (c : t) (address : Z) : bool :=
  (_min_address c <=? address) && (address <? _max_address c).



(** [strncmp(blob_name, prefix, strlen(prefix)) == 0] *)
Definition name_starts (prefix_ : string) (b : CodeBlob.t) : bool :=
  match CodeBlob._name b with
  | Some f => String.prefix prefix_ (NativeFunc._name f)
  | None => false
  end.

(** The inner loop of [findSymbolsByPrefix]. Its counter is declared as
    [i] once more and hides the counter of the outer loop, so the blob
    read in its body is the one at the position of the prefix. *)
Fixpoint push_matches (blobs : list CodeBlob.t) (blob_name : string)
         (prefixes : list string) (i : Z) (symbols : list Z)
  : outcome (list Z) :=
  match prefixes with
  | [] => Ret symbols
  | p :: prefixes' =>
      if String.prefix p blob_name then
        b ← aread blobs i;
        push_matches blobs blob_name prefixes' (i + 1)
                     (symbols ++ [CodeBlob._start b])
      else push_matches blobs blob_name prefixes' (i + 1) symbols
  end.

(** The outer loop, over the blobs in use that are still to visit. *)
Fixpoint scan_blobs (blobs : list CodeBlob.t) (prefixes : list string)
         (todo : list CodeBlob.t) (symbols : list Z) : outcome (list Z) :=
  match todo with
  | [] => Ret symbols
  | b :: todo' =>
      match CodeBlob._name b with
      | Some f =>
          symbols' ← push_matches blobs (NativeFunc._name f) prefixes 0 symbols;
          scan_blobs blobs prefixes todo' symbols'
      | None => scan_blobs blobs prefixes todo' symbols
      end
  end.

(** [CodeCache::findSymbolsByPrefix]: the vector [symbols] after the call. *)
Definition findSymbolsByPrefix (c : t) (prefixes : list string)
           (symbols : list Z) : outcome (list Z) :=
  scan_blobs (_blobs c) prefixes (live c) symbols.

Definition set_got (c : t) (got_start got_end : Z) (patchable : bool) : t :=
  {| _name := _name c; _lib_index := _lib_index c;
     _min_address := _min_address c; _max_address := _max_address c;
     _text_base := _text_base c;
     _got_start := got_start; _got_end := got_end;
     _got_patchable := patchable;
     _dwarf_table := _dwarf_table c;
     _dwarf_table_length := _dwarf_table_length c;
     _capacity := _capacity c; _count := _count c; _blobs := _blobs c |}.

(** [CodeCache::setGlobalOffsetTable] *)
Definition setGlobalOffsetTable (start end_ : Z) (patchable : bool) (c : t) : t :=
  set_got c start end_ patchable.

(** [CodeCache::makeGotPatchable]. [page_mask] is [OS::page_mask] of os.h,
    the page size less one; the arithmetic is that of [uintptr_t]. The
    result carries the address and the size handed to [mprotect] when it
    is called. *)
Definition makeGotPatchable (page_mask : Z) (c : t) : t * option (Z * Z) :=
  if negb (_got_patchable c) then
    let got_start := Z.land (_got_start c) (u64 (Z.lnot page_mask)) in
    let got_size :=
      Z.land (u64 (_got_end c - got_start + page_mask)) (u64 (Z.lnot page_mask)) in
    (set_got c (_got_start c) (_got_end c) true, Some (got_start, got_size))
  else (c, None).

(** The loop of [findGlobalOffsetEntry] over the eight-byte entries of the
    table; [mem] is the word stored at an address. The result is the
    entry found, [None] when the loop runs to its end. *)
Fixpoint got_scan (mem : Z -> Z) (fuel : nat) (entry got_end address : Z)
  : outcome (option Z) :=
  if entry <? got_end then
    match fuel with
    | O => OutOfFuel
    | S fuel' =>
        if mem entry =? address then Ret (Some entry)
        else got_scan mem fuel' (entry + 8) got_end address
    end
  else Ret None.

(** [CodeCache::findGlobalOffsetEntry]: the cache after the call and the
    entry returned, 0 for NULL. The loop visits one entry for every eight
    bytes of the table, which bounds the fuel. *)
Definition findGlobalOffsetEntry (page_mask : Z) (mem : Z -> Z) (address : Z)
           (c : t) : outcome (t * Z) :=
  found ← got_scan mem (Z.to_nat ((_got_end c - _got_start c + 7) / 8))
                   (_got_start c) (_got_end c) address;
  match found with
  | Some entry => Ret (fst (makeGotPatchable page_mask c), entry)
  | None => Ret (c, 0)
  end.

Definition set_dwarf (c : t) (table : option (list FrameDesc)) (length : Z) : t :=
  {| _name := _name c; _lib_index := _lib_index c;
     _min_address := _min_address c; _max_address := _max_address c;
     _text_base := _text_base c;
     _got_start := _got_start c; _got_end := _got_end c;
     _got_patchable := _got_patchable c;
     _dwarf_table := table;
     _dwarf_table_length := length;
     _capacity := _capacity c; _count := _count c; _blobs := _blobs c |}.

(** [CodeCache::setDwarfTable] *)
Definition setDwarfTable (table : option (list FrameDesc)) (length : Z) (c : t) : t :=
  set_dwarf c table length.

(** How the [while] loop of [findFrameDesc] is left. *)
Inductive dwarf_exit :=
| Hit (d : FrameDesc)
| Miss (low : Z).

(** The [while (low <= high)] loop of [findFrameDesc]; every iteration
    consumes one unit of fuel. *)
Fixpoint findFrameDesc_loop (fuel : nat) (table : list FrameDesc)
         (target_loc low high : Z) : outcome dwarf_exit :=
  if low <=? high then
    match fuel with
    | O => OutOfFuel
    | S fuel' =>
        let mid := Z.shiftr (u32 (low + high)) 1 in
        d ← aread table mid;
        if loc d <? target_loc then
          findFrameDesc_loop fuel' table target_loc (mid + 1) high
        else if loc d >? target_loc then
          findFrameDesc_loop fuel' table target_loc low (mid - 1)
        else Ret (Hit d)
    end
  else Ret (Miss low).

(** [CodeCache::findFrameDesc]: the descriptor pointed to, [None] for
    NULL. *)
Definition findFrameDesc (c : t) (pc : Z) : outcome (option FrameDesc) :=
  let target_loc := u32 (pc - _text_base c) in
  let table := default [] (_dwarf_table c) in
  e ← findFrameDesc_loop (S (Z.to_nat (_dwarf_table_length c))) table
                         target_loc 0 (_dwarf_table_length c - 1);
  match e with
  | Hit d => Ret (Some d)
  | Miss low =>
      if 0 <? low then d ← aread table (low - 1); Ret (Some d)
      else Ret None
  end.

End CodeCache.

(** * Buffer (flightRecorder.cpp) *)

Module Buffer.

(** [_data] holds bytes as numbers in [0, 256). For a [RecordingBuffer]
    the array continues into [_buf], so its length is a field of the
    model rather than the constant [BUFFER_SIZE - sizeof(int)]. *)
Record t := mk {
  _offset : Z;
  _data : list Z
}.

Definition BUFFER_SIZE : Z := 1024.
Definition RECORDING_BUFFER_SIZE : Z := 65536.

(** [(char)v]: the low eight bits. *)
Definition char (v : Z) : Z := Z.land v 0xff.

(** [_data[_offset++] = v], undefined outside the array. *)
Definition put8 (v : Z) (b : t) : outcome t :=
  if (_offset b <? 0) || (Z.of_nat (length (_data b)) <=? _offset b)
  then Undefined
  else Ret {| _offset := _offset b + 1;
              _data := <[Z.to_nat (_offset b) := char v]> (_data b) |}.

(** [while (v > 0x7f) { put(v | 0x80); v >>= 7; } put(v);] -- the body of
    [putVar32], which is also the last two statements of [putVar64]. *)
Equations? put_septets (v : Z) (b : t) : outcome t by wf (Z.to_nat (Z.log2 v)) lt :=
  put_septets v b with Z_gt_dec v 0x7f => {
    | left _ := b' ← put8 (Z.lor (char v) 0x80) b; put_septets (Z.shiftr v 7) b';
    | right _ := put8 (char v) b }.
Proof.
  rewrite Z.log2_shiftr by lia.
  assert (Z.log2 (2 ^ 7) <= Z.log2 v) by (apply Z.log2_le_mono; lia).
  rewrite Z.log2_pow2 in * by lia. lia.
Qed.

(** [Buffer::putVar32(u32 v)]; the argument is converted to [u32]. *)
Definition putVar32 (v : Z) (b : t) : outcome t := put_septets (u32 v) b.

(** One turn of the first loop of [putVar64]: three septets. *)
Definition put3 (v : Z) (b : t) : outcome t :=
  b1 ← put8 (Z.lor (char v) 0x80) b;
  b2 ← put8 (Z.lor (char (Z.shiftr v 7)) 0x80) b1;
  put8 (Z.lor (char (Z.shiftr v 14)) 0x80) b2.

(** The [while (v > 0x1fffff)] loop of [putVar64]. The result [None] is
    the [return] inside the loop, [Some v] the value left for the second
    loop. *)
Equations? putVar64_loop (iter_ v : Z) (b : t) : outcome (t * option Z)
  by wf (Z.to_nat (Z.log2 v)) lt :=
  putVar64_loop iter_ v b with Z_gt_dec v 0x1fffff => {
    | left _ :=
        b3 ← put3 v b;
        if iter_ + 1 =? 3 then Ret (b3, None)
        else putVar64_loop (iter_ + 1) (Z.shiftr v 21) b3;
    | right _ := Ret (b, Some v) }.
Proof.
  rewrite Z.log2_shiftr by lia.
  assert (Z.log2 (2 ^ 21) <= Z.log2 v) by (apply Z.log2_le_mono; lia).
  rewrite Z.log2_pow2 in * by lia. lia.
Qed.

(** What follows the first loop: nothing after the [return], the second
    loop and the last byte otherwise. *)
Definition putVar64_rest (r : t * option Z) : outcome t :=
  match r with
  | (b', None) => Ret b'
  | (b', Some v') => put_septets v' b'
  end.

(** [Buffer::putVar64(u64 v)]; the argument is converted to [u64]. *)
Definition putVar64 (v : Z) (b : t) : outcome t :=
  r ← putVar64_loop 0 (u64 v) b; putVar64_rest r.

(** The bytes a call stored: those between the old and the new cursor. *)
Definition written (b b' : t) : list Z :=
  take (Z.to_nat (_offset b' - _offset b)) (drop (Z.to_nat (_offset b)) (_data b')).

(** An empty buffer of [n] bytes. *)
Definition fresh (n : Z) : t :=
  {| _offset := 0; _data := replicate (Z.to_nat n) 0 |}.

Definition MAX_STRING_LENGTH : Z := 8191.

(** [Buffer::skip]: the cursor before the call and the buffer after it. *)
Definition skip (delta : Z) (b : t) : Z * t :=
  (_offset b, {| _offset := _offset b + delta; _data := _data b |}).

(** [Buffer::reset] *)
Definition reset (b : t) : t := {| _offset := 0; _data := _data b |}.

(** A store of [bytes] from [_data + _offset] on, undefined outside the
    array; the cursor moves past them. *)
Definition store (bytes : list Z) (b : t) : outcome t :=
  if (_offset b <? 0)
     || (Z.of_nat (length (_data b)) <? _offset b + Z.of_nat (length bytes))
  then Undefined
  else Ret {| _offset := _offset b + Z.of_nat (length bytes);
              _data := take (Z.to_nat (_offset b)) (_data b) ++ bytes
                       ++ drop (Z.to_nat (_offset b) + length bytes) (_data b) |}.

(** [Buffer::put(v, len)]: [memcpy] of the first [len] bytes of [v],
    which has to hold that many. *)
Definition put (v : list Z) (len : Z) (b : t) : outcome t :=
  let len := u32 len in
  if Z.of_nat (length v) <? len then Undefined
  else store (take (Z.to_nat len) v) b.

(** The [n] low bytes of [v], most significant first: what a store of
    [htons(v)], [htonl(v)] or [OS::hton64(v)] leaves in memory. *)
Fixpoint be_bytes (n : nat) (v : Z) : list Z :=
  match n with
  | O => []
  | S n' => char (Z.shiftr v (8 * Z.of_nat n')) :: be_bytes n' v
  end.

(** [Buffer::put16], [Buffer::put32], [Buffer::put64] *)
Definition put16 (v : Z) (b : t) : outcome t := store (be_bytes 2 v) b.
Definition put32 (v : Z) (b : t) : outcome t := store (be_bytes 4 v) b.
Definition put64 (v : Z) (b : t) : outcome t := store (be_bytes 8 v) b.

(** The bytes of a C string. *)
Definition bytes_of (s : string) : list Z :=
  map (fun a => Z.of_N (N_of_ascii a)) (list_ascii_of_string s).

(** [Buffer::putUtf8(v, len)] *)
Definition putUtf8_len (v : list Z) (len : Z) (b : t) : outcome t :=
  b1 ← put8 3 b;
  b2 ← putVar32 len b1;
  put v len b2.

(** [Buffer::putUtf8(v)]; [None] is the NULL pointer. *)
Definition putUtf8 (v : option string) (b : t) : outcome t :=
  match v with
  | None => put8 0 b
  | Some s =>
      let len := Z.of_nat (String.length s) in
      putUtf8_len (bytes_of s)
                  (if len <? MAX_STRING_LENGTH then len else MAX_STRING_LENGTH) b
  end.

(** [Buffer::put8(offset, v)]: [_data[offset] = v]; the cursor stays. *)
Definition put8_at (offset v : Z) (b : t) : outcome t :=
  if (offset <? 0) || (Z.of_nat (length (_data b)) <=? offset)
  then Undefined
  else Ret {| _offset := _offset b;
              _data := <[Z.to_nat offset := char v]> (_data b) |}.

(** [Buffer::putVar32(offset, v)]: the five-byte form used to patch the
    size of an event once it is known. *)
Definition putVar32_at (offset v : Z) (b : t) : outcome t :=
  let v := u32 v in
  b0 ← put8_at offset (Z.lor v 0x80) b;
  b1 ← put8_at (offset + 1) (Z.lor (Z.shiftr v 7) 0x80) b0;
  b2 ← put8_at (offset + 2) (Z.lor (Z.shiftr v 14) 0x80) b1;
  b3 ← put8_at (offset + 3) (Z.lor (Z.shiftr v 21) 0x80) b2;
  put8_at (offset + 4) (Z.shiftr v 28) b3.

End Buffer.

(** ** Reader's side of the varint format *)

Module Varint.

(** Unsigned varint as the format describes it: seven payload bits per
    byte, least significant group first, the high bit set on every byte
    but the last. The result carries the bytes left over; [None] when the
    input ends inside a value. *)
Fixpoint decode (bytes : list Z) : option (Z * list Z) :=
  match bytes with
  | [] => None
  | b :: rest =>
      if Z.testbit b 7 then
        match decode rest with
        | Some (x, rest') => Some (Z.land b 0x7f + 128 * x, rest')
        | None => None
        end
      else Some (b, rest)
  end.

(** The same reader with a cap: after [n] continuation bytes the next
    byte is taken whole, all eight bits. With [n = 8] this is the
    nine-byte rule for 64-bit values. *)
Fixpoint decode_capped (n : nat) (bytes : list Z) : option (Z * list Z) :=
  match bytes with
  | [] => None
  | b :: rest =>
      match n with
      | O => Some (b, rest)
      | S n' =>
          if Z.testbit b 7 then
            match decode_capped n' rest with
            | Some (x, rest') => Some (Z.land b 0x7f + 128 * x, rest')
            | None => None
            end
          else Some (b, rest)
      end
  end.

Definition decode64 : list Z -> option (Z * list Z) := decode_capped 8.

(** The septets of [v], written as a list. *)
Equations? encode (v : Z) : list Z by wf (Z.to_nat (Z.log2 v)) lt :=
  encode v with Z_gt_dec v 0x7f => {
    | left _ := Z.lor (Z.land v 0xff) 0x80 :: encode (Z.shiftr v 7);
    | right _ := [Z.land v 0xff] }.
Proof.
  rewrite Z.log2_shiftr by lia.
  assert (Z.log2 (2 ^ 7) <= Z.log2 v) by (apply Z.log2_le_mono; lia).
  rewrite Z.log2_pow2 in * by lia. lia.
Qed.

End Varint.

(** ** Vocabulary for what a call leaves in the buffer *)

Module BufferSpec.

(** There is room for [k] more bytes at the cursor. *)
Definition room (b : Buffer.t) (k : Z) : Prop :=
  0 <= Buffer._offset b /\
  Buffer._offset b + k <= Z.of_nat (length (Buffer._data b)).

(** [b'] is [b] with [bytes] stored at the cursor and the cursor moved
    past them; nothing else has changed. *)
Definition appended (b : Buffer.t) (bytes : list Z) (b' : Buffer.t) : Prop :=
  Buffer._offset b' = Buffer._offset b + Z.of_nat (length bytes) /\
  Buffer._data b' =
    take (Z.to_nat (Buffer._offset b)) (Buffer._data b) ++ bytes
    ++ drop (Z.to_nat (Buffer._offset b) + length bytes) (Buffer._data b).

(** The three bytes of one turn of the first loop of [putVar64]. *)
Definition septets3 (w : Z) : list Z :=
  [ Z.lor (Buffer.char w) 0x80;
    Z.lor (Buffer.char (Z.shiftr w 7)) 0x80;
    Z.lor (Buffer.char (Z.shiftr w 14)) 0x80 ].

(** A big-endian number read back from its bytes. *)
Definition be_decode (bytes : list Z) : Z :=
  foldl (fun acc x => acc * 256 + x) 0 bytes.

(** The five bytes [putVar32(offset, v)] stores for the [u32] value [v]. *)
Definition padded5 (v : Z) : list Z :=
  [ Buffer.char (Z.lor v 0x80);
    Buffer.char (Z.lor (Z.shiftr v 7) 0x80);
    Buffer.char (Z.lor (Z.shiftr v 14) 0x80);
    Buffer.char (Z.lor (Z.shiftr v 21) 0x80);
    Buffer.char (Z.shiftr v 28) ].

(** [n] values read one after the other by the 64-bit varint reader. *)
Fixpoint decode64_many (n : nat) (bytes : list Z) : option (list Z * list Z) :=
  match n with
  | O => Some ([], bytes)
  | S n' =>
      match Varint.decode64 bytes with
      | Some (v, rest) =>
          match decode64_many n' rest with
          | Some (vs, rest') => Some (v :: vs, rest')
          | None => None
          end
      | None => None
      end
  end.

(** A string as a reader of the recording takes it: the tag 3, the
    length as a varint, then that many bytes. *)
Definition decode_utf8 (bytes : list Z) : option (list Z * list Z) :=
  match bytes with
  | 3 :: rest =>
      match Varint.decode rest with
      | Some (len, rest') =>
          if Z.of_nat (length rest') <? len then None
          else Some (take (Z.to_nat len) rest', drop (Z.to_nat len) rest')
      | None => None
      end
  | _ => None
  end.

(** What has left the recorder or waits in its buffer: the bytes handed
    to [write], then those before the cursor. *)
Definition stream (out : list Z) (buf : Buffer.t) : list Z :=
  out ++ take (Z.to_nat (Buffer._offset buf)) (Buffer._data buf).

(** [n] constants as a reader of the recording takes them: each a key and
    a string. *)
Fixpoint decode_constants (n : nat) (bytes : list Z)
  : option (list (Z * list Z) * list Z) :=
  match n with
  | O => Some ([], bytes)
  | S n' =>
      match Varint.decode64 bytes with
      | Some (key, rest) =>
          match decode_utf8 rest with
          | Some (s, rest') =>
              match decode_constants n' rest' with
              | Some (cs, rest'') => Some ((key, s) :: cs, rest'')
              | None => None
              end
          | None => None
          end
      | None => None
      end
  end.

(** A section of the constant pool: its type, the number of constants,
    the constants. *)
Definition decode_section (bytes : list Z)
  : option (Z * list (Z * list Z) * list Z) :=
  match Varint.decode64 bytes with
  | Some (type, rest) =>
      match Varint.decode64 rest with
      | Some (count, rest') =>
          match decode_constants (Z.to_nat count) rest' with
          | Some (cs, rest'') => Some (type, cs, rest'')
          | None => None
          end
      | None => None
      end
  | None => None
  end.

End BufferSpec.

(** * Context table (context.cpp) *)

Module Contexts.

Record Context := mkContext {
  spanId : Z;
  rootSpanId : Z;
  checksum : Z;
  parallelism : Z
}.

(** [static Context DD_EMPTY_CONTEXT = {};] *)
Definition DD_EMPTY_CONTEXT : Context :=
  {| spanId := 0; rootSpanId := 0; checksum := 0; parallelism := 0 |}.

(** Validity predicate of a record. *)
Definition valid (c : Context) : bool :=
  Z.lxor (spanId c) (rootSpanId c) =? checksum c.

(** [_pages]: an array of [_max_pages] page pointers, [None] for NULL. *)
Record t := mk {
  _max_pages : Z;
  _pages : list (option (list Context))
}.

(** A [Context&] as returned by [get]: the shared empty record or a slot
    of an allocated page. *)
Inductive ref :=
| EmptyRef
| SlotRef (pageIndex slot : Z).

Section Pages.

(** [DD_CONTEXT_PAGE_SHIFT] is declared in context.h, which is not among
    the sources; the page size is the power of two it determines. *)
Variable DD_CONTEXT_PAGE_SHIFT : Z.

Definition DD_CONTEXT_PAGE_SIZE : Z := 2 ^ DD_CONTEXT_PAGE_SHIFT.
Definition DD_CONTEXT_PAGE_MASK : Z := DD_CONTEXT_PAGE_SIZE - 1.

(** [Contexts::getMaxPages(maxTid)] *)
Definition getMaxPages (maxTid : Z) : Z :=
  to_int (Z.quot (maxTid + DD_CONTEXT_PAGE_SIZE - 1) DD_CONTEXT_PAGE_SIZE).

(** [new Context *[_max_pages]()] *)
Definition startup (maxTid : Z) : t :=
  let n := getMaxPages maxTid in
  {| _max_pages := n; _pages := replicate (Z.to_nat n) None |}.

(** [Contexts::get(tid)] *)
Definition get (st : t) (tid : Z) : outcome ref :=
  let pageIndex := Z.shiftr tid DD_CONTEXT_PAGE_SHIFT in
  if negb (pageIndex <? _max_pages st) then AssertFail
  else
    page ← aread (_pages st) pageIndex;
    match page with
    | Some p =>
        context ← aread p (Z.land tid DD_CONTEXT_PAGE_MASK);
        if Z.lxor (spanId context) (rootSpanId context) =? checksum context
        then Ret (SlotRef pageIndex (Z.land tid DD_CONTEXT_PAGE_MASK))
        else Ret EmptyRef
    | None => Ret EmptyRef
    end.

(** [Contexts::initialize(pageIndex)]: install a zeroed page unless one
    is there. The two storage counters it bumps are not modelled. *)
Definition initialize (pageIndex : Z) (st : t) : outcome t :=
  page ← aread (_pages st) pageIndex;
  match page with
  | Some _ => Ret st
  | None =>
      Ret {| _max_pages := _max_pages st;
             _pages := <[Z.to_nat pageIndex :=
                           Some (replicate (Z.to_nat DD_CONTEXT_PAGE_SIZE)
                                           DD_EMPTY_CONTEXT)]> (_pages st) |}
  end.

(** [Contexts::getPage(tid)]: the table after the call and the storage of
    the page. The capacity in bytes it reports beside it needs
    [sizeof(Context)] of context.h and is left out. *)
Definition getPage (st : t) (tid : Z) : outcome (t * option (list Context)) :=
  let pageIndex := Z.shiftr tid DD_CONTEXT_PAGE_SHIFT in
  st' ← initialize pageIndex st;
  page ← aread (_pages st') pageIndex;
  Ret (st', page).

End Pages.

(** The record a reference designates. *)
Definition deref (st : t) (r : ref) : outcome Context :=
  match r with
  | EmptyRef => Ret DD_EMPTY_CONTEXT
  | SlotRef pageIndex slot =>
      page ← aread (_pages st) pageIndex;
      match page with
      | Some p => aread p slot
      | None => Undefined
      end
  end.

(** Shape of the table: one pointer per page, allocated pages complete. *)
Definition wf (shift : Z) (st : t) : Prop :=
  0 <= shift /\
  Z.of_nat (length (_pages st)) = _max_pages st /\
  forall i p, _pages st !! i = Some (Some p) ->
              Z.of_nat (length p) = DD_CONTEXT_PAGE_SIZE shift.

(** A table for 4096 thread ids in pages of 1024 records, of which the
    second page is allocated; thread 1234 (slot 210 of that page) has
    published the span 5 under the root span 3, thread 1235 is caught in
    the middle of an update. *)
Definition published : Context :=
  {| spanId := 5; rootSpanId := 3; checksum := 6; parallelism := 0 |}.

Definition torn : Context :=
  {| spanId := 9; rootSpanId := 3; checksum := 6; parallelism := 0 |}.

Definition one_page : t :=
  {| _max_pages := 4;
     _pages := [ None;
                 Some (<[211%nat := torn]>
                         (<[210%nat := published]>
                            (replicate 1024 DD_EMPTY_CONTEXT)));
                 None; None ] |}.

End Contexts.

(** * Liveness tracker (livenessTracker.cpp) *)

(** Array write: [a[i] = x] is defined only inside the allocation. *)
Definition awrite {A} (a : list A) (i : Z) (x : A) : outcome (list A) :=
  if (i <? 0) || (Z.of_nat (length a) <=? i) then Undefined
  else Ret (<[Z.to_nat i := x]> a).

Module LivenessTracker.

(** A weak global reference: [None] is NULL, [Some h] a JNI handle. *)
Definition jweak := option Z.
Definition frame := (Z * Z)%type.

Record TrackingEntry := mkEntry {
  ref : jweak;
  alloc : Z;
  frames_size : Z;
  frames : list frame;
  tid : Z;
  time : Z;
  age : Z;
  ctx : Contexts.Context
}.

(** Contents of a slot of the [malloc]ed table that was never written. *)
Definition uninit : TrackingEntry :=
  {| ref := None; alloc := 0; frames_size := 0; frames := []; tid := 0;
     time := 0; age := 0; ctx := Contexts.DD_EMPTY_CONTEXT |}.

(** The tracker. [deleted_refs] and [freed_frames] log the calls of
    [DeleteWeakGlobalRef] and [delete[]], most recent first. *)
Record t := mk {
  _initialized : bool;
  _table : list TrackingEntry;
  _table_size : Z;
  _table_cap : Z;
  _table_max_cap : Z;
  _gc_epoch : Z;
  _last_gc_epoch : Z;
  _record_heap_usage : bool;
  deleted_refs : list jweak;
  freed_frames : list (list frame)
}.

Definition set_table (s : t) (table : list TrackingEntry) (size : Z) : t :=
  {| _initialized := _initialized s; _table := table; _table_size := size;
     _table_cap := _table_cap s; _table_max_cap := _table_max_cap s;
     _gc_epoch := _gc_epoch s; _last_gc_epoch := _last_gc_epoch s;
     _record_heap_usage := _record_heap_usage s;
     deleted_refs := deleted_refs s; freed_frames := freed_frames s |}.

Definition set_caps (s : t) (cap max_cap : Z) : t :=
  {| _initialized := _initialized s; _table := _table s;
     _table_size := _table_size s;
     _table_cap := cap; _table_max_cap := max_cap;
     _gc_epoch := _gc_epoch s; _last_gc_epoch := _last_gc_epoch s;
     _record_heap_usage := _record_heap_usage s;
     deleted_refs := deleted_refs s; freed_frames := freed_frames s |}.

Definition set_epochs (s : t) (gc_epoch last_gc_epoch : Z) : t :=
  {| _initialized := _initialized s; _table := _table s;
     _table_size := _table_size s;
     _table_cap := _table_cap s; _table_max_cap := _table_max_cap s;
     _gc_epoch := gc_epoch; _last_gc_epoch := last_gc_epoch;
     _record_heap_usage := _record_heap_usage s;
     deleted_refs := deleted_refs s; freed_frames := freed_frames s |}.

Definition set_flags (s : t) (initialized record_heap_usage : bool) : t :=
  {| _initialized := initialized; _table := _table s;
     _table_size := _table_size s;
     _table_cap := _table_cap s; _table_max_cap := _table_max_cap s;
     _gc_epoch := _gc_epoch s; _last_gc_epoch := _last_gc_epoch s;
     _record_heap_usage := record_heap_usage;
     deleted_refs := deleted_refs s; freed_frames := freed_frames s |}.

Definition log_release (s : t) (r : jweak) (f : list frame) : t :=
  {| _initialized := _initialized s; _table := _table s;
     _table_size := _table_size s;
     _table_cap := _table_cap s; _table_max_cap := _table_max_cap s;
     _gc_epoch := _gc_epoch s; _last_gc_epoch := _last_gc_epoch s;
     _record_heap_usage := _record_heap_usage s;
     deleted_refs := r :: deleted_refs s;
     freed_frames := f :: freed_frames s |}.

Definition set_ref (e : TrackingEntry) (r : jweak) : TrackingEntry :=
  {| ref := r; alloc := alloc e; frames_size := frames_size e;
     frames := frames e; tid := tid e; time := time e; age := age e;
     ctx := ctx e |}.

Definition set_age (e : TrackingEntry) (a : Z) : TrackingEntry :=
  {| ref := ref e; alloc := alloc e; frames_size := frames_size e;
     frames := frames e; tid := tid e; time := time e; age := a;
     ctx := ctx e |}.

(** [env->IsSameObject(r, NULL)]: true for NULL and for a handle whose
    referent the collector has cleared; [collected] is the heap's answer. *)
Definition IsSameObject_null (collected : Z -> bool) (r : jweak) : bool :=
  match r with
  | None => true
  | Some h => collected h
  end.

(** The [for] loop of [cleanup_table]; [k] counts the turns left, [i] and
    [newsz] are the variables of the source. *)
Fixpoint cleanup_loop (collected : Z -> bool) (epoch_diff : Z) (k : nat)
         (i newsz : Z) (s : t) : outcome (t * Z) :=
  match k with
  | O => Ret (s, newsz)
  | S k' =>
      e ← aread (_table s) i;
      if negb (IsSameObject_null collected (ref e)) then
        (* _table[i].age += epoch_diff; *)
        let e1 := set_age e (age e + epoch_diff) in
        t1 ← awrite (_table s) i e1;
        (* _table[newsz++] = _table[i]; *)
        t2 ← awrite t1 newsz e1;
        (* _table[i].ref = NULL; *)
        ei ← aread t2 i;
        t3 ← awrite t2 i (set_ref ei None);
        cleanup_loop collected epoch_diff k' (i + 1) (u32 (newsz + 1))
                     (set_table s t3 (_table_size s))
      else
        (* DeleteWeakGlobalRef; _table[i].ref = NULL; delete[] frames *)
        t1 ← awrite (_table s) i (set_ref e None);
        cleanup_loop collected epoch_diff k' (i + 1) newsz
                     (log_release (set_table s t1 (_table_size s))
                                  (ref e) (frames e))
  end.

(** [LivenessTracker::cleanup_table], run without interference: the
    compare-and-swap on [_last_gc_epoch] then succeeds whenever the epoch
    has moved. *)
Definition cleanup_table (collected : Z -> bool) (s : t) : outcome t :=
  let current := _last_gc_epoch s in
  let target_gc_epoch := _gc_epoch s in
  if target_gc_epoch =? _last_gc_epoch s then Ret s
  else
    let s1 := set_epochs s (_gc_epoch s) target_gc_epoch in
    let epoch_diff := to_int (u64 (target_gc_epoch - current)) in
    r ← cleanup_loop collected epoch_diff (Z.to_nat (u32 (_table_size s1)))
                     0 0 s1;
    Ret (set_table (fst r) (_table (fst r)) (snd r)).

(** The entries [flush_table] reports: those whose [NewLocalRef] is not
    NULL. *)
Fixpoint flush_loop (collected : Z -> bool) (k : nat) (i : Z)
         (table : list TrackingEntry) : outcome (list TrackingEntry) :=
  match k with
  | O => Ret []
  | S k' =>
      e ← aread table i;
      rest ← flush_loop collected k' (i + 1) table;
      Ret (if IsSameObject_null collected (ref e) then rest else e :: rest)
  end.

(** [LivenessTracker::flush_table]: the new state and the events handed to
    the recorder. The heap-usage event it may add does not touch the
    tracker and is left out. *)
Definition flush_table (collected : Z -> bool) (s : t)
  : outcome (t * list TrackingEntry) :=
  s1 ← cleanup_table collected s;
  events ← flush_loop collected (Z.to_nat (_table_size s1)) 0 (_table s1);
  Ret (s1, events).

(** [LivenessTracker::onGC]; the snapshot of the heap usage it may take
    is kept in a field of its own and is left out. *)
Definition onGC (s : t) : t :=
  if negb (_initialized s) then s
  else set_epochs s (u64 (_gc_epoch s + 1)) (_last_gc_epoch s).

(** What [initialize] learns from the JVM and from the arguments. *)
Record InitEnv := mkInitEnv {
  java_version : Z;
  heap_maxSize : Z;                 (* HeapUsage::get()._maxSize *)
  runtime_maxMemory : option Z;     (* Runtime.maxMemory(), if reachable *)
  class_getName_found : bool;       (* java/lang/Class and its getName *)
  args_memory : Z;
  args_record_heap_usage : bool
}.

(** What one call of [track] receives and observes. *)
Record TrackInput := mkInput {
  in_event : Z;
  in_tid : Z;
  in_ref : jweak;                   (* result of NewWeakGlobalRef *)
  in_num_frames : Z;
  in_frames : list frame;
  in_ticks : Z;                     (* TSC::ticks() *)
  in_ctx : Contexts.Context;        (* Contexts::get(tid) *)
  lock_first : bool;                (* tryLockShared, first pass *)
  lock_retry : bool;                (* tryLockShared after [goto retry] *)
  realloc_ok : bool
}.

Definition new_entry (inp : TrackInput) : TrackingEntry :=
  {| ref := in_ref inp; alloc := in_event inp;
     frames_size := in_num_frames inp;
     frames := take (Z.to_nat (in_num_frames inp)) (in_frames inp);
     tid := in_tid inp; time := in_ticks inp; age := 0;
     ctx := in_ctx inp |}.

(** [realloc(_table, sizeof(TrackingEntry) * (_table_cap = newcap))]:
    the capacity is overwritten before the outcome is known. *)
Definition grow (ok : bool) (newcap : Z) (s : t) : t :=
  let s1 := set_caps s newcap (_table_max_cap s) in
  if ok then
    set_table s1 (take (Z.to_nat newcap)
                       (_table s ++ replicate (Z.to_nat newcap) uninit))
              (_table_size s)
  else s1.

(** The code of [track] from the label [retry] on. [lock_ok] is the answer
    of [tryLockShared], [retry] the continuation of [goto retry]. *)
Definition track_attempt (collected : Z -> bool) (inp : TrackInput)
           (lock_ok retried : bool) (retry : t -> outcome t) (s : t)
  : outcome t :=
  if negb lock_ok then Ret s
  else
    let idx := _table_size s in
    s1 ← (if idx <? _table_cap s then
             tbl ← awrite (_table s) idx (new_entry inp);
             Ret (set_table s tbl (idx + 1))
           else Ret s);
    if idx =? _table_cap s1 then
      if negb retried then
        s2 ← cleanup_table collected s1;
        if _table_cap s2 <? _table_max_cap s2 then
          let newcap := Z.min (_table_cap s2 * 2) (_table_max_cap s2) in
          retry (if negb (_table_cap s2 =? newcap)
                 then grow (realloc_ok inp) newcap s2 else s2)
        else Ret s2
      else Ret s1
    else Ret s1.

(** [LivenessTracker::track]. The [delete[] frames] at its end releases
    the caller's array, which the tracker never holds, and is left out. *)
Definition track (collected : Z -> bool) (inp : TrackInput) (s : t)
  : outcome t :=
  if _table_max_cap s =? 0 then Ret s
  else match in_ref inp with
       | None => Ret s
       | Some _ =>
           track_attempt collected inp (lock_first inp) false
             (track_attempt collected inp (lock_retry inp) true Ret) s
       end.

(** [LivenessTracker::stop]: the state it leaves and the events of its
    flush. *)
Definition stop (collected : Z -> bool) (s : t)
  : outcome (t * list TrackingEntry) :=
  s1 ← cleanup_table collected s;
  flush_table collected s1.

Section Sizing.

(** [MAX_TRACKING_TABLE_SIZE] is declared in livenessTracker.h, which is
    not among the sources. *)
Variable MAX_TRACKING_TABLE_SIZE : Z.

(** [LivenessTracker::initialize_table]: the new state and whether an
    error is returned. *)
Definition initialize_table (env : InitEnv) (sampling_interval : Z) (s : t)
  : t * bool :=
  let s0 := set_caps s (_table_cap s) 0 in
  let max_heap :=
    if heap_maxSize env =? -1
    then default (-1) (runtime_maxMemory env)
    else heap_maxSize env in
  if max_heap =? -1 then (s0, true)
  else
    let required_table_capacity :=
      to_int (if sampling_interval >? 0
              then Z.quot max_heap sampling_interval else max_heap) in
    let max_cap := Z.min MAX_TRACKING_TABLE_SIZE required_table_capacity in
    (set_caps s0 (Z.max 2048 (Z.quot max_cap 8)) max_cap, false).

(** [LivenessTracker::initialize] *)
Definition initialize (env : InitEnv) (s : t) : t :=
  if _initialized s then s
  else
    let s1 := set_flags s true (_record_heap_usage s) in
    if java_version env <? 11 then set_caps s1 (_table_cap s1) 0
    else
      let r := initialize_table env (to_int (args_memory env)) s1 in
      let s2 := fst r in
      if snd r then set_caps s2 (_table_cap s2) 0
      else if negb (class_getName_found env)
      then set_caps s2 (_table_cap s2) 0
      else
        let cap := Z.min 2048 (_table_max_cap s2) in
        let s3 := set_table (set_caps s2 cap (_table_max_cap s2))
                            (replicate (Z.to_nat cap) uninit) 0 in
        set_epochs (set_flags s3 true (args_record_heap_usage env)) 0 0.

End Sizing.

(** The tracker as [new LivenessTracker()] leaves it before the first
    [initialize]; the values of the fields are whatever the constructor
    (not among the sources) gave them. *)
Definition blank (size cap max_cap : Z) : t :=
  {| _initialized := false; _table := []; _table_size := size;
     _table_cap := cap; _table_max_cap := max_cap;
     _gc_epoch := 0; _last_gc_epoch := 0; _record_heap_usage := false;
     deleted_refs := []; freed_frames := [] |}.

(** The operations that touch the table once the tracker runs, each with
    the answers of the collector at the time of the call. *)
Inductive op :=
| Track (collected : Z -> bool) (inp : TrackInput)
| Cleanup (collected : Z -> bool)
| Flush (collected : Z -> bool)
| OnGC.

Definition run_op (o : op) (s : t) : outcome t :=
  match o with
  | Track collected inp => track collected inp s
  | Cleanup collected => cleanup_table collected s
  | Flush collected => r ← flush_table collected s; Ret (fst r)
  | OnGC => Ret (onGC s)
  end.

Fixpoint run_ops (ops : list op) (s : t) : outcome t :=
  match ops with
  | [] => Ret s
  | o :: ops' => s' ← run_op o s; run_ops ops' s'
  end.

(** The sizing invariant. *)
Definition inv (s : t) : Prop :=
  _table_size s <= _table_cap s <= _table_max_cap s.


End LivenessTracker.

(** * Chunk rotation of the recorder (flightRecorder.cpp) *)

Module Arguments.

(** The two fields of [Arguments] the recorder reads for rotation. The
    class is declared in arguments.h, which is not among the sources; the
    fields are compared with [0] as signed numbers, and the model takes
    them as 64-bit [long]s. *)
Record t := mk {
  _chunk_size : Z;
  _chunk_time : Z
}.


End Arguments.

Module Recording.

Definition MAX_JLONG : Z := 0x7fffffffffffffff.

Record t := mk {
  _start_time : Z;
  _base_id : Z;
  _bytes_written : Z;
  _chunk_size : Z;
  _chunk_time : Z
}.

(** The initialiser of [_chunk_size] in the constructor. *)
Definition chunk_size_of (args : Arguments.t) : Z :=
  if Arguments._chunk_size args <=? 0 then MAX_JLONG
  else u64 (if Arguments._chunk_size args <? 262144 then 262144
            else Arguments._chunk_size args).

(** The initialiser of [_chunk_time]: seconds turned into microseconds in
    [u64] arithmetic. *)
Definition chunk_time_of (args : Arguments.t) : Z :=
  if Arguments._chunk_time args <=? 0 then MAX_JLONG
  else u64 ((if Arguments._chunk_time args <? 5 then 5
             else Arguments._chunk_time args) * 1000000).

(** The constructor, as far as rotation is concerned; [micros] is
    [OS::micros()]. *)
Definition make (micros : Z) (args : Arguments.t) : t :=
  {| _start_time := micros;
     _base_id := 0;
     _bytes_written := 0;
     _chunk_size := chunk_size_of args;
     _chunk_time := chunk_time_of args |}.

(** Bytes handed to [write] by a flush. *)
Definition account (n : Z) (r : t) : t :=
  {| _start_time := _start_time r; _base_id := _base_id r;
     _bytes_written := u64 (_bytes_written r + n);
     _chunk_size := _chunk_size r; _chunk_time := _chunk_time r |}.

(** [Recording::switchChunk], as far as rotation is concerned. *)
Definition switchChunk (stop_time : Z) (r : t) : t :=
  {| _start_time := stop_time;
     _base_id := u64 (_base_id r + 0x1000000);
     _bytes_written := 0;
     _chunk_size := _chunk_size r; _chunk_time := _chunk_time r |}.



(** [_base_id] after the rotations that ended at the times [stops]. *)
Definition rotate (stops : list Z) (r : t) : t :=
  foldl (fun r stop_time => switchChunk stop_time r) r stops.

Definition RECORDING_BUFFER_LIMIT : Z := Buffer.RECORDING_BUFFER_SIZE - 4096.

(** [Recording::flush]: the bytes before the cursor are handed to [write]
    and the buffer starts afresh. [out] is the sequence of bytes handed
    to [write] so far; [write] is taken to accept all of them and to
    answer with their number, which is added to [_bytes_written] when it
    is positive. *)
Definition flush (r : t) (out : list Z) (buf : Buffer.t)
  : t * list Z * Buffer.t :=
  let result := Buffer._offset buf in
  (if result >? 0 then account result r else r,
   out ++ take (Z.to_nat (Buffer._offset buf)) (Buffer._data buf),
   Buffer.reset buf).

(** [Recording::flushIfNeeded] *)
Definition flushIfNeeded (limit : Z) (r : t) (out : list Z) (buf : Buffer.t)
  : t * list Z * Buffer.t :=
  if Buffer._offset buf >=? limit then flush r out buf else (r, out, buf).

(** The loop of [writeConstantPoolSection] over the constants that
    [Dictionary::collect] has put into the map, in the order of their
    ids: the key [id | _base_id], the string, and a flush when the
    buffer has filled up to [RECORDING_BUFFER_LIMIT]. *)
Fixpoint write_constants (constants : list (Z * string)) (r : t)
         (out : list Z) (buf : Buffer.t) : outcome (t * list Z * Buffer.t) :=
  match constants with
  | [] => Ret (r, out, buf)
  | c :: rest =>
      buf ← Buffer.putVar64 (Z.lor (fst c) (_base_id r)) buf;
      buf ← Buffer.putUtf8 (Some (snd c)) buf;
      let st := flushIfNeeded RECORDING_BUFFER_LIMIT r out buf in
      write_constants rest (fst (fst st)) (snd (fst st)) (snd st)
  end.

(** [Recording::writeConstantPoolSection], the body of [writeSymbols] and
    [writeStrings]; [type] is [T_SYMBOL] or [T_STRING] of jfrMetadata.h. *)
Definition writeConstantPoolSection (type : Z) (constants : list (Z * string))
           (r : t) (out : list Z) (buf : Buffer.t)
  : outcome (t * list Z * Buffer.t) :=
  buf ← Buffer.putVar64 type buf;
  buf ← Buffer.putVar64 (Z.of_nat (length constants)) buf;
  write_constants constants r out buf.

(** The magic ["FLR\0"]. *)
Definition magic : list Z := [70; 76; 82; 0].

(** [Recording::writeHeader]; [start_ticks] is [_start_ticks] and
    [frequency] the answer of [TSC::frequency()]. *)
Definition writeHeader (start_ticks frequency : Z) (r : t) (buf : Buffer.t)
  : outcome Buffer.t :=
  buf ← Buffer.put magic 4 buf;
  buf ← Buffer.put16 2 buf;
  buf ← Buffer.put16 0 buf;
  buf ← Buffer.put64 (1024 * 1024 * 1024) buf;
  buf ← Buffer.put64 0 buf;
  buf ← Buffer.put64 0 buf;
  buf ← Buffer.put64 (u64 (_start_time r * 1000)) buf;
  buf ← Buffer.put64 0 buf;
  buf ← Buffer.put64 start_ticks buf;
  buf ← Buffer.put64 frequency buf;
  Buffer.put32 1 buf.

(** The part of [finishChunk] under "Patch chunk header": seven fields
    stored into the buffer the preceding [flush] has reset, and the first
    56 bytes of the buffer handed to [pwrite]. *)
Definition header_patch (chunk_start cpool_offset chunk_end stop_time
                         start_ticks frequency : Z) (r : t) (buf : Buffer.t)
  : outcome (list Z) :=
  buf ← Buffer.put64 (u64 (chunk_end - chunk_start)) buf;
  buf ← Buffer.put64 (u64 (cpool_offset - chunk_start)) buf;
  buf ← Buffer.put64 68 buf;
  buf ← Buffer.put64 (u64 (_start_time r * 1000)) buf;
  buf ← Buffer.put64 (u64 (u64 (stop_time - _start_time r) * 1000)) buf;
  buf ← Buffer.put64 start_ticks buf;
  buf ← Buffer.put64 frequency buf;
  Ret (take 56 (Buffer._data buf)).

(** [pwrite(fd, data, count, pos)] inside a file that reaches beyond
    [pos + count]: the bytes there are replaced. *)
Definition pwrite (file data : list Z) (pos : Z) : list Z :=
  take (Z.to_nat pos) file ++ data
  ++ drop (Z.to_nat pos + length data) file.

(** [Recording::recordExecutionSample]. [T_EXECUTION_SAMPLE] is a constant
    of jfrMetadata.h; [ticks] is the answer of [TSC::ticks()]; the fields
    of the event and of its context are passed one by one. *)
Definition recordExecutionSample (T_EXECUTION_SAMPLE ticks tid call_trace_id
                                  thread_state spanId rootSpanId weight : Z)
           (buf : Buffer.t) : outcome Buffer.t :=
  let start := fst (Buffer.skip 1 buf) in
  buf ← Buffer.putVar64 T_EXECUTION_SAMPLE (snd (Buffer.skip 1 buf));
  buf ← Buffer.putVar64 ticks buf;
  buf ← Buffer.putVar64 tid buf;
  buf ← Buffer.putVar64 call_trace_id buf;
  buf ← Buffer.putVar64 thread_state buf;
  buf ← Buffer.putVar64 spanId buf;
  buf ← Buffer.putVar64 rootSpanId buf;
  buf ← Buffer.putVar64 weight buf;
  Buffer.put8_at start (Buffer._offset buf - start) buf.

(** [FlightRecorder::recordLog], up to the bytes it hands to [flush]:
    [None] when the recording lock is not to be had. The buffer lives in
    [alloca(len + 40)], of which the first four bytes are [_offset]; what
    the memory holds before is [junk]. [T_LOG] is a constant of
    jfrMetadata.h. *)
Definition recordLog (lock_ok : bool) (T_LOG ticks level : Z)
           (message : list Z) (len : Z) (junk : nat -> Z)
  : outcome (option (list Z)) :=
  if negb lock_ok then Ret None
  else
    let len := if len >? Buffer.MAX_STRING_LENGTH
               then Buffer.MAX_STRING_LENGTH else len in
    let buf := Buffer.reset
                 {| Buffer._offset := junk O;
                    Buffer._data := map junk (seq 4 (Z.to_nat (len + 40 - 4))) |} in
    let start := fst (Buffer.skip 5 buf) in
    buf ← Buffer.putVar64 T_LOG (snd (Buffer.skip 5 buf));
    buf ← Buffer.putVar64 ticks buf;
    buf ← Buffer.putVar64 level buf;
    buf ← Buffer.putUtf8_len message len buf;
    buf ← Buffer.putVar32_at start (Buffer._offset buf - start) buf;
    Ret (Some (take (Z.to_nat (Buffer._offset buf)) (Buffer._data buf))).

End Recording.

(** * Line numbers of a method (flightRecorder.cpp) *)

Module MethodInfo.

Record jvmtiLineNumberEntry := mkLine {
  start_location : Z;
  line_number : Z
}.

(** The fields of [MethodInfo] that [getLineNumber] reads, and the
    modifiers. *)
Record t := mk {
  _modifiers : Z;
  _line_number_table_size : Z;
  _line_number_table : list jvmtiLineNumberEntry
}.

(** The [while] loop of [getLineNumber]: the value of [i] it ends with.
    A unit of fuel is used each time [i] is incremented. *)
Fixpoint getLineNumber_loop (fuel : nat) (mi : t) (bci i : Z) : outcome Z :=
  if i <? _line_number_table_size mi then
    e ← aread (_line_number_table mi) i;
    if bci >=? start_location e then
      match fuel with
      | O => OutOfFuel
      | S fuel' => getLineNumber_loop fuel' mi bci (i + 1)
      end
    else Ret i
  else Ret i.

(** [MethodInfo::getLineNumber]. [i] starts at 1 and stops at the size of
    the table at the latest. *)
Definition getLineNumber (mi : t) (bci : Z) : outcome Z :=
  if _line_number_table_size mi =? 0 then Ret 0
  else
    i ← getLineNumber_loop (Z.to_nat (_line_number_table_size mi)) mi bci 1;
    e ← aread (_line_number_table mi) (i - 1);
    Ret (line_number e).

End MethodInfo.

(** * The array of native libraries (codeCache.h) *)

Module CodeCacheArray.

Definition MAX_NATIVE_LIBS : Z := 2048.

(** [_libs] holds pointers to caches, [None] for NULL. *)
Record t := mk {
  _libs : list (option CodeCache.t);
  _count : Z
}.

(** The constructor. *)
Definition make : t :=
  {| _libs := replicate (Z.to_nat MAX_NATIVE_LIBS) None; _count := 0 |}.

(** [operator[]] *)
Definition get (a : t) (index : Z) : outcome (option CodeCache.t) :=
  aread (_libs a) index.

Definition count (a : t) : Z := _count a.

(** [CodeCacheArray::add] *)
Definition add (lib : option CodeCache.t) (a : t) : outcome t :=
  let index := _count a in
  libs ← awrite (_libs a) index lib;
  Ret {| _libs := libs; _count := index + 1 |}.

(** Libraries added one after the other, as the profiler does while it
    walks the loaded objects. *)
Fixpoint add_all (libs : list (option CodeCache.t)) (a : t) : outcome t :=
  match libs with
  | [] => Ret a
  | lib :: libs' => a' ← add lib a; add_all libs' a'
  end.

End CodeCacheArray.

(** * Properties of a symbol table, in the words of the specification *)

Module CodeCacheSpec.

(** [address] lies in the half-open range of [b]. *)
Definition covers (b : CodeBlob.t) (address : Z) : bool :=
  (CodeBlob._start b <=? address) && (address <? CodeBlob._end b).

(** [a] may stand before [b] after [sort]. *)
Definition le_blob (a b : CodeBlob.t) : Prop := CodeBlob.comparator a b <= 0.

(** Ordered as [sort] leaves the blobs: by the comparator. *)
Definition sorted (l : list CodeBlob.t) : Prop := StronglySorted le_blob l.

(** Every blob has [start <= end]. *)
Definition well_formed (l : list CodeBlob.t) : Prop :=
  Forall (fun b => CodeBlob._start b <= CodeBlob._end b) l.

(** No blob reaches into a later one. *)
Definition non_overlapping (l : list CodeBlob.t) : Prop :=
  StronglySorted (fun a b => CodeBlob._end a <= CodeBlob._start b) l.

(** Neither the cache nor a blob in use carries a NULL name. *)
Definition named (c : CodeCache.t) : Prop :=
  is_Some (CodeCache._name c) /\
  Forall (fun b => is_Some (CodeBlob._name b)) (CodeCache.live c).

(** The machine-level shape of a cache: [_count] is a non-negative [int]
    within the array. *)
Definition shaped (c : CodeCache.t) : Prop :=
  0 <= CodeCache._count c < 2 ^ 31 /\
  CodeCache._count c <= Z.of_nat (length (CodeCache._blobs c)).

(** [_dwarf_table_length] is the number of entries of [_dwarf_table]. *)
Definition dwarf_consistent (c : CodeCache.t) : Prop :=
  CodeCache._dwarf_table_length c
  = Z.of_nat (length (default [] (CodeCache._dwarf_table c))).

(** Insertion point of [address]: the number of blobs that end at or
    before it. *)
Fixpoint insertion_point (l : list CodeBlob.t) (address : Z) : nat :=
  match l with
  | [] => O
  | b :: l' =>
      ((if (CodeBlob._end b <=? address)%Z then 1 else 0)
       + insertion_point l' address)%nat
  end.

(** The answer the specification prescribes: the covering blob; failing
    that, the blob before the insertion point if it is empty or ends at
    [address]; failing that, the cache's own name. *)
Definition lookup (c : CodeCache.t) (address : Z) : option NativeFunc.t :=
  let l := CodeCache.live c in
  match List.find (fun b => covers b address) l with
  | Some b => CodeBlob._name b
  | None =>
      match insertion_point l address with
      | O => CodeCache._name c
      | S p =>
          match l !! p with
          | Some b =>
              if (CodeBlob._start b =? CodeBlob._end b)
                 || (CodeBlob._end b =? address)
              then CodeBlob._name b else CodeCache._name c
          | None => CodeCache._name c
          end
      end
  end.

End CodeCacheSpec.

(** ** Loop invariant of the binary search and the caches of the scenarios *)

Module CodeCacheLoop.

Import CodeCacheSpec.

(** What holds of [low] and [high] when the loop of [binarySearch] over
    the first [n] slots of [blobs] is entered, and after each turn: all
    blobs before [low] end at or before [address], all blobs after [high]
    start beyond it. *)
Definition bracket (blobs : list CodeBlob.t) (n address low high : Z) : Prop :=
  0 <= low /\ high < n /\ low <= high + 1 /\
  (forall (i : nat) b, Z.of_nat i < low ->
      take (Z.to_nat n) blobs !! i = Some b -> CodeBlob._end b <= address) /\
  (forall (i : nat) b, high < Z.of_nat i ->
      take (Z.to_nat n) blobs !! i = Some b -> address < CodeBlob._start b).

(** What holds of the way the loop is left. *)
Definition settled (blobs : list CodeBlob.t) (n address : Z)
           (e : CodeCache.exit) : Prop :=
  match e with
  | CodeCache.Found name =>
      exists (i : nat) b, take (Z.to_nat n) blobs !! i = Some b /\
                          covers b address = true /\ name = CodeBlob._name b
  | CodeCache.NotFound low => bracket blobs n address low (low - 1)
  end.

End CodeCacheLoop.

Module Scenario.

Import CodeCache.

(** Scenario S1: a cache holding the blobs [0x1000,0x1100) "foo" and
    [0x1100,0x1200) "bar", added in either order, then sorted. *)
Definition S1 (name : string) (lib_index : Z) (bar_first : bool) : outcome t :=
  let c0 := make name lib_index NO_MIN_ADDRESS NO_MAX_ADDRESS in
  c1 ← (if bar_first then add 0x1100 0x100 "bar" false c0
        else add 0x1000 0x100 "foo" false c0);
  c2 ← (if bar_first then add 0x1000 0x100 "foo" false c1
        else add 0x1100 0x100 "bar" false c1);
  Ret (sort c2).

Definition foo (lib_index : Z) : CodeBlob.t :=
  {| CodeBlob._start := 0x1000; CodeBlob._end := 0x1100;
     CodeBlob._name := Some (NativeFunc.create "foo" lib_index) |}.

Definition bar (lib_index : Z) : CodeBlob.t :=
  {| CodeBlob._start := 0x1100; CodeBlob._end := 0x1200;
     CodeBlob._name := Some (NativeFunc.create "bar" lib_index) |}.

(** The cache [S1] returns, written out. *)
Definition S1_cache (name : string) (lib_index : Z) : t :=
  {| _name := Some (NativeFunc.create name (-1));
     _lib_index := lib_index;
     _min_address := 0x1000;
     _max_address := 0x1200;
     _text_base := 0;
     _got_start := 0;
     _got_end := 0;
     _got_patchable := false;
     _dwarf_table := None;
     _dwarf_table_length := 0;
     _capacity := INITIAL_CODE_CACHE_CAPACITY;
     _count := 2;
     _blobs := foo lib_index :: bar lib_index :: replicate 998 CodeBlob.uninit |}.

(** A sorted cache with nested blobs: "outer" [0x1000,0x2000) encloses
    "first" [0x1100,0x1200) and "second" [0x1300,0x1400). *)
Definition nested : t :=
  {| _name := Some (NativeFunc.create "libdemo.so" (-1));
     _lib_index := 0;
     _min_address := 0x1000;
     _max_address := 0x1400;
     _text_base := 0;
     _got_start := 0;
     _got_end := 0;
     _got_patchable := false;
     _dwarf_table := None;
     _dwarf_table_length := 0;
     _capacity := INITIAL_CODE_CACHE_CAPACITY;
     _count := 3;
     _blobs :=
       [ {| CodeBlob._start := 0x1000; CodeBlob._end := 0x2000;
            CodeBlob._name := Some (NativeFunc.create "outer" 0) |};
         {| CodeBlob._start := 0x1100; CodeBlob._end := 0x1200;
            CodeBlob._name := Some (NativeFunc.create "first" 0) |};
         {| CodeBlob._start := 0x1300; CodeBlob._end := 0x1400;
            CodeBlob._name := Some (NativeFunc.create "second" 0) |} ]
       ++ replicate 997 CodeBlob.uninit |}.

(** How [nested] comes about: three calls of [add], then [sort]. *)
Definition nested_built : outcome t :=
  let c0 := make "libdemo.so" 0 NO_MIN_ADDRESS NO_MAX_ADDRESS in
  c1 ← add 0x1300 0x100 "second" false c0;
  c2 ← add 0x1000 0x1000 "outer" false c1;
  c3 ← add 0x1100 0x100 "first" false c2;
  Ret (sort c3).

(** Scenario S2: a cache holding the empty blob [0x2000,0x2000) "entry"
    and the blob [0x2000,0x2100) "enclosing" that starts at the same
    address, added in either order, then sorted. *)
Definition S2 (name : string) (lib_index : Z) (entry_first : bool) : outcome t :=
  let c0 := make name lib_index NO_MIN_ADDRESS NO_MAX_ADDRESS in
  c1 ← (if entry_first then add 0x2000 0 "entry" false c0
        else add 0x2000 0x100 "enclosing" false c0);
  c2 ← (if entry_first then add 0x2000 0x100 "enclosing" false c1
        else add 0x2000 0 "entry" false c1);
  Ret (sort c2).

Definition entry (lib_index : Z) : CodeBlob.t :=
  {| CodeBlob._start := 0x2000; CodeBlob._end := 0x2000;
     CodeBlob._name := Some (NativeFunc.create "entry" lib_index) |}.

Definition enclosing (lib_index : Z) : CodeBlob.t :=
  {| CodeBlob._start := 0x2000; CodeBlob._end := 0x2100;
     CodeBlob._name := Some (NativeFunc.create "enclosing" lib_index) |}.

End Scenario.
(** ** Invariants and scenarios of the liveness tracker *)

Module LivenessSpec.

Import LivenessTracker.

(** The sizing invariant together with what the machine types add to it:
    sizes are not negative and [_table_max_cap] is an [int]. *)
Definition sized (s : t) : Prop :=
  0 <= _table_size s /\ inv s /\ _table_max_cap s < 2 ^ 31.

(** The table has the [_table_cap] slots the tracker believes it has. *)
Definition allocated (s : t) : Prop :=
  Z.of_nat (length (_table s)) = _table_cap s.

(** The heap size [initialize_table] works with, and the capacity it
    derives for the sampling interval [args_memory]. *)
Definition max_heap_of (env : InitEnv) : Z :=
  if heap_maxSize env =? -1 then default (-1) (runtime_maxMemory env)
  else heap_maxSize env.

Definition required_capacity (env : InitEnv) : Z :=
  to_int (if to_int (args_memory env) >? 0
          then Z.quot (max_heap_of env) (to_int (args_memory env))
          else max_heap_of env).

(** [initialize] goes all the way to the allocation of the table. *)
Definition enables (env : InitEnv) : Prop :=
  11 <= java_version env /\ class_getName_found env = true /\
  max_heap_of env <> -1.

(** The collector has cleared nothing. *)
Definition all_alive : Z -> bool := fun _ => false.

Definition GiB : Z := 2 ^ 30.
Definition KiB : Z := 2 ^ 10.

(** A JVM of version 17 with a heap of [max_heap] bytes, the profiler
    started with sampling interval [interval]. *)
Definition jvm (max_heap interval : Z) : InitEnv :=
  {| java_version := 17; heap_maxSize := max_heap;
     runtime_maxMemory := Some max_heap; class_getName_found := true;
     args_memory := interval; args_record_heap_usage := false |}.

(** The same JVM when [java/lang/Class] or its [getName] cannot be found. *)
Definition jvm_without_getName (max_heap interval : Z) : InitEnv :=
  {| java_version := 17; heap_maxSize := max_heap;
     runtime_maxMemory := Some max_heap; class_getName_found := false;
     args_memory := interval; args_record_heap_usage := false |}.

(** One sampled allocation by thread 42, the table lock free. *)
Definition sample : TrackInput :=
  {| in_event := 0; in_tid := 42; in_ref := Some 7; in_num_frames := 1;
     in_frames := [(1, 2)]; in_ticks := 100;
     in_ctx := Contexts.DD_EMPTY_CONTEXT;
     lock_first := true; lock_retry := true; realloc_ok := true |}.


(** The tracker after [initialize] with a heap of 1 GiB and the interval
    512 KiB, one call of [track] with [sample], and one collection. *)
Definition one_survivor : t :=
  {| _initialized := true;
     _table := new_entry sample :: replicate 2047 uninit;
     _table_size := 1; _table_cap := 2048; _table_max_cap := 2048;
     _gc_epoch := 1; _last_gc_epoch := 0; _record_heap_usage := false;
     deleted_refs := []; freed_frames := [] |}.




(** The referent of the entry is still there. *)
Definition alive (collected : Z -> bool) (e : TrackingEntry) : bool :=
  negb (IsSameObject_null collected (ref e)).

(** What the loop of [cleanup_table] makes of the entries [l]: the dead
    ones are dropped, the survivors keep their order and age by [diff];
    a survivor met before any dead entry ([in_place]) is left where it is
    and loses its reference. *)
Fixpoint compacted (collected : Z -> bool) (diff : Z) (in_place : bool)
         (l : list TrackingEntry) : list TrackingEntry :=
  match l with
  | [] => []
  | e :: l' =>
      if alive collected e then
        (if in_place then set_ref (set_age e (age e + diff)) None
         else set_age e (age e + diff))
        :: compacted collected diff in_place l'
      else compacted collected diff false l'
  end.

(** The entries the collector has cleared. *)
Definition dead_of (collected : Z -> bool) (l : list TrackingEntry)
  : list TrackingEntry :=
  filter (fun e => alive collected e = false) l.

End LivenessSpec.

(** * Theorems *)

(** ** Code cache: the binary search *)

Section BinarySearch.

Import CodeCacheSpec CodeCacheLoop.

Variable blobs : list CodeBlob.t.
Variable n : Z.
Variable address : Z.

Hypothesis n_range : 0 <= n < 2 ^ 31.
Hypothesis n_fits : n <= Z.of_nat (length blobs).
Hypothesis blobs_wf :
  forall (i : nat) b, take (Z.to_nat n) blobs !! i = Some b ->
                      CodeBlob._start b <= CodeBlob._end b.
Hypothesis blobs_apart :
  forall (i j : nat) bi bj, (i < j)%nat ->
    take (Z.to_nat n) blobs !! i = Some bi ->
    take (Z.to_nat n) blobs !! j = Some bj ->
    CodeBlob._end bi <= CodeBlob._start bj.

Lemma aread_live (i : Z) :
  0 <= i < n -> exists b, aread blobs i = Ret b /\
                          take (Z.to_nat n) blobs !! Z.to_nat i = Some b.
Proof.
  intros Hi. unfold aread.
  destruct (Z.ltb_spec i 0); [lia|].
  destruct (lookup_lt_is_Some_2 blobs (Z.to_nat i)) as [b Hb]; [lia|].
  exists b. rewrite Hb. split; [done|].
  rewrite lookup_take_lt by lia. done.
Qed.

Lemma mid_between low high :
  0 <= low -> low <= high -> high < n ->
  low <= Z.shiftr (u32 (low + high)) 1 <= high.
Proof.
  intros. unfold u32. rewrite Z.mod_small by lia.
  rewrite Z.shiftr_div_pow2 by lia. change (2 ^ 1) with 2.
  split.
  - apply Z.div_le_lower_bound; lia.
  - apply Z.div_le_upper_bound; lia.
Qed.

(** With fuel for every turn the loop returns, and what it returns obeys
    [settled]. *)
Lemma binarySearch_loop_settles (fuel : nat) : forall low high,
  bracket blobs n address low high -> high + 1 - low < Z.of_nat fuel ->
  exists e, CodeCache.binarySearch_loop fuel blobs address low high = Ret e
            /\ settled blobs n address e.
Proof.
  induction fuel as [|fuel IH]; intros low high Hbr Hfuel.
  - destruct Hbr as (? & ? & ? & _). lia.
  - destruct Hbr as (Hlow & Hhigh & Hle & Hbelow & Habove).
    cbn [CodeCache.binarySearch_loop].
    destruct (Z.leb_spec low high) as [Hlh|Hlh].
    2: { exists (CodeCache.NotFound low). split; [done|].
         cbn. assert (high = low - 1) as <- by lia.
         unfold bracket. split_and!; try lia; assumption. }
    pose proof (mid_between low high Hlow Hlh Hhigh) as Hmid.
    set (mid := Z.shiftr (u32 (low + high)) 1) in *.
    destruct (aread_live mid) as (b & -> & Hb); [lia|].
    cbn.
    destruct (Z.leb_spec (CodeBlob._end b) address) as [Hend|Hend].
    { apply IH; [|lia].
      unfold bracket. split_and!; try lia.
      - intros i bi Hi Hbi.
        destruct (decide (i = Z.to_nat mid)) as [->|Hne].
        + assert (bi = b) as -> by congruence. lia.
        + assert (CodeBlob._end bi <= CodeBlob._start b)
            by (apply (blobs_apart i (Z.to_nat mid)); [lia|done..]).
          pose proof (blobs_wf _ _ Hb). lia.
      - exact Habove. }
    destruct (Z.gtb_spec (CodeBlob._start b) address) as [Hst|Hst].
    { apply IH; [|lia].
      unfold bracket. split_and!; try lia.
      - exact Hbelow.
      - intros i bi Hi Hbi.
        destruct (decide (i = Z.to_nat mid)) as [->|Hne].
        + assert (bi = b) as -> by congruence. lia.
        + assert (CodeBlob._end b <= CodeBlob._start bi)
            by (apply (blobs_apart (Z.to_nat mid) i); [lia|done..]).
          pose proof (blobs_wf _ _ Hb). lia. }
    exists (CodeCache.Found (CodeBlob._name b)). split; [done|].
    exists (Z.to_nat mid), b. split; [done|]. split; [|done].
    unfold covers. apply andb_true_iff.
    split; [apply Z.leb_le|apply Z.ltb_lt]; lia.
Qed.

Lemma bracket_start : bracket blobs n address 0 (n - 1).
Proof.
  unfold bracket. split_and!; try lia.
  intros i b Hi Hb. apply lookup_lt_Some in Hb.
  rewrite length_take in Hb. lia.
Qed.

End BinarySearch.

Section Lookup.

Import CodeCacheSpec CodeCacheLoop.

Lemma strongly_sorted_lookup {A} (R : A -> A -> Prop) (l : list A) :
  StronglySorted R l ->
  forall (i j : nat) x y, (i < j)%nat -> l !! i = Some x -> l !! j = Some y -> R x y.
Proof.
  induction 1 as [|x l Hs IH Hall]; intros i j bi bj Hij Hi Hj.
  - done.
  - destruct j as [|j]; [lia|]. cbn in Hj.
    destruct i as [|i]; cbn in Hi.
    + assert (bi = x) as -> by congruence.
      rewrite Forall_forall in Hall.
      apply (Hall bj), list_elem_of_lookup. eauto.
    + apply (IH i j); [lia|done..].
Qed.

Lemma insertion_point_split (l : list CodeBlob.t) (address : Z) : forall k : nat,
  (k <= length l)%nat ->
  (forall (i : nat) b, (i < k)%nat -> l !! i = Some b -> CodeBlob._end b <= address) ->
  (forall (i : nat) b, (k <= i)%nat -> l !! i = Some b -> address < CodeBlob._end b) ->
  insertion_point l address = k.
Proof.
  induction l as [|b l IH]; intros k Hk Hlo Hhi; cbn in *.
  - lia.
  - destruct k as [|k].
    + pose proof (Hhi 0%nat b ltac:(lia) eq_refl).
      destruct (Z.leb_spec (CodeBlob._end b) address); [lia|].
      cbn. apply (IH 0%nat); [lia| |].
      * intros; lia.
      * intros i bi _ Hbi. apply (Hhi (S i)); [lia|done].
    + pose proof (Hlo 0%nat b ltac:(lia) eq_refl).
      destruct (Z.leb_spec (CodeBlob._end b) address); [|lia].
      cbn. f_equal. apply IH; [lia| |].
      * intros i bi Hi Hbi. apply (Hlo (S i)); [lia|done].
      * intros i bi Hi Hbi. apply (Hhi (S i)); [lia|done].
Qed.

Lemma find_covering_none (l : list CodeBlob.t) (address : Z) :
  (forall (i : nat) b, l !! i = Some b -> covers b address = false) ->
  List.find (fun b => covers b address) l = None.
Proof.
  intros Hno. destruct (List.find _ l) as [b|] eqn:Hf; [|done].
  apply find_some in Hf as [Hin Hc].
  apply list_elem_of_In, list_elem_of_lookup in Hin as [i Hi].
  rewrite (Hno _ _ Hi) in Hc. done.
Qed.

Lemma find_covering_unique (l : list CodeBlob.t) (address : Z) (i : nat) b :
  well_formed l -> non_overlapping l ->
  l !! i = Some b -> covers b address = true ->
  List.find (fun b => covers b address) l = Some b.
Proof.
  intros Hwf Hno Hb Hc.
  pose proof (strongly_sorted_lookup _ _ Hno) as Hapart.
  destruct (List.find _ l) as [b'|] eqn:Hf.
  - apply find_some in Hf as [Hin Hc'].
    apply list_elem_of_In, list_elem_of_lookup in Hin as [j Hj].
    unfold covers in *. apply andb_true_iff in Hc as [H1 H2], Hc' as [H3 H4].
    apply Z.leb_le in H1, H3. apply Z.ltb_lt in H2, H4.
    destruct (lt_eq_lt_dec i j) as [[Hlt|Heq]|Hlt].
    + pose proof (Hapart i j _ _ Hlt Hb Hj). lia.
    + subst j. congruence.
    + pose proof (Hapart j i _ _ Hlt Hj Hb). lia.
  - eapply find_none in Hf; [|apply list_elem_of_In, list_elem_of_lookup; eauto].
    cbn in Hf. congruence.
Qed.

(** On a table of disjoint blobs the binary search computes [lookup]. *)
Lemma binarySearch_is_lookup (c : CodeCache.t) (address : Z) :
  shaped c ->
  well_formed (CodeCache.live c) -> non_overlapping (CodeCache.live c) ->
  CodeCache.binarySearch c address = Ret (lookup c address).
Proof.
  intros [Hrange Hfits] Hwf Hno.
  pose proof (fun i b => Forall_lookup_1 _ _ i b Hwf) as Hwf'.
  pose proof (strongly_sorted_lookup _ _ Hno) as Hno'.
  unfold CodeCache.live in *.
  set (n := CodeCache._count c) in *.
  destruct (binarySearch_loop_settles (CodeCache._blobs c) n address
              Hrange Hfits Hwf' Hno' (S (Z.to_nat n)) 0 (n - 1))
    as (e & He & Hset).
  { apply bracket_start. lia. }
  { lia. }
  unfold CodeCache.binarySearch. fold n. rewrite He. cbn.
  unfold lookup, CodeCache.live. fold n.
  destruct e as [name|low]; cbn in Hset.
  - destruct Hset as (i & b & Hb & Hc & ->).
    by rewrite (find_covering_unique _ _ i b Hwf Hno Hb Hc).
  - destruct Hset as (Hlow & Hhigh & _ & Hbelow & Habove).
    rewrite find_covering_none.
    2: { intros i b Hb. unfold covers. apply andb_false_iff.
         destruct (Z_lt_le_dec (Z.of_nat i) low).
         - right. apply Z.ltb_ge. eauto.
         - left. apply Z.leb_gt. apply (Habove i); [lia|done]. }
    rewrite (insertion_point_split _ _ (Z.to_nat low)).
    + destruct (Z.ltb_spec 0 low) as [Hpos|Hpos].
      * destruct (aread_live (CodeCache._blobs c) n Hfits (low - 1))
          as (b & Hrd & Hb); [lia|].
        rewrite Hrd. cbn.
        replace (Z.to_nat low) with (S (Z.to_nat (low - 1))) by lia.
        rewrite Hb. by destruct (_ || _).
      * by replace (Z.to_nat low) with 0%nat by lia.
    + rewrite length_take. lia.
    + intros i b Hi Hb. apply (Hbelow i); [lia|done].
    + intros i b Hi Hb. pose proof (Hwf' _ _ Hb).
      pose proof (Habove i b ltac:(lia) Hb). lia.
Qed.

Lemma lookup_named (c : CodeCache.t) (address : Z) :
  named c -> is_Some (lookup c address).
Proof.
  intros [Hc Hb]. pose proof (fun i b => Forall_lookup_1 _ _ i b Hb) as Hb'.
  unfold lookup.
  destruct (List.find _ _) as [b|] eqn:Hf.
  - apply find_some in Hf as [Hin _].
    apply list_elem_of_In, list_elem_of_lookup in Hin as [i Hi]. eauto.
  - destruct (insertion_point _ _) as [|p]; [done|].
    destruct (_ !! p) as [b|] eqn:Hp; [|done].
    destruct (_ || _); eauto.
Qed.

End Lookup.

(** ** Code cache: [add] and [sort] keep the table in shape *)

Section Sorting.

Import CodeCacheSpec.

Lemma comparator_le (a b : CodeBlob.t) :
  le_blob a b <->
  CodeBlob._start a < CodeBlob._start b \/
  (CodeBlob._start a = CodeBlob._start b /\ CodeBlob._end b <= CodeBlob._end a).
Proof.
  unfold le_blob, CodeBlob.comparator.
  destruct (Z.ltb_spec (CodeBlob._start a) (CodeBlob._start b)); [lia|].
  destruct (Z.gtb_spec (CodeBlob._start a) (CodeBlob._start b)); [lia|].
  destruct (Z.eqb_spec (CodeBlob._end a) (CodeBlob._end b)); [lia|].
  destruct (Z.gtb_spec (CodeBlob._end a) (CodeBlob._end b)); lia.
Qed.

Lemma le_blob_total (a b : CodeBlob.t) : le_blob a b \/ le_blob b a.
Proof. rewrite !comparator_le. lia. Qed.

Lemma le_blob_trans (a b c : CodeBlob.t) : le_blob a b -> le_blob b c -> le_blob a c.
Proof. rewrite !comparator_le. lia. Qed.

Lemma insert_blob_perm (b : CodeBlob.t) (l : list CodeBlob.t) :
  CodeCache.insert_blob b l ≡ₚ b :: l.
Proof.
  induction l as [|x l IH]; cbn; [done|].
  destruct (_ <=? 0); [done|]. rewrite IH. apply Permutation_swap.
Qed.

Lemma qsort_perm (l : list CodeBlob.t) : CodeCache.qsort l ≡ₚ l.
Proof.
  induction l as [|x l IH]; cbn; [done|].
  rewrite insert_blob_perm. by f_equiv.
Qed.

Lemma insert_blob_sorted (b : CodeBlob.t) (l : list CodeBlob.t) :
  sorted l -> sorted (CodeCache.insert_blob b l).
Proof.
  unfold sorted. induction 1 as [|x l Hs IH Hall]; cbn.
  - repeat constructor.
  - destruct (Z.leb_spec (CodeBlob.comparator b x) 0) as [Hle|Hgt].
    + constructor; [by constructor|]. constructor; [done|].
      eapply Forall_impl; [exact Hall|]. intros y Hy.
      by apply (le_blob_trans b x y).
    + constructor; [done|].
      rewrite insert_blob_perm. constructor; [|done].
      destruct (le_blob_total b x); [unfold le_blob in *; lia|done].
Qed.

Lemma qsort_sorted (l : list CodeBlob.t) : sorted (CodeCache.qsort l).
Proof.
  induction l; cbn; [constructor|]. by apply insert_blob_sorted.
Qed.

Lemma live_sort (c : CodeCache.t) :
  shaped c -> CodeCache.live (CodeCache.sort c) = CodeCache.qsort (CodeCache.live c).
Proof.
  intros [Hr Hf]. unfold CodeCache.sort, CodeCache.live.
  destruct (Z.eqb_spec (CodeCache._count c) 0) as [H0|H0].
  - rewrite H0. done.
  - cbn. rewrite take_app_length'; [done|].
    rewrite (Permutation_length (qsort_perm _)), length_take. lia.
Qed.

(** [sort] leaves the blobs in use ordered by the comparator. *)
Lemma sort_sorted (c : CodeCache.t) :
  shaped c -> sorted (CodeCache.live (CodeCache.sort c)).
Proof. intros Hs. rewrite live_sort by done. apply qsort_sorted. Qed.

Lemma sort_shaped (c : CodeCache.t) : shaped c -> shaped (CodeCache.sort c).
Proof.
  intros [Hr Hf]. unfold CodeCache.sort, shaped.
  destruct (Z.eqb_spec (CodeCache._count c) 0); [done|]. cbn.
  split; [done|].
  rewrite length_app, (Permutation_length (qsort_perm _)), length_take, length_drop.
  lia.
Qed.

Lemma sort_named (c : CodeCache.t) : shaped c -> named c -> named (CodeCache.sort c).
Proof.
  intros Hs [Hc Hb]. split.
  - unfold CodeCache.sort. by destruct (_ =? 0).
  - rewrite live_sort by done. by rewrite qsort_perm.
Qed.

Lemma make_shaped_named name lib_index mn mx :
  shaped (CodeCache.make name lib_index mn mx)
  /\ named (CodeCache.make name lib_index mn mx).
Proof.
  split; [|split].
  - unfold shaped. cbn. lia.
  - cbn. eauto.
  - cbn. constructor.
Qed.

(** [add] extends the blobs in use by one named blob; it is defined as
    long as the capacity is positive and is the size of the array. *)
Lemma add_live (start length_ : Z) name update_bounds (c : CodeCache.t) :
  shaped c -> 0 < CodeCache._capacity c ->
  CodeCache._capacity c = Z.of_nat (length (CodeCache._blobs c)) ->
  CodeCache._count c + 1 < 2 ^ 31 ->
  exists c', CodeCache.add start length_ name update_bounds c = Ret c'
    /\ CodeCache.live c' =
       CodeCache.live c ++
         [ {| CodeBlob._start := start;
              CodeBlob._end := u64 (start + length_);
              CodeBlob._name :=
                Some (NativeFunc.create (CodeCache.sanitize name)
                                        (CodeCache._lib_index c)) |} ]
    /\ CodeCache._name c' = CodeCache._name c
    /\ shaped c' /\ 0 < CodeCache._capacity c'
    /\ CodeCache._capacity c' = Z.of_nat (length (CodeCache._blobs c')).
Proof.
  intros [Hr Hf] Hcap Hlen Hnext. unfold CodeCache.add.
  set (blob := CodeBlob.mk _ _ _).
  set (c1 := if _ >=? _ then _ else c).
  assert (CodeCache._count c1 = CodeCache._count c
          /\ CodeCache.live c1 = CodeCache.live c
          /\ CodeCache._name c1 = CodeCache._name c
          /\ CodeCache._count c1 < Z.of_nat (length (CodeCache._blobs c1))
          /\ 0 < CodeCache._capacity c1
          /\ CodeCache._capacity c1 = Z.of_nat (length (CodeCache._blobs c1)))
    as (Hc1 & Hl1 & Hn1 & Hroom & Hcap1 & Hlen1).
  { subst c1. destruct (Z.geb_spec (CodeCache._count c) (CodeCache._capacity c)).
    - unfold CodeCache.expand, CodeCache.live, CodeCache.memcpy_blobs,
        CodeCache.new_blobs. cbn.
      rewrite length_app, length_take, length_drop, length_replicate.
      split_and!; try done; try lia.
      rewrite take_app_length'; [done|]. rewrite length_take. lia.
    - split_and!; try done; lia. }
  destruct (Z.ltb_spec (CodeCache._count c1) 0); [lia|].
  destruct (Z.leb_spec (Z.of_nat (length (CodeCache._blobs c1)))
                       (CodeCache._count c1)); [lia|].
  cbn [orb].
  eexists. split; [reflexivity|].
  assert (forall d : CodeCache.t,
            CodeCache.live (if update_bounds
                            then CodeCache.updateBounds start (u64 (start + length_)) d
                            else d) = CodeCache.live d) as Hub
      by (intros d; by destruct update_bounds).
  split_and!.
  - rewrite Hub. unfold CodeCache.live in *. cbn.
    rewrite <- Hl1, Hc1.
    replace (Z.to_nat (CodeCache._count c + 1))
      with (S (Z.to_nat (CodeCache._count c))) by lia.
    rewrite <- Hc1.
    erewrite take_S_r; [|apply list_lookup_insert_eq; lia].
    rewrite take_insert_ge by lia. done.
  - rewrite <- Hn1. by destruct update_bounds.
  - unfold shaped. destruct update_bounds; cbn; rewrite length_insert; lia.
  - by destruct update_bounds.
  - destruct update_bounds; cbn; by rewrite length_insert.
Qed.

(** A blob that [add] stores always carries a name. *)
Lemma add_named (start length_ : Z) name update_bounds (c c' : CodeCache.t) :
  shaped c -> 0 < CodeCache._capacity c ->
  CodeCache._capacity c = Z.of_nat (length (CodeCache._blobs c)) ->
  CodeCache._count c + 1 < 2 ^ 31 ->
  named c ->
  CodeCache.add start length_ name update_bounds c = Ret c' -> named c'.
Proof.
  intros Hs Hcap Hlen Hnext [Hn Hb] Hadd.
  destruct (add_live start length_ name update_bounds c Hs Hcap Hlen Hnext)
    as (c'' & Hadd' & Hlive & Hname & _).
  rewrite Hadd in Hadd'. injection Hadd' as <-.
  split; [by rewrite Hname|].
  rewrite Hlive. apply Forall_app. split; [done|].
  constructor; [cbn; eauto|constructor].
Qed.

End Sorting.

(** ** Code cache: the scenarios *)

Section Scenarios.

Import CodeCacheSpec Scenario.

Lemma S1_builds name lib_index bar_first :
  S1 name lib_index bar_first = Ret (S1_cache name lib_index).
Proof. destruct bar_first; vm_compute; reflexivity. Qed.

Lemma S1_live name lib_index :
  CodeCache.live (S1_cache name lib_index) = [foo lib_index; bar lib_index].
Proof. reflexivity. Qed.

Lemma S1_ready name lib_index :
  shaped (S1_cache name lib_index)
  /\ named (S1_cache name lib_index)
  /\ sorted (CodeCache.live (S1_cache name lib_index))
  /\ well_formed (CodeCache.live (S1_cache name lib_index))
  /\ non_overlapping (CodeCache.live (S1_cache name lib_index)).
Proof.
  rewrite S1_live. split_and!.
  - unfold shaped. cbn. lia.
  - split; [cbn; eauto|]. rewrite S1_live. repeat constructor; cbn; eauto.
  - repeat constructor; by vm_compute.
  - repeat constructor; by vm_compute.
  - repeat constructor; by vm_compute.
Qed.

Lemma nested_builds : nested_built = Ret nested.
Proof. vm_compute. reflexivity. Qed.

End Scenarios.

(** ** Code cache: the claims *)

Section CodeCacheClaims.

Import CodeCacheSpec Scenario.

(** Whatever the order of the blobs, the loop of [binarySearch] returns
    within its fuel: with the name of a blob in use whose range contains
    the address, or with a position of the table. *)
Lemma binarySearch_loop_exits (blobs : list CodeBlob.t) (n address : Z)
      (fuel : nat) :
  0 <= n < 2 ^ 31 -> n <= Z.of_nat (length blobs) ->
  forall low high,
    0 <= low -> high < n -> low <= high + 1 ->
    high + 1 - low < Z.of_nat fuel ->
    exists e,
      CodeCache.binarySearch_loop fuel blobs address low high = Ret e
      /\ match e with
         | CodeCache.Found name =>
             exists (i : nat) b,
               take (Z.to_nat n) blobs !! i = Some b
               /\ covers b address = true /\ name = CodeBlob._name b
         | CodeCache.NotFound low' => 0 <= low' <= n
         end.
Proof.
intros Hn Hfit.
induction fuel as [|fuel IH]; intros low high Hlow Hhigh Hle Hfuel; [lia|].
cbn [CodeCache.binarySearch_loop].
destruct (Z.leb_spec low high) as [Hlh|Hlh].
2: { exists (CodeCache.NotFound low). split; [done|]. lia. }
pose proof (mid_between blobs n Hn low high Hlow Hlh Hhigh) as Hmid.
set (mid := Z.shiftr (u32 (low + high)) 1) in *.
destruct (aread_live blobs n Hfit mid) as (b & -> & Hb); [lia|].
cbn.
destruct (Z.leb_spec (CodeBlob._end b) address) as [Hend|Hend].
{ apply IH; lia. }
destruct (Z.gtb_spec (CodeBlob._start b) address) as [Hst|Hst].
{ apply IH; lia. }
exists (CodeCache.Found (CodeBlob._name b)). split; [done|].
exists (Z.to_nat mid), b. split; [done|]. split; [|done].
unfold covers. apply andb_true_iff.
split; [apply Z.leb_le|apply Z.ltb_lt]; lia.
Qed.

(** [binarySearch] never returns NULL, sorted table or not: its answer
    is the name of a blob in use that contains the address, has zero
    size or ends at the address, or it is the name of the cache. *)
Lemma binarySearch_never_null (c : CodeCache.t) (address : Z) :
  shaped c -> named c ->
  exists name,
    CodeCache.binarySearch c address = Ret (Some name)
    /\ (CodeCache._name c = Some name
        \/ exists b, b ∈ CodeCache.live c
                     /\ CodeBlob._name b = Some name
                     /\ (covers b address = true
                         \/ CodeBlob._start b = CodeBlob._end b
                         \/ CodeBlob._end b = address)).
Proof.
intros [Hrange Hfits] [[cname Hcname] Hnames].
pose proof (fun i b => Forall_lookup_1 _ _ i b Hnames) as Hnames'.
unfold CodeCache.live in *. set (n := CodeCache._count c) in *.
destruct (binarySearch_loop_exits (CodeCache._blobs c) n address
            (S (Z.to_nat n)) Hrange Hfits 0 (n - 1)) as (e & He & Hset);
  [lia..|].
unfold CodeCache.binarySearch. fold n. rewrite He.
cbn [mbind outcome_bind obind].
destruct e as [name|low].
- destruct Hset as (i & b & Hb & Hc & ->).
  destruct (Hnames' _ _ Hb) as [nm Hnm].
  exists nm. split; [by rewrite Hnm|]. right. exists b.
  split; [by eapply list_elem_of_lookup_2|]. auto.
- destruct (Z.ltb_spec 0 low) as [Hpos|Hpos].
  + destruct (aread_live (CodeCache._blobs c) n Hfits (low - 1))
      as (b & -> & Hb); [lia|].
    cbn [mbind outcome_bind obind].
    destruct (Hnames' _ _ Hb) as [nm Hnm].
    destruct ((CodeBlob._start b =? CodeBlob._end b)
              || (CodeBlob._end b =? address)) eqn:Hor.
    * exists nm. split; [by rewrite Hnm|]. right. exists b.
      split; [by eapply list_elem_of_lookup_2|]. split; [done|].
      apply orb_true_iff in Hor as [Hz%Z.eqb_eq|Hz%Z.eqb_eq]; auto.
    * exists cname. split; [by rewrite Hcname|]. by left.
  + exists cname. split; [by rewrite Hcname|]. by left.
Qed.

(** Scenario S2, built in either order: "enclosing" stands before
    "entry". *)
Lemma S2_builds name lib_index entry_first :
  exists c,
    S2 name lib_index entry_first = Ret c
    /\ CodeCache.live c = [enclosing lib_index; entry lib_index]
    /\ CodeCache._name c = Some (NativeFunc.create name (-1))
    /\ CodeCache.binarySearch c 0x2000
       = Ret (Some (NativeFunc.create "enclosing" lib_index)).
Proof.
destruct entry_first; eexists;
  (split; [vm_compute; reflexivity|]); split_and!; reflexivity.
Qed.

(** C1, amended. For every CodeCache, sorted or not, and every address,
    [binarySearch] returns a non-null name: the name of a blob that
    contains the address, or of a blob that has zero size or ends exactly
    at the address, or the cache's own name. When the blobs do not
    overlap (every blob has start <= end and ends at or before the start
    of each later blob), that name is the one [lookup] prescribes: the
    name of the blob whose half-open range contains the address; failing
    that, the name of the blob before the insertion point when that blob
    has zero size or ends exactly at the address; failing that, the
    cache's own name. Among overlapping blobs the one that contains the
    address is found in scenario S2, where "enclosing" [0x2000,0x2100)
    stands before the empty "entry" [0x2000,0x2000) after [sort] and
    [binarySearch(0x2000)] returns "enclosing". *)
Theorem binarySearch_returns_name :
  (forall (c : CodeCache.t) (address : Z),
      shaped c -> named c ->
      exists name,
        CodeCache.binarySearch c address = Ret (Some name)
        /\ (CodeCache._name c = Some name
            \/ exists b, b ∈ CodeCache.live c
                         /\ CodeBlob._name b = Some name
                         /\ (covers b address = true
                             \/ CodeBlob._start b = CodeBlob._end b
                             \/ CodeBlob._end b = address)))
  /\ (forall (c : CodeCache.t) (address : Z),
      shaped c -> named c ->
      well_formed (CodeCache.live c) -> non_overlapping (CodeCache.live c) ->
      exists name,
        CodeCache.binarySearch c address = Ret (Some name)
        /\ lookup c address = Some name
        /\ (forall b, b ∈ CodeCache.live c -> covers b address = true ->
                      CodeBlob._name b = Some name))
  /\ (forall (name : string) (lib_index : Z) (entry_first : bool),
      exists c,
        S2 name lib_index entry_first = Ret c
        /\ CodeCache.live c = [enclosing lib_index; entry lib_index]
        /\ sorted (CodeCache.live c)
        /\ covers (enclosing lib_index) 0x2000 = true
        /\ CodeCache.binarySearch c 0x2000
           = Ret (CodeBlob._name (enclosing lib_index))).
Proof.
split; [exact binarySearch_never_null|]. split.
- intros c address Hs Hn Hwf Hno.
  destruct (lookup_named c address Hn) as [name Hname].
  exists name. split_and!.
  + by rewrite binarySearch_is_lookup, Hname.
  + done.
  + intros b [i Hi]%list_elem_of_lookup Hc. rewrite <- Hname.
    unfold lookup. by rewrite (find_covering_unique _ _ i b Hwf Hno Hi Hc).
- intros name lib_index entry_first.
  destruct (S2_builds name lib_index entry_first) as (c & Hc & Hl & _ & Hb).
  exists c. split; [done|]. split; [done|]. rewrite Hl.
  split; [repeat constructor; by vm_compute|]. split; [reflexivity|done].
Qed.

Lemma binarySearch_returns_name_witness :
  (exists name,
      CodeCache.binarySearch nested 0x1500 = Ret (Some name)
      /\ (CodeCache._name nested = Some name
          \/ exists b, b ∈ CodeCache.live nested
                       /\ CodeBlob._name b = Some name
                       /\ (covers b 0x1500 = true
                           \/ CodeBlob._start b = CodeBlob._end b
                           \/ CodeBlob._end b = 0x1500)))
  /\ (exists name,
      CodeCache.binarySearch (S1_cache "libdemo.so" 0) 0x10ff = Ret (Some name)
      /\ lookup (S1_cache "libdemo.so" 0) 0x10ff = Some name
      /\ (forall b, b ∈ CodeCache.live (S1_cache "libdemo.so" 0) ->
                    covers b 0x10ff = true -> CodeBlob._name b = Some name))
  /\ (exists c,
      S2 "libdemo.so" 0 true = Ret c
      /\ CodeCache.binarySearch c 0x2000
         = Ret (Some (NativeFunc.create "enclosing" 0))).
Proof.
destruct binarySearch_returns_name as (Hany & Hapart & Hs2).
split; [|split].
- apply Hany.
  + unfold shaped. cbn. lia.
  + split; [cbn; eauto|repeat constructor; cbn; eauto].
- destruct (S1_ready "libdemo.so" 0) as (H1 & H2 & _ & H4 & H5).
  exact (Hapart _ 0x10ff H1 H2 H4 H5).
- destruct (Hs2 "libdemo.so"%string 0 true) as (c & Hc & _ & _ & _ & Hb).
  exists c. split; [exact Hc|exact Hb].
Defined.

(** C1 as stated fails: [nested] is a cache as [add] and [sort] build it,
    sorted by the comparator, in which "outer" contains the address
    0x1500, and [binarySearch] answers with the cache's own name. *)
Lemma binarySearch_nested_counterexample :
  nested_built = Ret nested
  /\ shaped nested /\ named nested /\ sorted (CodeCache.live nested)
  /\ (exists b, b ∈ CodeCache.live nested /\ covers b 0x1500 = true
                /\ CodeBlob._name b = Some (NativeFunc.create "outer" 0))
  /\ CodeCache.binarySearch nested 0x1500
     = Ret (Some (NativeFunc.create "libdemo.so" (-1))).
Proof.
  split; [apply nested_builds|].
  split; [unfold shaped; cbn; lia|].
  split; [split; [cbn; eauto|repeat constructor; cbn; eauto]|].
  split; [repeat constructor; by vm_compute|].
  split; [|by vm_compute].
  eexists. split; [apply list_elem_of_here|]. by vm_compute.
Qed.

(** C6, amended. For the cache holding exactly the blobs [0x1000,0x1100)
    "foo" and [0x1100,0x1200) "bar", after [sort]: [binarySearch(0x10ff)]
    returns "foo", [binarySearch(0x1100)] returns "bar",
    [binarySearch(0x1200)] returns "bar" as well (the blob that ends
    exactly at the address), and the cache's own name is returned for
    every address above 0x1200 or below 0x1000. *)
Theorem S1_lookups (name : string) (lib_index : Z) (bar_first : bool) :
  exists c,
    S1 name lib_index bar_first = Ret c
    /\ CodeCache.binarySearch c 0x10ff = Ret (Some (NativeFunc.create "foo" lib_index))
    /\ CodeCache.binarySearch c 0x1100 = Ret (Some (NativeFunc.create "bar" lib_index))
    /\ CodeCache.binarySearch c 0x1200 = Ret (Some (NativeFunc.create "bar" lib_index))
    /\ CodeCache._name c = Some (NativeFunc.create name (-1))
    /\ forall address, address < 0x1000 \/ 0x1200 < address ->
         CodeCache.binarySearch c address = Ret (CodeCache._name c).
Proof.
  exists (S1_cache name lib_index).
  split; [apply S1_builds|].
  do 3 (split; [by vm_compute|]). split; [done|].
  intros address Haddr.
  destruct (S1_ready name lib_index) as (Hs & _ & _ & Hwf & Hno).
  rewrite binarySearch_is_lookup by done.
  unfold lookup. rewrite S1_live. unfold covers, foo, bar.
  cbn -[Z.eqb Z.leb Z.ltb].
  destruct Haddr.
  - destruct (Z.leb_spec 4096 address); [lia|]. cbn -[Z.eqb Z.leb Z.ltb].
    destruct (Z.leb_spec 4352 address); [lia|]. cbn -[Z.eqb Z.leb Z.ltb].
    destruct (Z.leb_spec 4608 address); [lia|]. done.
  - destruct (Z.ltb_spec address 4352); [lia|].
    destruct (Z.ltb_spec address 4608); [lia|].
    rewrite !andb_false_r.
    destruct (Z.leb_spec 4352 address); [|lia].
    destruct (Z.leb_spec 4608 address); [|lia]. cbn -[Z.eqb Z.leb Z.ltb].
    destruct (Z.eqb_spec 4608 address); [lia|].
    destruct (Z.eqb_spec 4352 4608); [lia|]. done.
Qed.

Lemma S1_lookups_witness :
  exists c,
    S1 "libdemo.so" 0 false = Ret c
    /\ CodeCache.binarySearch c 0x1201 = Ret (CodeCache._name c).
Proof.
  destruct (S1_lookups "libdemo.so" 0 false) as (c & Hc & _ & _ & _ & _ & Hout).
  exists c. split; [exact Hc|]. apply Hout. right. lia.
Defined.

(** C6 as stated fails at 0x1200: the answer is "bar", not the name of
    the cache. *)
Lemma S1_end_counterexample :
  exists c,
    S1 "libdemo.so" 0 false = Ret c
    /\ CodeCache.binarySearch c 0x1200 = Ret (Some (NativeFunc.create "bar" 0))
    /\ CodeCache.binarySearch c 0x1200 <> Ret (CodeCache._name c).
Proof.
  exists (S1_cache "libdemo.so" 0).
  split; [apply S1_builds|]. split; [by vm_compute|]. by vm_compute.
Qed.

(** C10. The copy assignment [cc = other] between two distinct caches
    does not get to the state the claim describes. [operator=] begins
    with [delete _name], and [_name] is what [NativeFunc::create]
    returned: a pointer [sizeof(NativeFunc)], 4 bytes, into a block that
    [malloc] gave out. Applied to it, [delete] is undefined, whatever
    else the two caches hold; the destructor releases the same pointer
    with [NativeFunc::destroy], which steps back to the start of the
    block and calls [free]. The [delete _blobs] that follows is applied
    to the result of [new CodeBlob[...]] and is undefined as well. Only
    the assignment of a cache to itself returns, and changes nothing.
    The assignments behind the three [delete]s are the ones the claim
    reads off: no blob (count 0, capacity INITIAL_CODE_CACHE_CAPACITY),
    no dwarf table (NULL, length 0). The other half of the claim holds:
    the copy constructor copies all blobs and all dwarf entries of an
    [other] whose counts are those of its arrays. *)
Theorem assign_deletes_inside_block (h : gmap Z CodeCache.t)
        (dwarf_block : allocator) (this_ other fresh : Z)
        (c o : CodeCache.t) (junk : bool) :
  h !! this_ = Some c -> h !! other = Some o ->
  is_Some (CodeCache._name c) ->
  (other <> this_ -> CodeCache.assign dwarf_block this_ other h = Undefined)
  /\ delete (CodeCache.name_pointer (CodeCache._name c)) = Undefined
  /\ NativeFunc.destroy (CodeCache.name_pointer (CodeCache._name c)) = Ret tt
  /\ delete CodeCache.blobs_pointer = Undefined
  /\ delete_array CodeCache.blobs_pointer = Ret tt
  /\ CodeCache.assign dwarf_block this_ this_ h = Ret h
  /\ (CodeCache._count (CodeCache.assign_from c o) = 0
      /\ CodeCache.live (CodeCache.assign_from c o) = []
      /\ CodeCache._capacity (CodeCache.assign_from c o)
         = CodeCache.INITIAL_CODE_CACHE_CAPACITY
      /\ CodeCache._dwarf_table (CodeCache.assign_from c o) = None
      /\ CodeCache._dwarf_table_length (CodeCache.assign_from c o) = 0)
  /\ (shaped o -> dwarf_consistent o ->
      exists h' c',
      CodeCache.copy_construct junk fresh other h = Ret h'
      /\ h' !! fresh = Some c'
      /\ CodeCache._count c' = CodeCache._count o
      /\ CodeCache._capacity c' = CodeCache._capacity o
      /\ CodeCache.live c' = CodeCache.live o
      /\ CodeCache._dwarf_table_length c' = CodeCache._dwarf_table_length o
      /\ default [] (CodeCache._dwarf_table c')
         = default [] (CodeCache._dwarf_table o)).
Proof.
intros Hc Ho [f Hf].
assert (delete (CodeCache.name_pointer (CodeCache._name c)) = Undefined) as Hdel
    by (rewrite Hf; reflexivity).
split_and!; try done.
- intros Hne. unfold CodeCache.assign. rewrite Hc, Ho.
  destruct (decide (other = this_)); [done|]. by rewrite Hdel.
- rewrite Hf. reflexivity.
- unfold CodeCache.assign. rewrite Hc.
  by destruct (decide (this_ = this_)).
- intros [Hr Hfit] Hd.
  exists (<[fresh := CodeCache.copy junk o]> h), (CodeCache.copy junk o).
  unfold CodeCache.copy_construct. rewrite Ho.
  split_and!; try done.
  + apply lookup_insert_eq.
  + unfold CodeCache.live, CodeCache.copy, CodeCache.memcpy_blobs. cbn.
    rewrite take_app_length'; [done|]. rewrite length_take. lia.
  + unfold CodeCache.copy. cbn. apply take_ge.
    unfold dwarf_consistent in Hd. lia.
Qed.

Lemma assign_deletes_inside_block_witness :
  let h : gmap Z CodeCache.t := <[1 := nested]> {[2 := S1_cache "libdemo.so" 0]} in
  CodeCache.assign Malloc 1 2 h = Undefined
  /\ NativeFunc.destroy (CodeCache.name_pointer (CodeCache._name nested)) = Ret tt
  /\ CodeCache.assign Malloc 1 1 h = Ret h
  /\ exists h' c',
       CodeCache.copy_construct false 3 2 h = Ret h'
       /\ h' !! 3 = Some c'
       /\ CodeCache._count c' = 2
       /\ CodeCache.live c' = [foo 0; bar 0].
Proof.
intros h.
assert (h !! 1 = Some nested) as H1 by reflexivity.
assert (h !! 2 = Some (S1_cache "libdemo.so" 0)) as H2 by reflexivity.
assert (is_Some (CodeCache._name nested)) as H3 by (cbn; eauto).
destruct (assign_deletes_inside_block h Malloc 1 2 3 nested
            (S1_cache "libdemo.so" 0) false H1 H2 H3)
  as (Ha & _ & Hd & _ & _ & Hself & _ & Hcopy).
split; [apply Ha; lia|]. split; [exact Hd|]. split; [exact Hself|].
destruct (S1_ready "libdemo.so" 0) as (Hs & _).
destruct (Hcopy Hs eq_refl) as (h' & c' & Hcc & Hl & Hn & _ & Hlive & _).
exists h', c'. split; [exact Hcc|]. split; [exact Hl|].
split; [exact Hn|exact Hlive].
Defined.

End CodeCacheClaims.

(** ** Buffer: variable-length integers *)

Section Varints.

Import BufferSpec.

Lemma char_small (v : Z) : 0 <= v < 256 -> Buffer.char v = v.
Proof.
  intros Hv. unfold Buffer.char. change 0xff with (Z.ones 8).
  rewrite Z.land_ones by lia. apply Z.mod_small. lia.
Qed.

Lemma char_range (v : Z) : 0 <= Buffer.char v < 256.
Proof.
  unfold Buffer.char. change 0xff with (Z.ones 8).
  rewrite Z.land_ones by lia. apply Z.mod_pos_bound. lia.
Qed.

Lemma char_idem (v : Z) : Buffer.char (Buffer.char v) = Buffer.char v.
Proof. apply char_small, char_range. Qed.

Lemma char_flagged (v : Z) :
  Buffer.char (Z.lor (Buffer.char v) 0x80) = Z.lor (Buffer.char v) 0x80.
Proof.
  unfold Buffer.char. rewrite Z.land_lor_distr_l, <- Z.land_assoc.
  reflexivity.
Qed.

Lemma flagged_bit (v : Z) : Z.testbit (Z.lor (Buffer.char v) 0x80) 7 = true.
Proof. rewrite Z.lor_spec. apply orb_true_r. Qed.

Lemma flagged_payload (v : Z) :
  Z.land (Z.lor (Buffer.char v) 0x80) 0x7f = v mod 128.
Proof.
  unfold Buffer.char. rewrite Z.land_lor_distr_l, <- Z.land_assoc.
  change (Z.land 255 127) with (Z.ones 7). change (Z.land 128 127) with 0.
  rewrite Z.lor_0_r, Z.land_ones by lia. reflexivity.
Qed.

Lemma septet_split (v : Z) : v mod 128 + 128 * Z.shiftr v 7 = v.
Proof.
  rewrite Z.shiftr_div_pow2 by lia. change (2 ^ 7) with 128.
  pose proof (Z.div_mod v 128). lia.
Qed.

Lemma small_bit (v : Z) : 0 <= v < 128 -> Z.testbit v 7 = false.
Proof.
  intros Hv. apply Z.testbit_false; [lia|].
  change (2 ^ 7) with 128. rewrite Z.div_small by lia. reflexivity.
Qed.

Lemma shiftr7_range (v : Z) (k : Z) :
  0 <= k -> 0 <= v < 2 ^ (k + 7) -> 0 <= Z.shiftr v 7 < 2 ^ k.
Proof.
  intros Hk Hv. rewrite Z.shiftr_div_pow2 by lia. split.
  - apply Z.div_pos; lia.
  - apply Z.div_lt_upper_bound; [lia|]. rewrite <- Z.pow_add_r by lia.
    rewrite Z.add_comm. lia.
Qed.

(** Unfolding of the loops. *)
Lemma put_septets_more (v : Z) (b : Buffer.t) :
  v > 0x7f ->
  Buffer.put_septets v b
  = (b' ← Buffer.put8 (Z.lor (Buffer.char v) 0x80) b;
     Buffer.put_septets (Z.shiftr v 7) b').
Proof.
  intros Hv. rewrite Buffer.put_septets_equation_1.
  destruct (Z_gt_dec v 127); [reflexivity|lia].
Qed.

Lemma put_septets_last (v : Z) (b : Buffer.t) :
  v <= 0x7f -> Buffer.put_septets v b = Buffer.put8 (Buffer.char v) b.
Proof.
  intros Hv. rewrite Buffer.put_septets_equation_1.
  destruct (Z_gt_dec v 127); [lia|reflexivity].
Qed.

Lemma encode_more (v : Z) :
  v > 0x7f ->
  Varint.encode v = Z.lor (Buffer.char v) 0x80 :: Varint.encode (Z.shiftr v 7).
Proof.
  intros Hv. rewrite Varint.encode_equation_1.
  destruct (Z_gt_dec v 127); [reflexivity|lia].
Qed.

Lemma encode_last (v : Z) : v <= 0x7f -> Varint.encode v = [Buffer.char v].
Proof.
  intros Hv. rewrite Varint.encode_equation_1.
  destruct (Z_gt_dec v 127); [lia|reflexivity].
Qed.

Lemma putVar64_loop_more (iter_ v : Z) (b : Buffer.t) :
  v > 0x1fffff ->
  Buffer.putVar64_loop iter_ v b
  = (b3 ← Buffer.put3 v b;
     if iter_ + 1 =? 3 then Ret (b3, None)
     else Buffer.putVar64_loop (iter_ + 1) (Z.shiftr v 21) b3).
Proof.
  intros Hv. rewrite Buffer.putVar64_loop_equation_1.
  destruct (Z_gt_dec v 2097151); [reflexivity|lia].
Qed.

Lemma putVar64_loop_done (iter_ v : Z) (b : Buffer.t) :
  v <= 0x1fffff -> Buffer.putVar64_loop iter_ v b = Ret (b, Some v).
Proof.
  intros Hv. rewrite Buffer.putVar64_loop_equation_1.
  destruct (Z_gt_dec v 2097151); [lia|reflexivity].
Qed.


(** Stores compose. *)
Lemma put8_appended (v : Z) (b : Buffer.t) :
  room b 1 ->
  exists b', Buffer.put8 v b = Ret b' /\ appended b [Buffer.char v] b'.
Proof.
  intros [H0 H1]. unfold Buffer.put8.
  destruct (Z.ltb_spec (Buffer._offset b) 0); [lia|].
  destruct (Z.leb_spec (Z.of_nat (length (Buffer._data b))) (Buffer._offset b));
    [lia|].
  cbn [orb]. eexists. split; [reflexivity|].
  split; cbn; [lia|].
  rewrite insert_take_drop by lia. by rewrite Nat.add_1_r.
Qed.

Lemma appended_room (b b' : Buffer.t) (bytes : list Z) (k : Z) :
  appended b bytes b' -> room b (Z.of_nat (length bytes) + k) -> room b' k.
Proof.
  intros [Ho Hd] [H0 H1]. split; [lia|].
  rewrite Hd, !length_app, length_take, length_drop. lia.
Qed.

Lemma appended_app (b b1 b2 : Buffer.t) (l1 l2 : list Z) :
  room b (Z.of_nat (length l1)) ->
  appended b l1 b1 -> appended b1 l2 b2 -> appended b (l1 ++ l2) b2.
Proof.
  intros [H0 H1] [Ho1 Hd1] [Ho2 Hd2]. split.
  - rewrite length_app. lia.
  - rewrite Hd2, Hd1, Ho1.
    replace (Z.to_nat (Buffer._offset b + Z.of_nat (length l1)))
      with (length (take (Z.to_nat (Buffer._offset b)) (Buffer._data b) ++ l1)).
    2: { rewrite length_app, length_take. lia. }
    rewrite (app_assoc _ l1 (drop _ _)), take_app_length.
    rewrite <- !app_assoc. do 2 f_equal.
    rewrite <- drop_drop, (app_assoc _ l1 (drop _ _)), drop_app_length.
    rewrite drop_drop, length_app. do 2 f_equal. lia.
Qed.

Lemma appended_written (b b' : Buffer.t) (bytes : list Z) :
  room b (Z.of_nat (length bytes)) -> appended b bytes b' ->
  Buffer.written b b' = bytes.
Proof.
  intros [H0 H1] [Ho Hd]. unfold Buffer.written. rewrite Ho, Hd.
  rewrite drop_app_length'; [|rewrite length_take; lia].
  replace (Z.to_nat (Buffer._offset b + Z.of_nat (length bytes) - Buffer._offset b))
    with (length bytes) by lia.
  apply take_app_length.
Qed.

Lemma encode_length (n : nat) : forall v,
  0 <= v < 2 ^ (7 * Z.of_nat (S n)) -> (length (Varint.encode v) <= S n)%nat.
Proof.
  induction n as [|n IH]; intros v Hv.
  - rewrite encode_last by (change (2 ^ (7 * Z.of_nat 1)) with 128 in Hv; lia).
    cbn. lia.
  - destruct (Z_gt_dec v 0x7f) as [Hgt|Hle].
    + rewrite encode_more by done. cbn. apply le_n_S, IH.
      apply shiftr7_range; [lia|].
      replace (7 * Z.of_nat (S n) + 7) with (7 * Z.of_nat (S (S n))) by lia.
      done.
    + rewrite encode_last by lia. cbn. lia.
Qed.

(** The second loop stores the septets of [v]. *)
Lemma put_septets_appended (n : nat) : forall v b,
  0 <= v < 2 ^ (7 * Z.of_nat (S n)) ->
  room b (Z.of_nat (length (Varint.encode v))) ->
  exists b', Buffer.put_septets v b = Ret b' /\ appended b (Varint.encode v) b'.
Proof.
  induction n as [|n IH]; intros v b Hv Hroom.
  - assert (v <= 0x7f) by (change (2 ^ (7 * Z.of_nat 1)) with 128 in Hv; lia).
    rewrite put_septets_last, encode_last in * by done.
    destruct (put8_appended (Buffer.char v) b) as (b' & Hp & Ha); [done|].
    rewrite char_idem in Ha. eauto.
  - destruct (Z_gt_dec v 0x7f) as [Hgt|Hle].
    + rewrite put_septets_more, encode_more in * by done.
      cbn [length] in Hroom.
      destruct (put8_appended (Z.lor (Buffer.char v) 128) b) as (b1 & -> & Hb1).
      { destruct Hroom. split; lia. }
      rewrite char_flagged in Hb1. cbn.
      destruct (IH (Z.shiftr v 7) b1) as (b2 & -> & Hb2).
      { apply shiftr7_range; [lia|].
        replace (7 * Z.of_nat (S n) + 7) with (7 * Z.of_nat (S (S n))) by lia.
        done. }
      { eapply appended_room; [exact Hb1|]. cbn [length].
        destruct Hroom. split; lia. }
      exists b2. split; [done|].
      apply (appended_app b b1 b2 [_] _); [|done..].
      destruct Hroom. split; cbn; lia.
    + rewrite put_septets_last, encode_last in * by lia.
      destruct (put8_appended (Buffer.char v) b) as (b' & Hp & Ha); [done|].
      rewrite char_idem in Ha. eauto.
Qed.

(** Reading back what [encode] lists. *)
Lemma decode_encode (n : nat) : forall v rest,
  0 <= v < 2 ^ (7 * Z.of_nat (S n)) ->
  Varint.decode (Varint.encode v ++ rest) = Some (v, rest).
Proof.
  induction n as [|n IH]; intros v rest Hv.
  - assert (v < 128) by (change (2 ^ (7 * Z.of_nat 1)) with 128 in Hv; lia).
    rewrite encode_last by lia. rewrite char_small by lia. cbn [app Varint.decode Varint.decode_capped].
    rewrite small_bit by lia. reflexivity.
  - destruct (Z_gt_dec v 0x7f) as [Hgt|Hle].
    + rewrite encode_more by done. cbn [app Varint.decode].
      rewrite flagged_bit, IH, flagged_payload, septet_split; [done|].
      apply shiftr7_range; [lia|].
      replace (7 * Z.of_nat (S n) + 7) with (7 * Z.of_nat (S (S n))) by lia.
      done.
    + rewrite encode_last by lia. rewrite char_small by lia.
      cbn [app Varint.decode Varint.decode_capped].
      rewrite small_bit by lia. reflexivity.
Qed.

Lemma decode_capped_encode (n : nat) : forall v rest,
  0 <= v < 2 ^ (7 * Z.of_nat (S n)) ->
  Varint.decode_capped n (Varint.encode v ++ rest) = Some (v, rest).
Proof.
  induction n as [|n IH]; intros v rest Hv.
  - assert (v < 128) by (change (2 ^ (7 * Z.of_nat 1)) with 128 in Hv; lia).
    rewrite encode_last by lia. rewrite char_small by lia. reflexivity.
  - destruct (Z_gt_dec v 0x7f) as [Hgt|Hle].
    + rewrite encode_more by done. cbn [app Varint.decode_capped].
      rewrite flagged_bit, IH, flagged_payload, septet_split; [done|].
      apply shiftr7_range; [lia|].
      replace (7 * Z.of_nat (S n) + 7) with (7 * Z.of_nat (S (S n))) by lia.
      done.
    + rewrite encode_last by lia. rewrite char_small by lia.
      cbn [app Varint.decode Varint.decode_capped].
      rewrite small_bit by lia. reflexivity.
Qed.

(** A value with exactly one bit beyond [7 * (n + 1)] bits: its first
    [n + 1] bytes read back under the cap, the last byte taken whole. *)
Lemma decode_capped_full (n : nat) : forall v rest,
  2 ^ (7 * Z.of_nat (S n)) <= v < 2 ^ (7 * Z.of_nat (S n) + 1) ->
  Varint.decode_capped n (take (S n) (Varint.encode v) ++ rest) = Some (v, rest).
Proof.
  induction n as [|n IH]; intros v rest Hv.
  - change (2 ^ (7 * Z.of_nat 1)) with 128 in Hv.
    change (2 ^ (7 * Z.of_nat 1 + 1)) with 256 in Hv.
    rewrite encode_more by lia. cbn.
    rewrite char_small by lia. f_equal. f_equal.
    apply Z.bits_inj'. intros k Hk. rewrite Z.lor_spec.
    destruct (decide (k = 7)) as [->|Hne].
    + rewrite orb_true_r. symmetry. apply Z.testbit_true; [lia|].
      change (2 ^ 7) with 128.
      assert (v / 128 = 1)
        by (symmetry; apply (Z.div_unique v 128 1 (v - 128)); lia).
      by replace (v / 128) with 1.
    + replace (Z.testbit 128 k) with false; [apply orb_false_r|].
      symmetry. change 128 with (2 ^ 7). apply Z.pow2_bits_false. lia.
  - assert (2 ^ 7 <= 2 ^ (7 * Z.of_nat (S (S n))))
      by (apply Z.pow_le_mono_r; lia).
    change (2 ^ 7) with 128 in *.
    rewrite encode_more by lia.
    change (take (S (S n)) (?x :: ?l)) with (x :: take (S n) l).
    cbn [app Varint.decode_capped].
    rewrite flagged_bit, IH, flagged_payload, septet_split; [done|].
    rewrite Z.shiftr_div_pow2 by lia.
    replace (7 * Z.of_nat (S (S n))) with (7 * Z.of_nat (S n) + 7) in Hv by lia.
    replace (7 * Z.of_nat (S n) + 7 + 1) with (7 * Z.of_nat (S n) + 1 + 7) in Hv by lia.
    rewrite !(Z.pow_add_r _ _ 7) in Hv by lia.
    split.
    + apply Z.div_le_lower_bound; lia.
    + apply Z.div_lt_upper_bound; lia.
Qed.


Lemma put3_appended (w : Z) (b : Buffer.t) :
  room b 3 -> exists b', Buffer.put3 w b = Ret b' /\ appended b (septets3 w) b'.
Proof.
  intros Hroom. unfold Buffer.put3.
  destruct (put8_appended (Z.lor (Buffer.char w) 128) b) as (b1 & -> & H1).
  { destruct Hroom; split; lia. }
  rewrite char_flagged in H1. cbn.
  destruct (put8_appended (Z.lor (Buffer.char (Z.shiftr w 7)) 128) b1)
    as (b2 & -> & H2).
  { eapply appended_room; [exact H1|]. destruct Hroom; split; cbn; lia. }
  rewrite char_flagged in H2. cbn.
  destruct (put8_appended (Z.lor (Buffer.char (Z.shiftr w 14)) 128) b2)
    as (b3 & -> & H3).
  { eapply appended_room; [exact H2|]. eapply appended_room; [exact H1|].
    destruct Hroom; split; cbn; lia. }
  rewrite char_flagged in H3.
  exists b3. split; [done|].
  apply (appended_app b b1 b3 [_] [_; _]); [destruct Hroom; split; cbn; lia|done|].
  apply (appended_app b1 b2 b3 [_] [_]); [|done..].
  eapply appended_room; [exact H1|]. destruct Hroom; split; cbn; lia.
Qed.

Lemma shiftr_ge (w k m : Z) :
  0 <= k -> 0 <= m -> 2 ^ (k + m) <= w -> 2 ^ m <= Z.shiftr w k.
Proof.
  intros Hk Hm Hw. rewrite Z.shiftr_div_pow2 by lia.
  apply Z.div_le_lower_bound; [lia|]. rewrite <- Z.pow_add_r by lia. done.
Qed.

(** One turn of the first loop stores what three turns of the second
    would. *)
Lemma encode_fast (w : Z) :
  w > 0x1fffff -> Varint.encode w = septets3 w ++ Varint.encode (Z.shiftr w 21).
Proof.
  intros Hw.
  pose proof (shiftr_ge w 7 7 ltac:(lia) ltac:(lia) ltac:(lia)).
  pose proof (shiftr_ge w 14 7 ltac:(lia) ltac:(lia) ltac:(lia)).
  rewrite (encode_more w) by lia.
  rewrite (encode_more (Z.shiftr w 7)) by lia.
  rewrite !Z.shiftr_shiftr by lia.
  rewrite (encode_more (Z.shiftr w (7 + 7))) by (change (7 + 7) with 14; lia).
  rewrite !Z.shiftr_shiftr by lia. reflexivity.
Qed.

(** Below [2^63] the first loop never reaches its [return], and the two
    loops together store the septets of [v]. *)
Lemma putVar64_loop_small (k : nat) : forall iter_ v b,
  iter_ = 2 - Z.of_nat k -> 0 <= iter_ ->
  0 <= v < 2 ^ (21 * Z.of_nat (S k)) ->
  room b (Z.of_nat (length (Varint.encode v))) ->
  exists b', (r ← Buffer.putVar64_loop iter_ v b; Buffer.putVar64_rest r) = Ret b'
             /\ appended b (Varint.encode v) b'.
Proof.
  induction k as [|k IH]; intros iter_ v b Hit Hpos Hv Hroom.
  - change (2 ^ (21 * Z.of_nat 1)) with 2097152 in Hv.
    rewrite putVar64_loop_done by lia. cbn.
    apply (put_septets_appended 2); [|done].
    change (2 ^ (7 * Z.of_nat 3)) with 2097152. lia.
  - destruct (Z_gt_dec v 0x1fffff) as [Hgt|Hle].
    + rewrite putVar64_loop_more by done.
      rewrite encode_fast in * by done.
      rewrite length_app in Hroom.
      destruct (put3_appended v b) as (b3 & -> & H3).
      { destruct Hroom; split; cbn in *; lia. }
      cbn. destruct (Z.eqb_spec (iter_ + 1) 3); [lia|].
      destruct (IH (iter_ + 1) (Z.shiftr v 21) b3) as (b' & -> & Hb'); [lia|lia| |  |].
      { rewrite Z.shiftr_div_pow2 by lia. split.
        - apply Z.div_pos; lia.
        - apply Z.div_lt_upper_bound; [lia|]. rewrite <- Z.pow_add_r by lia.
          replace (21 + 21 * Z.of_nat (S k)) with (21 * Z.of_nat (S (S k))) by lia.
          lia. }
      { eapply appended_room; [exact H3|]. destruct Hroom; split; lia. }
      exists b'. split; [done|].
      change (appended b (septets3 v ++ Varint.encode (Z.shiftr v 21)) b').
      apply (appended_app b b3 b'); [|done..].
      destruct Hroom; split; cbn in *; lia.
    + rewrite putVar64_loop_done by lia. cbn.
      apply (put_septets_appended 2); [|done].
      change (2 ^ (7 * Z.of_nat 3)) with 2097152. lia.
Qed.

Lemma putVar64_below (v : Z) (b : Buffer.t) :
  0 <= v < 2 ^ 63 -> room b 9 ->
  exists b', Buffer.putVar64 v b = Ret b' /\ appended b (Varint.encode v) b'.
Proof.
  intros Hv Hroom. unfold Buffer.putVar64, u64.
  assert (2 ^ 63 < 2 ^ 64) by (apply Z.pow_lt_mono_r; lia).
  rewrite Z.mod_small by lia.
  apply (putVar64_loop_small 2); [done|lia|exact Hv|].
  pose proof (encode_length 8 v Hv). destruct Hroom; split; lia.
Qed.

(** From [2^63] on the [return] is taken after nine bytes. *)
Lemma putVar64_top (v : Z) (b : Buffer.t) :
  2 ^ 63 <= v < 2 ^ 64 -> room b 9 ->
  exists b', Buffer.putVar64 v b = Ret b'
             /\ appended b (take 9 (Varint.encode v)) b'.
Proof.
  intros Hv Hroom. unfold Buffer.putVar64, u64. rewrite Z.mod_small by lia.
  pose proof (shiftr_ge v 21 42 ltac:(lia) ltac:(lia) ltac:(lia)) as H1.
  pose proof (shiftr_ge v 42 21 ltac:(lia) ltac:(lia) ltac:(lia)) as H2.
  assert (Z.shiftr (Z.shiftr v 21) 21 = Z.shiftr v 42) as Hs
      by (rewrite Z.shiftr_shiftr by lia; reflexivity).
  assert (2 ^ 21 <= 2 ^ 42) by (apply Z.pow_le_mono_r; lia).
  change (2 ^ 21) with 2097152 in *.
  rewrite (encode_fast v) by lia.
  rewrite (encode_fast (Z.shiftr v 21)) by lia.
  rewrite (encode_fast (Z.shiftr (Z.shiftr v 21) 21)) by (rewrite Hs; lia).
  change (take 9 (septets3 ?a ++ septets3 ?b ++ septets3 ?c ++ ?l))
    with (septets3 a ++ septets3 b ++ septets3 c).
  rewrite (putVar64_loop_more 0 v) by lia.
  destruct (put3_appended v b) as (b1 & -> & Hb1).
  { destruct Hroom; split; lia. }
  cbn. rewrite (putVar64_loop_more 1) by lia.
  destruct (put3_appended (Z.shiftr v 21) b1) as (b2 & -> & Hb2).
  { eapply appended_room; [exact Hb1|]. destruct Hroom; split; cbn; lia. }
  cbn. rewrite (putVar64_loop_more 2) by (rewrite Hs; lia).
  destruct (put3_appended (Z.shiftr (Z.shiftr v 21) 21) b2) as (b3 & -> & Hb3).
  { eapply appended_room; [exact Hb2|]. eapply appended_room; [exact Hb1|].
    destruct Hroom; split; cbn; lia. }
  cbn. exists b3. split; [done|].
  change (appended b (septets3 v ++ septets3 (Z.shiftr v 21)
                      ++ septets3 (Z.shiftr (Z.shiftr v 21) 21)) b3).
  apply (appended_app b b1 b3); [destruct Hroom; split; cbn; lia|done|].
  apply (appended_app b1 b2 b3); [|done..].
  eapply appended_room; [exact Hb1|]. destruct Hroom; split; cbn; lia.
Qed.

Lemma putVar32_stores (v : Z) (b : Buffer.t) :
  is_u32 v -> room b 5 ->
  exists b', Buffer.putVar32 v b = Ret b' /\ appended b (Varint.encode v) b'.
Proof.
  intros Hv Hroom. unfold is_u32 in Hv.
  unfold Buffer.putVar32, u32. rewrite Z.mod_small by lia.
  assert (2 ^ 32 <= 2 ^ 35) by (apply Z.pow_le_mono_r; lia).
  apply (put_septets_appended 4); [change (7 * Z.of_nat 5) with 35; lia|].
  pose proof (encode_length 4 v ltac:(change (7 * Z.of_nat 5) with 35; lia)).
  destruct Hroom; split; lia.
Qed.

(** C2, amended. For every u32 value [v], decoding the bytes written by
    [putVar32(v)] as a 7-bit-per-byte high-bit-continuation varint yields
    [v] again. For every u64 value [v] below [2^63] the same holds of
    [putVar64(v)]. For a u64 value from [2^63] on, [putVar64] stops after
    nine bytes that all carry the continuation bit, so that reader finds
    no end of the value; what round-trips for every u64 value is the
    reading that takes a ninth byte whole, all eight bits ([decode64]). *)
Theorem varint_round_trip (v : Z) (b : Buffer.t) :
  room b 10 ->
  (is_u32 v ->
     exists b', Buffer.putVar32 v b = Ret b'
                /\ Varint.decode (Buffer.written b b') = Some (v, []))
  /\ (0 <= v < 2 ^ 63 ->
     exists b', Buffer.putVar64 v b = Ret b'
                /\ Varint.decode (Buffer.written b b') = Some (v, []))
  /\ (is_u64 v ->
     exists b', Buffer.putVar64 v b = Ret b'
                /\ Varint.decode64 (Buffer.written b b') = Some (v, [])).
Proof.
  intros Hroom.
  assert (room b 5) as Hroom5 by (destruct Hroom; split; lia).
  assert (room b 9) as Hroom9 by (destruct Hroom; split; lia).
  assert (forall w b', 0 <= w < 2 ^ 63 -> appended b (Varint.encode w) b' ->
                       Buffer.written b b' = Varint.encode w) as Hwr.
  { intros w b' Hw Hb'. apply appended_written; [|done].
    pose proof (encode_length 8 w Hw). destruct Hroom; split; lia. }
  split_and!.
  - intros Hv. destruct (putVar32_stores v b Hv Hroom5) as (b' & Hput & Hb').
    exists b'. split; [done|].
    assert (0 <= v < 2 ^ 63) as Hv63
        by (unfold is_u32 in Hv;
            assert (2 ^ 32 <= 2 ^ 63) by (apply Z.pow_le_mono_r; lia); lia).
    rewrite (Hwr v b' Hv63 Hb'), <- (app_nil_r (Varint.encode v)).
    by apply (decode_encode 8).
  - intros Hv. destruct (putVar64_below v b Hv Hroom9) as (b' & Hput & Hb').
    exists b'. split; [done|].
    rewrite (Hwr v b' Hv Hb'), <- (app_nil_r (Varint.encode v)).
    by apply (decode_encode 8).
  - intros Hv. unfold is_u64 in Hv.
    destruct (Z_lt_le_dec v (2 ^ 63)) as [Hlt|Hge].
    + destruct (putVar64_below v b ltac:(lia) Hroom9) as (b' & Hput & Hb').
      exists b'. split; [done|].
      rewrite (Hwr v b' ltac:(lia) Hb'), <- (app_nil_r (Varint.encode v)).
      apply (decode_capped_encode 8). change (7 * Z.of_nat 9) with 63. lia.
    + destruct (putVar64_top v b ltac:(lia) Hroom9) as (b' & Hput & Hb').
      exists b'. split; [done|].
      assert (length (take 9 (Varint.encode v)) <= 9)%nat
        by (rewrite length_take; apply Nat.le_min_l).
      rewrite (appended_written b b' (take 9 (Varint.encode v)));
        [|destruct Hroom; split; lia|done].
      rewrite <- (app_nil_r (take 9 _)).
      apply (decode_capped_full 8).
      change (7 * Z.of_nat 9) with 63. change (63 + 1) with 64. lia.
Qed.

Lemma varint_round_trip_witness :
  room (Buffer.fresh 16) 10
  /\ exists b', Buffer.putVar64 300 (Buffer.fresh 16) = Ret b'
                /\ Varint.decode (Buffer.written (Buffer.fresh 16) b') = Some (300, []).
Proof.
  assert (room (Buffer.fresh 16) 10) as H
      by (unfold room, Buffer.fresh; cbn [Buffer._offset Buffer._data];
          rewrite length_replicate; lia).
  split; [exact H|].
  apply (proj1 (proj2 (varint_round_trip 300 (Buffer.fresh 16) H))). lia.
Defined.

(** C2 as stated fails at [2^63]: [putVar64] writes nine bytes 0x80, and
    the 7-bit reader finds no last byte in them. *)
Lemma putVar64_top_bit_counterexample :
  exists b',
    Buffer.putVar64 (2 ^ 63) (Buffer.fresh 16) = Ret b'
    /\ Buffer.written (Buffer.fresh 16) b'
       = [128; 128; 128; 128; 128; 128; 128; 128; 128]
    /\ Varint.decode (Buffer.written (Buffer.fresh 16) b') = None
    /\ Varint.decode (Buffer.written (Buffer.fresh 16) b') <> Some (2 ^ 63, []).
Proof.
  eexists. split; [by vm_compute|]. split; [by vm_compute|].
  split; [by vm_compute|]. by vm_compute.
Qed.

End Varints.

(** ** Context table *)

Section ContextTable.

Import Contexts.

Variable shift : Z.
Hypothesis shift_pos : 0 <= shift.

Lemma page_size_pos : 0 < DD_CONTEXT_PAGE_SIZE shift.
Proof. unfold DD_CONTEXT_PAGE_SIZE. apply Z.pow_pos_nonneg; lia. Qed.

Lemma getMaxPages_ceiling (maxTid : Z) :
  0 <= maxTid < 2 ^ 31 ->
  getMaxPages shift maxTid
  = (maxTid - 1) / DD_CONTEXT_PAGE_SIZE shift + 1
  /\ 0 <= getMaxPages shift maxTid < 2 ^ 31.
Proof.
intros Hm. pose proof page_size_pos as Hp. unfold getMaxPages.
set (P := DD_CONTEXT_PAGE_SIZE shift) in *.
rewrite Z.quot_div_nonneg by lia.
replace (maxTid + P - 1) with (maxTid - 1 + 1 * P) by lia.
rewrite Z.div_add by lia.
assert (-1 <= (maxTid - 1) / P) by (apply Z.div_le_lower_bound; lia).
assert ((maxTid - 1) / P <= maxTid - 1).
{ destruct (Z.eq_dec maxTid 0) as [->|].
  - assert ((0 - 1) / P < 0) by (apply Z.div_lt_upper_bound; lia). lia.
  - apply Z.div_le_upper_bound; [lia|]. nia. }
unfold to_int. rewrite Z.mod_small by lia. lia.
Qed.

Lemma startup_wf (maxTid : Z) :
  0 <= maxTid < 2 ^ 31 -> wf shift (startup shift maxTid).
Proof.
intros Hm. destruct (getMaxPages_ceiling maxTid Hm) as [_ Hr].
unfold wf, startup. cbn. split_and!; [done| |].
- rewrite length_replicate. lia.
- intros i p Hp. apply lookup_replicate in Hp as [? _]. done.
Qed.

Lemma initialize_wf (pageIndex : Z) (st st' : t) :
  wf shift st -> initialize shift pageIndex st = Ret st' -> wf shift st'.
Proof.
intros (Hsh & Hlen & Hpages). unfold initialize, aread.
destruct (pageIndex <? 0); [done|].
destruct (_pages st !! Z.to_nat pageIndex) as [[p|]|] eqn:Hp; cbn; [| |done].
- intros [= <-]. done.
- intros [= <-]. split_and!; [done|cbn; by rewrite length_insert|].
  cbn. intros i p Hi.
  destruct (decide (i = Z.to_nat pageIndex)) as [->|Hne].
  + rewrite list_lookup_insert_eq in Hi by (eapply lookup_lt_Some; eauto).
    injection Hi as <-. rewrite length_replicate.
    pose proof page_size_pos. lia.
  + rewrite list_lookup_insert_ne in Hi by done. eauto.
Qed.

Lemma page_index_in_range (maxTid tid : Z) :
  0 <= maxTid < 2 ^ 31 -> 0 <= tid < maxTid ->
  0 <= Z.shiftr tid shift < getMaxPages shift maxTid.
Proof.
intros Hm Ht. destruct (getMaxPages_ceiling maxTid Hm) as [-> _].
pose proof page_size_pos as Hp. unfold DD_CONTEXT_PAGE_SIZE in *.
rewrite Z.shiftr_div_pow2 by lia. split.
- apply Z.div_pos; lia.
- assert (tid / 2 ^ shift <= (maxTid - 1) / 2 ^ shift)
    by (apply Z.div_le_mono; lia).
  lia.
Qed.

Lemma slot_in_range (tid : Z) :
  0 <= tid ->
  0 <= Z.land tid (DD_CONTEXT_PAGE_MASK shift) < DD_CONTEXT_PAGE_SIZE shift.
Proof.
intros Ht. unfold DD_CONTEXT_PAGE_MASK, DD_CONTEXT_PAGE_SIZE.
replace (2 ^ shift - 1) with (Z.ones shift)
  by (rewrite Z.ones_equiv; lia).
rewrite Z.land_ones by lia. apply Z.mod_pos_bound.
apply Z.pow_pos_nonneg; lia.
Qed.

(** Past the last page the assertion of [get] fails. *)
Lemma get_beyond_pages (st : t) (tid : Z) :
  _max_pages st <= Z.shiftr tid shift -> get shift st tid = AssertFail.
Proof.
intros H. unfold get.
destruct (Z.ltb_spec (Z.shiftr tid shift) (_max_pages st)); [lia|done].
Qed.

(** C3. For every thread id, that is every [tid] with [0 <= tid <
    MAX_TID], the table having one page pointer per page of that range,
    [Contexts::get(tid)] returns either the shared empty record or the
    slot of [tid], and in the latter case the slot satisfies [span_id XOR
    root_span_id == checksum]; when the page of [tid] is unallocated, or
    the checksum of the slot does not satisfy the predicate, the shared
    empty record is returned. *)
Theorem get_valid_or_empty (maxTid tid : Z) (st : t) :
  wf shift st -> 0 <= maxTid < 2 ^ 31 ->
  _max_pages st = getMaxPages shift maxTid ->
  0 <= tid < maxTid ->
  let pageIndex := Z.shiftr tid shift in
  let slot := Z.land tid (DD_CONTEXT_PAGE_MASK shift) in
  exists r,
    get shift st tid = Ret r
    /\ (r = EmptyRef
        \/ r = SlotRef pageIndex slot
           /\ exists c, deref st r = Ret c /\ valid c = true)
    /\ (_pages st !! Z.to_nat pageIndex = Some None -> r = EmptyRef)
    /\ (forall p c, _pages st !! Z.to_nat pageIndex = Some (Some p) ->
                    p !! Z.to_nat slot = Some c ->
                    valid c = false -> r = EmptyRef).
Proof.
intros (_ & Hlen & Hpages) Hm Hmax Ht pageIndex slot.
pose proof (page_index_in_range maxTid tid Hm Ht) as Hpi.
pose proof (slot_in_range tid ltac:(lia)) as Hsl.
fold pageIndex in Hpi. fold slot in Hsl. rewrite <- Hmax in Hpi.
destruct (lookup_lt_is_Some_2 (_pages st) (Z.to_nat pageIndex)) as [page Hpage];
  [lia|].
unfold get. fold pageIndex slot.
destruct (Z.ltb_spec pageIndex (_max_pages st)); [|lia]. cbn [negb].
assert (aread (_pages st) pageIndex = Ret page) as Hrd.
{ unfold aread. destruct (Z.ltb_spec pageIndex 0); [lia|]. by rewrite Hpage. }
rewrite Hrd. cbn [mbind outcome_bind obind]. destruct page as [p|].
- pose proof (Hpages _ _ Hpage) as Hp.
  destruct (lookup_lt_is_Some_2 p (Z.to_nat slot)) as [c Hc]; [lia|].
  assert (aread p slot = Ret c) as Hrc.
  { unfold aread. destruct (Z.ltb_spec slot 0); [lia|]. by rewrite Hc. }
  rewrite Hrc. cbn [mbind outcome_bind obind].
  destruct (Z.lxor (spanId c) (rootSpanId c) =? checksum c) eqn:Hv.
  + exists (SlotRef pageIndex slot). split_and!; [done| |congruence|].
    * right. split; [done|]. exists c. split; [|done].
      unfold deref. rewrite Hrd. cbn [mbind outcome_bind obind]. done.
    * intros p' c' Hp' Hc'. assert (p' = p) as -> by congruence.
      assert (c' = c) as -> by congruence. unfold valid. by rewrite Hv.
  + exists EmptyRef. split_and!; auto.
- exists EmptyRef. split_and!; auto.
Qed.

End ContextTable.

Lemma one_page_wf : Contexts.wf 10 Contexts.one_page.
Proof.
unfold Contexts.wf. split; [lia|]. split; [reflexivity|].
intros i p Hp.
destruct i as [|[|[|[|i]]]]; try discriminate Hp.
injection Hp as <-. reflexivity.
Qed.

(** The three ways out of [get] on the table [one_page]: the published
    record of thread 1234, the empty record for thread 1235, whose slot
    does not satisfy the predicate, and the empty record for thread 5,
    whose page is not allocated. *)
Lemma get_valid_or_empty_witness :
  (exists r,
    Contexts.get 10 Contexts.one_page 1234 = Ret r
    /\ (r = Contexts.EmptyRef
        \/ r = Contexts.SlotRef (Z.shiftr 1234 10)
                 (Z.land 1234 (Contexts.DD_CONTEXT_PAGE_MASK 10))
           /\ exists c, Contexts.deref Contexts.one_page r = Ret c
                        /\ Contexts.valid c = true)
    /\ (Contexts._pages Contexts.one_page !! Z.to_nat (Z.shiftr 1234 10)
        = Some None -> r = Contexts.EmptyRef)
    /\ (forall p c,
          Contexts._pages Contexts.one_page !! Z.to_nat (Z.shiftr 1234 10)
          = Some (Some p) ->
          p !! Z.to_nat (Z.land 1234 (Contexts.DD_CONTEXT_PAGE_MASK 10)) = Some c ->
          Contexts.valid c = false -> r = Contexts.EmptyRef))
  /\ Contexts.get 10 Contexts.one_page 1234 = Ret (Contexts.SlotRef 1 210)
  /\ Contexts.deref Contexts.one_page (Contexts.SlotRef 1 210)
     = Ret Contexts.published
  /\ Contexts.get 10 Contexts.one_page 1235 = Ret Contexts.EmptyRef
  /\ Contexts.get 10 Contexts.one_page 5 = Ret Contexts.EmptyRef.
Proof.
split.
- apply (get_valid_or_empty 10 ltac:(lia) 4096 1234 Contexts.one_page).
  + exact one_page_wf.
  + lia.
  + reflexivity.
  + lia.
- split; [reflexivity|]. split; [reflexivity|]. split; reflexivity.
Defined.

(** ** Liveness tracker *)

Section ArrayAccess.

Context {A : Type}.

Lemma aread_Ret (a : list A) (i : Z) (x : A) :
  aread a i = Ret x -> 0 <= i < Z.of_nat (length a).
Proof.
unfold aread. destruct (Z.ltb_spec i 0); [done|].
destruct (a !! Z.to_nat i) eqn:Hi; [|done].
intros _. apply lookup_lt_Some in Hi. lia.
Qed.

Lemma aread_in_range (a : list A) (i : Z) :
  0 <= i < Z.of_nat (length a) -> exists x, aread a i = Ret x.
Proof.
intros Hi. unfold aread. destruct (Z.ltb_spec i 0); [lia|].
destruct (lookup_lt_is_Some_2 a (Z.to_nat i)) as [x ->]; [lia|]. eauto.
Qed.

Lemma awrite_Ret (a a' : list A) (i : Z) (x : A) :
  awrite a i x = Ret a' ->
  0 <= i < Z.of_nat (length a) /\ length a' = length a.
Proof.
unfold awrite. destruct (Z.ltb_spec i 0); [done|].
destruct (Z.leb_spec (Z.of_nat (length a)) i); [done|]. cbn.
intros [= <-]. rewrite length_insert. lia.
Qed.

Lemma awrite_in_range (a : list A) (i : Z) (x : A) :
  0 <= i < Z.of_nat (length a) -> awrite a i x = Ret (<[Z.to_nat i := x]> a).
Proof.
intros Hi. unfold awrite. destruct (Z.ltb_spec i 0); [lia|].
destruct (Z.leb_spec (Z.of_nat (length a)) i); [lia|]. done.
Qed.

End ArrayAccess.

(** Case analysis on a step of a computation in [outcome]. *)
Ltac outcome_step H :=
  match type of H with
  | mbind _ ?m = Ret _ =>
      let E := fresh "E" in
      destruct m eqn:E; cbn [mbind outcome_bind obind] in H; [|done..]
  end.

Section Tracker.

Import LivenessTracker LivenessSpec.

(** The loop of [cleanup_table] moves no bound and never lets [newsz]
    overtake [i]. *)
Lemma cleanup_loop_bounds collected epoch_diff (k : nat) : forall i newsz s r,
  0 <= newsz <= i -> i + Z.of_nat k < 2 ^ 32 ->
  cleanup_loop collected epoch_diff k i newsz s = Ret r ->
  _table_size (fst r) = _table_size s
  /\ _table_cap (fst r) = _table_cap s
  /\ _table_max_cap (fst r) = _table_max_cap s
  /\ length (_table (fst r)) = length (_table s)
  /\ 0 <= snd r <= i + Z.of_nat k.
Proof.
induction k as [|k IH]; intros i newsz s r Hn Hk Hrun; cbn in Hrun.
- injection Hrun as <-. cbn. split_and!; try done; lia.
- outcome_step Hrun.
  destruct (IsSameObject_null collected (ref a)); cbn [negb] in Hrun.
  + outcome_step Hrun. pose proof (awrite_Ret _ _ _ _ E0) as [_ Hl0].
    apply IH in Hrun; [|lia..]. cbn in Hrun.
    destruct Hrun as (? & ? & ? & Hl & ?).
    split_and!; try done; lia.
  + outcome_step Hrun. outcome_step Hrun. outcome_step Hrun. outcome_step Hrun.
    pose proof (awrite_Ret _ _ _ _ E0) as [_ Hl0].
    pose proof (awrite_Ret _ _ _ _ E1) as [_ Hl1].
    pose proof (awrite_Ret _ _ _ _ E3) as [_ Hl3].
    assert (u32 (newsz + 1) = newsz + 1) as Hu
        by (unfold u32; apply Z.mod_small; lia).
    rewrite Hu in Hrun.
    apply IH in Hrun; [|lia..]. cbn in Hrun.
    destruct Hrun as (? & ? & ? & Hl & ?).
    split_and!; try done; lia.
Qed.

(** Inside the table the loop runs to its end. *)
Lemma cleanup_loop_returns collected epoch_diff (k : nat) : forall i newsz s,
  0 <= newsz <= i -> i + Z.of_nat k <= Z.of_nat (length (_table s)) ->
  exists r, cleanup_loop collected epoch_diff k i newsz s = Ret r.
Proof.
induction k as [|k IH]; intros i newsz s Hn Hk; cbn.
- eauto.
- destruct (aread_in_range (_table s) i) as [e ->]; [lia|].
  cbn [mbind outcome_bind obind].
  destruct (IsSameObject_null collected (ref e)); cbn [negb].
  + rewrite awrite_in_range by lia. cbn [mbind outcome_bind obind].
    apply IH; [lia|]. cbn. rewrite length_insert. lia.
  + rewrite awrite_in_range by lia. cbn [mbind outcome_bind obind].
    rewrite awrite_in_range by (rewrite length_insert; lia).
    cbn [mbind outcome_bind obind].
    destruct (aread_in_range
                (<[Z.to_nat newsz := set_age e (age e + epoch_diff)]>
                   (<[Z.to_nat i := set_age e (age e + epoch_diff)]> (_table s))) i)
      as [ei ->]; [rewrite !length_insert; lia|].
    cbn [mbind outcome_bind obind].
    rewrite awrite_in_range by (rewrite !length_insert; lia).
    cbn [mbind outcome_bind obind].
    apply IH.
    { unfold u32. pose proof (Z.mod_pos_bound (newsz + 1) (2 ^ 32) ltac:(lia)).
      pose proof (Z.mod_le (newsz + 1) (2 ^ 32) ltac:(lia) ltac:(lia)). lia. }
    cbn. rewrite !length_insert. lia.
Qed.

Lemma cleanup_table_sized collected (s s' : t) :
  sized s -> cleanup_table collected s = Ret s' ->
  sized s' /\ length (_table s') = length (_table s)
  /\ _table_cap s' = _table_cap s /\ _table_max_cap s' = _table_max_cap s
  /\ _table_size s' <= _table_size s.
Proof.
intros (H0 & [H1 H2] & H3). unfold cleanup_table.
destruct (_gc_epoch s =? _last_gc_epoch s).
{ intros [= <-]. unfold sized, inv. split_and!; try done; lia. }
intros Hrun. outcome_step Hrun. injection Hrun as <-.
cbn [_table_size set_epochs] in E.
assert (u32 (_table_size s) = _table_size s) as Hu
    by (unfold u32; apply Z.mod_small; lia).
rewrite Hu in E.
apply cleanup_loop_bounds in E; [|lia..]. cbn in E.
destruct E as (? & ? & ? & ? & ?).
unfold sized, inv. cbn. split_and!; try done; lia.
Qed.

Lemma cleanup_table_returns collected (s : t) :
  sized s -> allocated s -> exists s', cleanup_table collected s = Ret s'.
Proof.
intros (H0 & [H1 H2] & H3) Ha. unfold cleanup_table, allocated in *.
destruct (_gc_epoch s =? _last_gc_epoch s); [eauto|].
cbn [_table_size set_epochs].
assert (u32 (_table_size s) = _table_size s) as Hu
    by (unfold u32; apply Z.mod_small; lia).
rewrite Hu.
destruct (cleanup_loop_returns collected
            (to_int (u64 (_gc_epoch s - _last_gc_epoch s)))
            (Z.to_nat (_table_size s)) 0 0
            (set_epochs s (_gc_epoch s) (_gc_epoch s))) as [r ->];
  [lia|cbn; lia|].
cbn [mbind outcome_bind obind]. eauto.
Qed.














End Tracker.

(** ** Liveness tracker: sizing at start *)

Section TrackerClaims.

Import LivenessTracker LivenessSpec.


Lemma to_int_small (z : Z) : - 2 ^ 31 <= z < 2 ^ 31 -> to_int z = z.
Proof. intros Hz. unfold to_int. rewrite Z.mod_small by lia. lia. Qed.

(** What [initialize_table] computes when the heap size is known. *)
Lemma initialize_table_sizing (MAX : Z) (env : InitEnv) (interval : Z) (s : t) :
  max_heap_of env <> -1 ->
  let r := initialize_table MAX env interval s in
  snd r = false
  /\ _table_max_cap (fst r)
     = Z.min MAX (to_int (if interval >? 0
                          then Z.quot (max_heap_of env) interval
                          else max_heap_of env))
  /\ _table_cap (fst r) = Z.max 2048 (Z.quot (_table_max_cap (fst r)) 8)
  /\ _table_size (fst r) = _table_size s.
Proof.
intros Hh. unfold initialize_table. fold (max_heap_of env).
destruct (Z.eqb_spec (max_heap_of env) (-1)); [done|]. cbn. done.
Qed.

(** What [initialize] leaves when it goes all the way: the capacity
    computed by [initialize_table] is overwritten by [min (2048, max_cap)]. *)
Lemma initialize_enabled (MAX : Z) (env : InitEnv) (s0 : t) :
  _initialized s0 = false -> enables env ->
  let s := initialize MAX env s0 in
  _table_max_cap s = Z.min MAX (required_capacity env)
  /\ _table_cap s = Z.min 2048 (_table_max_cap s)
  /\ _table_size s = 0
  /\ length (_table s) = Z.to_nat (_table_cap s).
Proof.
intros Hi (Hj & Hc & Hh). unfold initialize. rewrite Hi.
destruct (Z.ltb_spec (java_version env) 11); [lia|].
destruct (initialize_table_sizing MAX env (to_int (args_memory env))
            (set_flags s0 true (_record_heap_usage s0)) Hh)
  as (Herr & Hmax & _).
rewrite Herr, Hc. cbn [negb]. cbn. rewrite Hmax, length_replicate.
done.
Qed.


(** C4. At liveness-tracker start with a heap of 16 GiB and the sampling
    interval 512 KiB, [max_cap = min (MAX_TRACKING_TABLE_SIZE, max_heap /
    sampling_interval) = 32768], and the claim asks for the initial
    capacity [max (2048, max_cap / 8) = 4096]. [initialize_table] computes
    exactly that, but [initialize] then overwrites the capacity with
    [min (2048, max_cap)], so the table starts with 2048 slots. *)
Theorem initialize_overrides_capacity (MAX : Z) :
  32768 <= MAX ->
  let env := jvm (16 * GiB) (512 * KiB) in
  let s := initialize MAX env (blank 0 0 0) in
  _table_max_cap s = Z.min MAX (16 * GiB / (512 * KiB))
  /\ _table_max_cap s = 32768
  /\ Z.max 2048 (_table_max_cap s / 8) = 4096
  /\ _table_cap (fst (initialize_table MAX env (512 * KiB) (blank 0 0 0))) = 4096
  /\ _table_cap s = 2048
  /\ Z.of_nat (length (_table s)) = 2048.
Proof.
intros HM env s.
destruct (initialize_enabled MAX env (blank 0 0 0) eq_refl) as (Hm & Hc & Hs & Hl).
{ unfold enables, env. cbn. split_and!; [lia|done|done]. }
fold s in Hm, Hc, Hs, Hl.
assert (required_capacity env = 32768) as Hr by reflexivity.
rewrite Hr in Hm.
assert (_table_max_cap s = 32768) as Hm' by lia.
destruct (initialize_table_sizing MAX env (512 * KiB) (blank 0 0 0)) as (_ & Ht & Htc & _);
  [done|].
change (to_int _) with 32768 in Ht.
split_and!.
- change (16 * GiB / (512 * KiB)) with 32768. lia.
- done.
- by rewrite Hm'.
- rewrite Htc, Ht. replace (Z.min MAX 32768) with 32768 by lia. reflexivity.
- lia.
- lia.
Qed.

Lemma initialize_overrides_capacity_witness :
  32768 <= 262144
  /\ _table_cap (initialize 262144 (jvm (16 * GiB) (512 * KiB)) (blank 0 0 0)) = 2048
  /\ Z.max 2048
       (_table_max_cap (initialize 262144 (jvm (16 * GiB) (512 * KiB)) (blank 0 0 0)) / 8)
     = 4096.
Proof.
assert (32768 <= 262144) as H by lia.
split; [exact H|].
pose proof (initialize_overrides_capacity 262144 H) as (_ & _ & H3 & _ & H5 & _).
split; [exact H5|exact H3].
Defined.

(** Scenario S4: with a heap of 1 GiB and the interval 512 KiB,
    [max_cap = min (MAX_TRACKING_TABLE_SIZE, 2048)], and the table starts
    with 2048 slots as soon as the limit allows that many. *)
Lemma initialize_S4 (MAX : Z) :
  let s := initialize MAX (jvm (1 * GiB) (512 * KiB)) (blank 0 0 0) in
  _table_max_cap s = Z.min MAX 2048
  /\ (2048 <= MAX -> _table_cap s = 2048).
Proof.
intros s.
destruct (initialize_enabled MAX (jvm (1 * GiB) (512 * KiB)) (blank 0 0 0) eq_refl)
  as (Hm & Hc & _).
{ unfold enables. cbn. split_and!; [lia|done|done]. }
fold s in Hm, Hc. change (required_capacity _) with 2048 in Hm.
split; [done|]. lia.
Qed.

(** ** Liveness tracker: cleanup *)

(** C5. One sampled object that is still alive, one collection later:
    [cleanup_table] advances [last_gc_epoch] and keeps the entry at the
    front with its age raised by one, as claimed, but the statement that
    follows the copy clears the weak reference of the entry it has just
    kept (source and target are the same slot). The entry that remains in
    the table therefore has a NULL referent, for which [IsSameObject(ref,
    NULL)] holds, the weak reference is never deleted, and the flush that
    follows reports nothing. *)
Theorem cleanup_table_nulls_survivor :
  run_ops [Track all_alive sample; OnGC]
          (initialize 262144 (jvm (1 * GiB) (512 * KiB)) (blank 0 0 0))
  = Ret one_survivor
  /\ exists s',
       cleanup_table all_alive one_survivor = Ret s'
       /\ _last_gc_epoch s' = 1
       /\ _table_size s' = 1
       /\ _table s' !! 0%nat = Some (set_ref (set_age (new_entry sample) 1) None)
       /\ IsSameObject_null all_alive (ref (set_ref (set_age (new_entry sample) 1) None))
          = true
       /\ deleted_refs s' = []
       /\ exists s'', flush_table all_alive s' = Ret (s'', []).
Proof.
split; [by vm_compute|].
eexists. split; [by vm_compute|].
split_and!; try by vm_compute.
eexists. by vm_compute.
Qed.

(** ** Liveness tracker: the sizing invariant *)





(** ** Liveness tracker: a busy table lock *)





End TrackerClaims.

(** ** Liveness tracker: what the cleanup does to survivors *)
Section Survivors.

Import LivenessTracker LivenessSpec.

(** As long as no dead entry has been met ([newsz = i]), the loop of
    [cleanup_table] clears the weak reference of every survivor it keeps. *)
Lemma cleanup_loop_alive collected epoch_diff (k : nat) : forall i s,
  0 <= i -> i + Z.of_nat k <= Z.of_nat (length (_table s)) ->
  i + Z.of_nat k < 2 ^ 32 ->
  (forall (j : nat) e, i <= Z.of_nat j < i + Z.of_nat k -> _table s !! j = Some e ->
                       IsSameObject_null collected (ref e) = false) ->
  exists s',
    cleanup_loop collected epoch_diff k i i s = Ret (s', i + Z.of_nat k)
    /\ length (_table s') = length (_table s)
    /\ deleted_refs s' = deleted_refs s
    /\ (forall (j : nat) e, i <= Z.of_nat j < i + Z.of_nat k ->
          _table s !! j = Some e ->
          _table s' !! j = Some (set_ref (set_age e (age e + epoch_diff)) None))
    /\ (forall (j : nat), Z.of_nat j < i \/ i + Z.of_nat k <= Z.of_nat j ->
          _table s' !! j = _table s !! j).
Proof.
induction k as [|k IH]; intros i s Hi Hlen Hu Halive.
- exists s. cbn. rewrite Z.add_0_r. split_and!; try done. intros; lia.
- cbn [cleanup_loop].
  destruct (lookup_lt_is_Some_2 (_table s) (Z.to_nat i)) as [e He]; [lia|].
  assert (aread (_table s) i = Ret e) as ->.
  { unfold aread. destruct (Z.ltb_spec i 0); [lia|]. by rewrite He. }
  cbn [mbind outcome_bind obind].
  rewrite (Halive (Z.to_nat i) e) by (done || lia). cbn [negb].
  set (e1 := set_age e (age e + epoch_diff)).
  rewrite awrite_in_range by lia. cbn [mbind outcome_bind obind].
  rewrite awrite_in_range by (rewrite length_insert; lia).
  cbn [mbind outcome_bind obind].
  rewrite list_insert_insert_eq.
  assert (aread (<[Z.to_nat i := e1]> (_table s)) i = Ret e1) as ->.
  { unfold aread. destruct (Z.ltb_spec i 0); [lia|].
    rewrite list_lookup_insert_eq by lia. done. }
  cbn [mbind outcome_bind obind].
  rewrite awrite_in_range by (rewrite length_insert; lia).
  cbn [mbind outcome_bind obind]. rewrite list_insert_insert_eq.
  assert (u32 (i + 1) = i + 1) as -> by (unfold u32; apply Z.mod_small; lia).
  set (s1 := set_table s (<[Z.to_nat i := set_ref e1 None]> (_table s))
                       (_table_size s)).
  destruct (IH (i + 1) s1) as (s' & Hrun & Hl & Hd & Hin & Hout).
  { lia. }
  { subst s1. cbn. rewrite length_insert. lia. }
  { lia. }
  { intros j ej Hj Hej. subst s1. cbn in Hej.
    rewrite list_lookup_insert_ne in Hej by lia. apply (Halive j); [lia|done]. }
  exists s'. replace (i + Z.of_nat (S k)) with (i + 1 + Z.of_nat k) by lia.
  split; [exact Hrun|]. split_and!.
  + rewrite Hl. subst s1. cbn. apply length_insert.
  + rewrite Hd. done.
  + intros j ej Hj Hej.
    destruct (decide (j = Z.to_nat i)) as [->|Hne].
    * rewrite Hout by lia. subst s1. cbn.
      rewrite list_lookup_insert_eq by lia.
      assert (ej = e) as -> by congruence. done.
    * apply Hin; [lia|]. subst s1. cbn.
      rewrite list_lookup_insert_ne by lia. done.
  + intros j Hj. rewrite Hout by lia. subst s1. cbn.
    apply list_lookup_insert_ne. lia.
Qed.

(** A collection that every tracked object survives: [cleanup_table]
    keeps all entries, raises their age, and leaves each of them with a
    NULL weak reference, none of which it has deleted. *)
Lemma cleanup_table_all_alive collected (s : t) :
  sized s -> allocated s -> _gc_epoch s <> _last_gc_epoch s ->
  (forall (j : nat) e, Z.of_nat j < _table_size s -> _table s !! j = Some e ->
                       IsSameObject_null collected (ref e) = false) ->
  exists s',
    cleanup_table collected s = Ret s'
    /\ _table_size s' = _table_size s
    /\ deleted_refs s' = deleted_refs s
    /\ (forall (j : nat) e, Z.of_nat j < _table_size s -> _table s' !! j = Some e ->
                            ref e = None).
Proof.
intros (H0 & [H1 H2] & H3) Ha Hne Halive. unfold allocated in Ha.
unfold cleanup_table. destruct (Z.eqb_spec (_gc_epoch s) (_last_gc_epoch s)); [done|].
cbn [_table_size set_epochs].
assert (u32 (_table_size s) = _table_size s) as ->
    by (unfold u32; apply Z.mod_small; lia).
destruct (cleanup_loop_alive collected
            (to_int (u64 (_gc_epoch s - _last_gc_epoch s)))
            (Z.to_nat (_table_size s)) 0
            (set_epochs s (_gc_epoch s) (_gc_epoch s)))
  as (s' & Hrun & Hl & Hd & Hin & _); [lia|cbn; lia|lia| |].
{ intros j e Hj He. apply (Halive j); [lia|done]. }
rewrite Hrun. cbn [mbind outcome_bind obind].
eexists. split; [reflexivity|]. cbn. split_and!; [lia|done|].
intros j e Hj He.
destruct (lookup_lt_is_Some_2 (_table s) j) as [e0 He0]; [lia|].
rewrite (Hin j e0) in He by (done || lia). by injection He as <-.
Qed.

(** When [initialize] receives no sampling interval and the heap has
    2 GiB, the conversion of the heap size to [int] wraps around and the
    table gets a negative capacity. *)
Lemma initialize_wrapped_capacity (MAX : Z) :
  0 <= MAX ->
  let s := initialize MAX (jvm (2 * GiB) 0) (blank 0 0 0) in
  _table_max_cap s = - 2 ^ 31 /\ _table_cap s = - 2 ^ 31 /\ _table_size s = 0.
Proof.
intros HM s.
destruct (initialize_enabled MAX (jvm (2 * GiB) 0) (blank 0 0 0) eq_refl)
  as (Hm & Hc & Hs & _).
{ unfold enables. cbn. split_and!; [lia|done|done]. }
fold s in Hm, Hc, Hs. change (required_capacity _) with (- 2 ^ 31) in Hm.
split_and!; [lia|lia|done].
Qed.

End Survivors.

(** ** Recorder: chunk rotation *)

Section Rotation.

Import Recording.







End Rotation.

(** ** Code cache: frame descriptors *)

Section FrameDescs.

Variable table : list FrameDesc.
Variable target : Z.

Hypothesis table_len : Z.of_nat (length table) < 2 ^ 31.
Hypothesis table_sorted : StronglySorted (fun a b => loc a <= loc b) table.

(** With fuel for every turn the loop of [findFrameDesc] returns: a
    descriptor at [target], or the number of descriptors below it. *)
Lemma findFrameDesc_loop_settles (fuel : nat) : forall low high,
  0 <= low -> high < Z.of_nat (length table) -> low <= high + 1 ->
  (forall (i : nat) d, Z.of_nat i < low -> table !! i = Some d -> loc d < target) ->
  (forall (i : nat) d, high < Z.of_nat i -> table !! i = Some d -> target < loc d) ->
  high + 1 - low < Z.of_nat fuel ->
  exists e, CodeCache.findFrameDesc_loop fuel table target low high = Ret e
    /\ match e with
       | CodeCache.Hit d => d ∈ table /\ loc d = target
       | CodeCache.Miss low' =>
           0 <= low' <= Z.of_nat (length table)
           /\ (forall (i : nat) d, Z.of_nat i < low' -> table !! i = Some d ->
                                   loc d < target)
           /\ (forall (i : nat) d, low' <= Z.of_nat i -> table !! i = Some d ->
                                   target < loc d)
       end.
Proof.
induction fuel as [|fuel IH]; intros low high Hlow Hhigh Hle Hbelow Habove Hfuel;
  [lia|].
cbn [CodeCache.findFrameDesc_loop].
destruct (Z.leb_spec low high) as [Hlh|Hlh].
2: { exists (CodeCache.Miss low). split; [done|]. split_and!; try lia; [done|].
     intros i d Hi. apply Habove. lia. }
assert (low <= Z.shiftr (u32 (low + high)) 1 <= high) as Hmid.
{ unfold u32. rewrite Z.mod_small by lia.
  rewrite Z.shiftr_div_pow2 by lia. change (2 ^ 1) with 2. split.
  - apply Z.div_le_lower_bound; lia.
  - apply Z.div_le_upper_bound; lia. }
set (mid := Z.shiftr (u32 (low + high)) 1) in *.
destruct (aread_in_range table mid) as [d Hd]; [lia|].
rewrite Hd. cbn [mbind outcome_bind obind].
assert (table !! Z.to_nat mid = Some d) as Hmd.
{ unfold aread in Hd. destruct (mid <? 0); [done|].
  destruct (table !! Z.to_nat mid); congruence. }
pose proof (strongly_sorted_lookup _ _ table_sorted) as Hs.
destruct (Z.ltb_spec (loc d) target) as [Hlt|Hge].
{ apply IH; try lia; [|done].
  intros i di Hi Hdi.
  destruct (decide (i = Z.to_nat mid)) as [->|Hne].
  - assert (di = d) as -> by congruence. done.
  - pose proof (Hs i (Z.to_nat mid) di d ltac:(lia) Hdi Hmd). cbn in *. lia. }
destruct (Z.gtb_spec (loc d) target) as [Hgt|Hng].
{ apply IH; try lia; [done|].
  intros i di Hi Hdi.
  destruct (decide (i = Z.to_nat mid)) as [->|Hne].
  - assert (di = d) as -> by congruence. done.
  - pose proof (Hs (Z.to_nat mid) i d di ltac:(lia) Hmd Hdi). cbn in *. lia. }
exists (CodeCache.Hit d). split; [done|]. split; [|lia].
apply list_elem_of_lookup. eauto.
Qed.

End FrameDescs.

Section DwarfLookup.

Import CodeCacheSpec.

(** X1. [findFrameDesc(pc)] on a table ordered by [loc] returns the
    descriptor with the greatest [loc] that does not exceed the offset of
    [pc] from the text base (the descriptor at that offset when there is
    one), and NULL exactly when every descriptor lies above that offset,
    which includes the empty table. *)
Theorem findFrameDesc_greatest_below (c : CodeCache.t) (pc : Z) :
  dwarf_consistent c -> CodeCache._dwarf_table_length c < 2 ^ 31 ->
  StronglySorted (fun a b => loc a <= loc b)
                 (default [] (CodeCache._dwarf_table c)) ->
  exists r,
    CodeCache.findFrameDesc c pc = Ret r
    /\ match r with
       | Some d =>
           d ∈ default [] (CodeCache._dwarf_table c)
           /\ loc d <= u32 (pc - CodeCache._text_base c)
           /\ (forall d', d' ∈ default [] (CodeCache._dwarf_table c) ->
                          loc d' <= u32 (pc - CodeCache._text_base c) ->
                          loc d' <= loc d)
       | None =>
           forall d', d' ∈ default [] (CodeCache._dwarf_table c) ->
                      u32 (pc - CodeCache._text_base c) < loc d'
       end.
Proof.
intros Hc Hlen Hs. unfold dwarf_consistent in Hc.
set (table := default [] (CodeCache._dwarf_table c)) in *.
set (target := u32 (pc - CodeCache._text_base c)).
unfold CodeCache.findFrameDesc. fold table. fold target.
assert (Z.of_nat (length table) < 2 ^ 31) as Hlen' by (rewrite <- Hc; exact Hlen).
destruct (findFrameDesc_loop_settles table target Hlen' Hs
            (S (Z.to_nat (CodeCache._dwarf_table_length c)))
            0 (CodeCache._dwarf_table_length c - 1))
  as (e & -> & He); try lia.
{ intros i d Hi Hd. apply lookup_lt_Some in Hd. lia. }
cbn [mbind outcome_bind obind].
pose proof (strongly_sorted_lookup _ _ Hs) as Hsl.
destruct e as [d|low].
- destruct He as [Hin Hloc]. exists (Some d). split; [done|].
  split_and!; [done|lia|]. intros d' _ Hd'. lia.
- destruct He as (Hlow & Hbelow & Habove).
  destruct (Z.ltb_spec 0 low) as [Hpos|Hz].
  + destruct (aread_in_range table (low - 1)) as [d Hd]; [lia|].
    rewrite Hd. cbn [mbind outcome_bind obind].
    assert (table !! Z.to_nat (low - 1) = Some d) as Hmd.
    { unfold aread in Hd. destruct (low - 1 <? 0); [done|].
      destruct (table !! Z.to_nat (low - 1)); congruence. }
    exists (Some d). split; [done|]. split_and!.
    * apply list_elem_of_lookup. eauto.
    * pose proof (Hbelow (Z.to_nat (low - 1)) d ltac:(lia) Hmd). lia.
    * intros d' [i Hi]%list_elem_of_lookup Hd'.
      destruct (decide (Z.of_nat i < low - 1)) as [Hlt|Hge].
      -- apply (Hsl i (Z.to_nat (low - 1)) d' d); [lia|done..].
      -- destruct (decide (Z.of_nat i = low - 1)) as [Heq|Hne].
         ++ replace (Z.to_nat (low - 1)) with i in Hmd by lia.
            assert (d' = d) as -> by congruence. lia.
         ++ pose proof (Habove i d' ltac:(lia) Hi). lia.
  + exists None. split; [done|].
    intros d' [i Hi]%list_elem_of_lookup. apply (Habove i); [lia|done].
Qed.

Lemma findFrameDesc_greatest_below_witness :
  exists r,
    CodeCache.findFrameDesc
      (CodeCache.setDwarfTable
         (Some [mkFrameDesc 0 1; mkFrameDesc 16 2; mkFrameDesc 48 3]) 3
         (CodeCache.make "libdemo.so" 0 0x1000 0x2000)) 0x20 = Ret r
    /\ match r with
       | Some d =>
           d ∈ [mkFrameDesc 0 1; mkFrameDesc 16 2; mkFrameDesc 48 3]
           /\ loc d <= 0x20
           /\ (forall d', d' ∈ [mkFrameDesc 0 1; mkFrameDesc 16 2; mkFrameDesc 48 3] ->
                          loc d' <= 0x20 -> loc d' <= loc d)
       | None =>
           forall d', d' ∈ [mkFrameDesc 0 1; mkFrameDesc 16 2; mkFrameDesc 48 3] ->
                      0x20 < loc d'
       end.
Proof.
apply (findFrameDesc_greatest_below
         (CodeCache.setDwarfTable
            (Some [mkFrameDesc 0 1; mkFrameDesc 16 2; mkFrameDesc 48 3]) 3
            (CodeCache.make "libdemo.so" 0 0x1000 0x2000)) 0x20).
- reflexivity.
- cbn. lia.
- cbn. repeat constructor; cbn; lia.
Defined.

End DwarfLookup.

Section SymbolTable.

Import CodeCacheSpec Scenario.

(** X2. On a table of well-formed blobs that do not overlap, the linear
    [find] and [binarySearch] agree: when [find] returns a blob, it is a
    blob in use that covers the address and [binarySearch] returns its
    name; when [find] returns NULL, no blob in use covers the address. *)
Theorem find_agrees_with_binarySearch (c : CodeCache.t) (address : Z) :
  shaped c ->
  well_formed (CodeCache.live c) -> non_overlapping (CodeCache.live c) ->
  match CodeCache.find c address with
  | Some b =>
      b ∈ CodeCache.live c
      /\ CodeBlob._start b <= address < CodeBlob._end b
      /\ CodeCache.binarySearch c address = Ret (CodeBlob._name b)
  | None =>
      forall b, b ∈ CodeCache.live c ->
                ~ (CodeBlob._start b <= address < CodeBlob._end b)
  end.
Proof.
intros Hs Hwf Hno. unfold CodeCache.find.
destruct (List.find _ _) as [b|] eqn:Hf.
- pose proof Hf as Hf'. apply find_some in Hf' as [Hin Hc].
  apply andb_true_iff in Hc as [H1%Z.leb_le H2%Z.ltb_lt].
  split_and!; [by apply list_elem_of_In|done|done|].
  rewrite binarySearch_is_lookup by done. unfold lookup, covers.
  by rewrite Hf.
- intros b Hb%list_elem_of_In [H1 H2].
  pose proof (find_none _ _ Hf b Hb) as Hc. cbn in Hc.
  apply andb_false_iff in Hc as [Hc%Z.leb_gt|Hc%Z.ltb_ge]; lia.
Qed.

Lemma find_agrees_with_binarySearch_witness :
  match CodeCache.find (S1_cache "libdemo.so" 0) 0x1180 with
  | Some b =>
      b ∈ CodeCache.live (S1_cache "libdemo.so" 0)
      /\ CodeBlob._start b <= 0x1180 < CodeBlob._end b
      /\ CodeCache.binarySearch (S1_cache "libdemo.so" 0) 0x1180
         = Ret (CodeBlob._name b)
  | None =>
      forall b, b ∈ CodeCache.live (S1_cache "libdemo.so" 0) ->
                ~ (CodeBlob._start b <= 0x1180 < CodeBlob._end b)
  end.
Proof.
destruct (S1_ready "libdemo.so" 0) as (H1 & _ & _ & H4 & H5).
exact (find_agrees_with_binarySearch _ 0x1180 H1 H4 H5).
Defined.




(** X4. [add] with [update_bounds] widens the bounds of the cache just
    enough to take in the new blob: every address of the blob is then
    [contains]ed, and so is every address that was before. Without
    [update_bounds] the bounds stay as they are. *)
Theorem add_update_bounds (start length_ : Z) name update_bounds
        (c c' : CodeCache.t) :
  CodeCache.add start length_ name update_bounds c = Ret c' ->
  (update_bounds = true ->
     CodeCache._min_address c' = Z.min start (CodeCache._min_address c)
     /\ CodeCache._max_address c'
        = Z.max (u64 (start + length_)) (CodeCache._max_address c)
     /\ (forall address, start <= address < u64 (start + length_) ->
                         CodeCache.contains c' address = true)
     /\ (forall address, CodeCache.contains c address = true ->
                         CodeCache.contains c' address = true))
  /\ (update_bounds = false ->
     CodeCache._min_address c' = CodeCache._min_address c
     /\ CodeCache._max_address c' = CodeCache._max_address c).
Proof.
unfold CodeCache.add.
set (c1 := if _ >=? _ then _ else c).
assert (CodeCache._min_address c1 = CodeCache._min_address c
        /\ CodeCache._max_address c1 = CodeCache._max_address c) as [Hmn Hmx]
  by (subst c1; by destruct (_ >=? _)).
destruct (_ || _); [done|]. intros [= <-]. split.
- intros ->. unfold CodeCache.updateBounds, CodeCache.contains. cbn.
  rewrite Hmn, Hmx.
  destruct (Z.ltb_spec start (CodeCache._min_address c));
    destruct (Z.gtb_spec (u64 (start + length_)) (CodeCache._max_address c));
    (split_and!; [lia|lia| |]); intros address;
    rewrite ?andb_true_iff, ?Z.leb_le, ?Z.ltb_lt; lia.
- intros ->. cbn. done.
Qed.

Lemma add_update_bounds_witness :
  exists c',
    CodeCache.add 0x1000 0x100 "foo" true
      (CodeCache.make "libdemo.so" 0 CodeCache.NO_MIN_ADDRESS
                      CodeCache.NO_MAX_ADDRESS) = Ret c'
    /\ CodeCache._min_address c' = 0x1000
    /\ CodeCache._max_address c' = 0x1100
    /\ CodeCache.contains c' 0x10ff = true.
Proof.
eexists. split; [vm_compute; reflexivity|].
match goal with
| |- context [CodeCache._min_address ?c'] =>
    destruct (add_update_bounds 0x1000 0x100 "foo" true
                (CodeCache.make "libdemo.so" 0 CodeCache.NO_MIN_ADDRESS
                                CodeCache.NO_MAX_ADDRESS) c')
      as [H _]; [vm_compute; reflexivity|];
    destruct (H eq_refl) as (H1 & H2 & H3 & _)
end.
split_and!; [exact H1|exact H2|apply H3; vm_compute; split; [discriminate|reflexivity]].
Defined.

(** X5. [CodeBlob::comparator] is an ordering [qsort] can work with: it
    answers -1, 0 or 1, swapping the arguments negates the answer, "not
    after" is transitive, and 0 is answered exactly for blobs with the
    same start and the same end. *)
Theorem comparator_consistent (a b c : CodeBlob.t) :
  (CodeBlob.comparator a b = -1 \/ CodeBlob.comparator a b = 0
   \/ CodeBlob.comparator a b = 1)
  /\ CodeBlob.comparator a b = - CodeBlob.comparator b a
  /\ (CodeBlob.comparator a b <= 0 -> CodeBlob.comparator b c <= 0 ->
      CodeBlob.comparator a c <= 0)
  /\ (CodeBlob.comparator a b = 0 <->
      CodeBlob._start a = CodeBlob._start b /\ CodeBlob._end a = CodeBlob._end b).
Proof.
split_and!.
- unfold CodeBlob.comparator. repeat destruct (_ <? _)%Z; repeat destruct (_ >? _)%Z;
    repeat destruct (_ =? _)%Z; lia.
- unfold CodeBlob.comparator.
  destruct (Z.ltb_spec (CodeBlob._start a) (CodeBlob._start b));
    destruct (Z.ltb_spec (CodeBlob._start b) (CodeBlob._start a));
    destruct (Z.gtb_spec (CodeBlob._start a) (CodeBlob._start b));
    destruct (Z.gtb_spec (CodeBlob._start b) (CodeBlob._start a));
    destruct (Z.eqb_spec (CodeBlob._end a) (CodeBlob._end b));
    destruct (Z.eqb_spec (CodeBlob._end b) (CodeBlob._end a));
    destruct (Z.gtb_spec (CodeBlob._end a) (CodeBlob._end b));
    destruct (Z.gtb_spec (CodeBlob._end b) (CodeBlob._end a)); lia.
- apply le_blob_trans.
- unfold CodeBlob.comparator.
  destruct (Z.ltb_spec (CodeBlob._start a) (CodeBlob._start b));
    destruct (Z.gtb_spec (CodeBlob._start a) (CodeBlob._start b));
    destruct (Z.eqb_spec (CodeBlob._end a) (CodeBlob._end b));
    destruct (Z.gtb_spec (CodeBlob._end a) (CodeBlob._end b)); lia.
Qed.

Lemma comparator_consistent_witness :
  CodeBlob.comparator (foo 0) (bar 0) <= 0
  /\ CodeBlob.comparator (bar 0) (bar 1) <= 0
  /\ CodeBlob.comparator (foo 0) (bar 1) <= 0.
Proof.
assert (CodeBlob.comparator (foo 0) (bar 0) <= 0) as H1 by (vm_compute; discriminate).
assert (CodeBlob.comparator (bar 0) (bar 1) <= 0) as H2 by (vm_compute; discriminate).
destruct (comparator_consistent (foo 0) (bar 0) (bar 1)) as (_ & _ & H & _).
split; [exact H1|]. split; [exact H2|exact (H H1 H2)].
Defined.

End SymbolTable.

Section CacheBounds.

Import CodeCacheSpec Scenario.

(** X6. When a cache was made without bounds, [sort] takes them from the
    blobs: over well-formed blobs that, once sorted, do not overlap, every
    address a blob covers is then [contains]ed by the cache. *)
Theorem sort_bounds_cover (c : CodeCache.t) (address : Z) (b : CodeBlob.t) :
  shaped c ->
  CodeCache._min_address c = CodeCache.NO_MIN_ADDRESS ->
  CodeCache._max_address c = CodeCache.NO_MAX_ADDRESS ->
  well_formed (CodeCache.live c) ->
  non_overlapping (CodeCache.live (CodeCache.sort c)) ->
  b ∈ CodeCache.live c -> covers b address = true ->
  CodeCache.contains (CodeCache.sort c) address = true.
Proof.
intros Hs Hmn Hmx Hwf Hno Hb Hc.
pose proof (sort_sorted c Hs) as Hsorted.
pose proof (sort_shaped c Hs) as [Hr' Hf'].
rewrite live_sort in Hno, Hsorted by done.
assert (b ∈ CodeCache.qsort (CodeCache.live c)) as Hbq by (by rewrite qsort_perm).
apply list_elem_of_lookup in Hbq as [i Hi].
assert (well_formed (CodeCache.qsort (CodeCache.live c))) as Hwfq
  by (unfold well_formed; by rewrite qsort_perm).
assert (length (CodeCache.qsort (CodeCache.live c))
        = Z.to_nat (CodeCache._count c)) as Hlen.
{ rewrite (Permutation_length (qsort_perm _)). unfold CodeCache.live.
  destruct Hs as [Hr Hf]. rewrite length_take. lia. }
pose proof (lookup_lt_Some _ _ _ Hi) as Hilt. rewrite Hlen in Hilt.
destruct Hs as [Hr Hf].
unfold CodeCache.sort.
destruct (Z.eqb_spec (CodeCache._count c) 0) as [H0|H0]; [lia|].
unfold CodeCache.contains. cbn.
rewrite Hmn, Hmx. cbn [Z.eqb]. change (CodeCache.NO_MIN_ADDRESS =? _) with true.
change (CodeCache.NO_MAX_ADDRESS =? _) with true. cbn match.
fold (CodeCache.live c).
assert (0 < Z.to_nat (CodeCache._count c))%nat as Hpos by lia.
rewrite (lookup_app_l _ _ 0%nat) by (rewrite Hlen; exact Hpos).
rewrite lookup_app_l by (rewrite Hlen; lia).
destruct (lookup_lt_is_Some_2 (CodeCache.qsort (CodeCache.live c)) 0)
  as [first Hfirst]; [rewrite Hlen; lia|].
destruct (lookup_lt_is_Some_2 (CodeCache.qsort (CodeCache.live c))
            (Z.to_nat (CodeCache._count c - 1)))
  as [last_ Hlast]; [rewrite Hlen; lia|].
rewrite Hfirst, Hlast. cbn [default id].
apply andb_true_iff in Hc as [H1%Z.leb_le H2%Z.ltb_lt].
apply andb_true_iff. split; [apply Z.leb_le|apply Z.ltb_lt].
- destruct i as [|i]; [assert (first = b) as -> by congruence; done|].
  pose proof (strongly_sorted_lookup _ _ Hsorted 0%nat (S i) first b
                ltac:(lia) Hfirst Hi) as Hle.
  apply comparator_le in Hle. lia.
- destruct (decide (i = Z.to_nat (CodeCache._count c - 1))) as [->|Hne].
  + assert (last_ = b) as -> by congruence. done.
  + pose proof (strongly_sorted_lookup _ _ Hno i
                  (Z.to_nat (CodeCache._count c - 1)) b last_
                  ltac:(lia) Hi Hlast) as Hle.
    pose proof (Forall_lookup_1 _ _ _ _ Hwfq Hlast). cbn in *. lia.
Qed.

Lemma sort_bounds_cover_witness :
  CodeCache.contains
    (CodeCache.sort
       (CodeCache.set_blobs
          (CodeCache.make "libdemo.so" 0 CodeCache.NO_MIN_ADDRESS
                          CodeCache.NO_MAX_ADDRESS)
          1000 2 (bar 0 :: foo 0 :: replicate 998 CodeBlob.uninit)))
    0x10ff = true.
Proof.
apply (sort_bounds_cover _ 0x10ff (foo 0)).
- unfold shaped. cbn. lia.
- reflexivity.
- reflexivity.
- change (CodeCache.live _) with [bar 0; foo 0].
  repeat constructor; by vm_compute.
- change (CodeCache.live _) with [foo 0; bar 0].
  repeat constructor; by vm_compute.
- change (CodeCache.live _) with [bar 0; foo 0].
  apply list_elem_of_In. cbn. auto.
- reflexivity.
Defined.

End CacheBounds.

Section GlobalOffsetTable.

Import CodeCacheSpec Scenario.

(** Masking with the complement of [2^k - 1] in 64 bits rounds down to a
    multiple of [2^k]. *)
Lemma land_page_mask (x k : Z) :
  0 <= k -> 0 <= x < 2 ^ 64 ->
  Z.land x (u64 (Z.lnot (2 ^ k - 1))) = 2 ^ k * (x / 2 ^ k).
Proof.
intros Hk Hx. unfold u64.
rewrite <- (Z.land_ones _ 64) by lia.
replace (2 ^ k - 1) with (Z.ones k) by (rewrite Z.ones_equiv; lia).
rewrite (Z.land_comm (Z.lnot _)), Z.land_assoc, (Z.land_ones x 64) by lia.
rewrite (Z.mod_small x) by lia.
rewrite <- Z.ldiff_land, Z.ldiff_ones_r by lia.
rewrite Z.shiftl_mul_pow2, Z.shiftr_div_pow2 by lia. lia.
Qed.

(** X7. [makeGotPatchable] asks [mprotect] for a range of whole pages
    that takes in the whole table: it starts at the page of [_got_start],
    less than a page before it, and ends at the first page boundary at or
    after [_got_end]. The cache is then marked patchable, and a second
    call leaves the protection alone. *)
Theorem makeGotPatchable_whole_pages (k : Z) (c : CodeCache.t) :
  0 <= k < 64 ->
  0 <= CodeCache._got_start c <= CodeCache._got_end c ->
  CodeCache._got_end c + 2 ^ k <= 2 ^ 64 ->
  CodeCache._got_patchable c = false ->
  exists addr size,
    snd (CodeCache.makeGotPatchable (2 ^ k - 1) c) = Some (addr, size)
    /\ addr mod 2 ^ k = 0 /\ size mod 2 ^ k = 0
    /\ addr <= CodeCache._got_start c < addr + 2 ^ k
    /\ CodeCache._got_end c <= addr + size < CodeCache._got_end c + 2 ^ k
    /\ CodeCache._got_patchable
         (fst (CodeCache.makeGotPatchable (2 ^ k - 1) c)) = true
    /\ snd (CodeCache.makeGotPatchable (2 ^ k - 1)
              (fst (CodeCache.makeGotPatchable (2 ^ k - 1) c))) = None.
Proof.
intros Hk Hg He Hp. unfold CodeCache.makeGotPatchable at 1 2 4. rewrite Hp.
cbn [negb fst snd CodeCache._got_patchable CodeCache.set_got].
assert (0 < 2 ^ k) as Hpow by (apply Z.pow_pos_nonneg; lia).
assert (2 ^ 64 = 18446744073709551616) as H64 by reflexivity.
rewrite land_page_mask by lia.
set (gs := CodeCache._got_start c) in *. set (ge := CodeCache._got_end c) in *.
pose proof (Z.mod_pos_bound gs (2 ^ k) Hpow) as Hm.
pose proof (Z.div_mod gs (2 ^ k) ltac:(lia)) as Hd.
pose proof (Z.mod_le gs (2 ^ k) ltac:(lia) Hpow) as Hml.
set (addr := 2 ^ k * (gs / 2 ^ k)) in *.
assert (u64 (ge - addr + (2 ^ k - 1)) = ge - addr + (2 ^ k - 1)) as ->
  by (unfold u64; apply Z.mod_small; lia).
rewrite land_page_mask by lia.
set (n := ge - addr + (2 ^ k - 1)).
pose proof (Z.mod_pos_bound n (2 ^ k) Hpow) as Hm2.
pose proof (Z.div_mod n (2 ^ k) ltac:(lia)) as Hd2.
exists addr, (2 ^ k * (n / 2 ^ k)). split_and!; try done; try lia.
- subst addr. rewrite Z.mul_comm. apply Z.mod_mul. lia.
- rewrite Z.mul_comm. apply Z.mod_mul. lia.
Qed.

Lemma makeGotPatchable_whole_pages_witness :
  exists addr size,
    snd (CodeCache.makeGotPatchable (2 ^ 12 - 1)
           (CodeCache.setGlobalOffsetTable 0x7f0000001ff8 0x7f0000002010 false
              (CodeCache.make "libdemo.so" 0 0 0)))
    = Some (addr, size)
    /\ addr mod 2 ^ 12 = 0 /\ size mod 2 ^ 12 = 0
    /\ addr <= 0x7f0000001ff8 < addr + 2 ^ 12
    /\ 0x7f0000002010 <= addr + size < 0x7f0000002010 + 2 ^ 12
    /\ CodeCache._got_patchable
         (fst (CodeCache.makeGotPatchable (2 ^ 12 - 1)
                 (CodeCache.setGlobalOffsetTable 0x7f0000001ff8 0x7f0000002010 false
                    (CodeCache.make "libdemo.so" 0 0 0)))) = true
    /\ snd (CodeCache.makeGotPatchable (2 ^ 12 - 1)
              (fst (CodeCache.makeGotPatchable (2 ^ 12 - 1)
                      (CodeCache.setGlobalOffsetTable 0x7f0000001ff8 0x7f0000002010
                         false (CodeCache.make "libdemo.so" 0 0 0))))) = None.
Proof.
apply (makeGotPatchable_whole_pages 12
         (CodeCache.setGlobalOffsetTable 0x7f0000001ff8 0x7f0000002010 false
            (CodeCache.make "libdemo.so" 0 0 0))).
- lia.
- cbn. lia.
- cbn. lia.
- reflexivity.
Defined.

(** The scan of the table stops at the first entry that holds [address]. *)
Lemma got_scan_first (mem : Z -> Z) (address got_end : Z) (fuel : nat) :
  forall entry,
  (got_end - entry + 7) / 8 <= Z.of_nat fuel ->
  exists found,
    CodeCache.got_scan mem fuel entry got_end address = Ret found
    /\ match found with
       | None => forall j, 0 <= j -> entry + 8 * j < got_end ->
                           mem (entry + 8 * j) <> address
       | Some e => exists j, 0 <= j /\ e = entry + 8 * j /\ e < got_end
                      /\ mem e = address
                      /\ forall j', 0 <= j' < j ->
                                    mem (entry + 8 * j') <> address
       end.
Proof.
induction fuel as [|fuel IH]; intros entry Hfuel.
- cbn. destruct (Z.ltb_spec entry got_end) as [Hlt|Hge].
  + assert (1 <= (got_end - entry + 7) / 8)
      by (apply Z.div_le_lower_bound; lia). lia.
  + exists None. split; [done|]. intros j Hj Hlt. lia.
- cbn [CodeCache.got_scan].
  destruct (Z.ltb_spec entry got_end) as [Hlt|Hge].
  2: { exists None. split; [done|]. intros j Hj Hlt. lia. }
  destruct (Z.eqb_spec (mem entry) address) as [Heq|Hne].
  + exists (Some entry). split; [done|]. exists 0.
    split_and!; try lia; done.
  + destruct (IH (entry + 8)) as (found & -> & He).
    { replace (got_end - (entry + 8) + 7) with (got_end - entry + 7 + (-1) * 8)
        by lia.
      rewrite Z.div_add by lia. lia. }
    exists found. split; [done|].
    destruct found as [e|].
    * destruct He as (j & Hj & -> & Hin & Hmem & Hfirst).
      exists (j + 1). split_and!; try lia.
      intros j' Hj'. destruct (decide (j' = 0)) as [->|Hnz].
      -- by rewrite Z.mul_0_r, Z.add_0_r.
      -- replace (entry + 8 * j') with (entry + 8 + 8 * (j' - 1)) by lia.
         apply Hfirst; lia.
    * intros j Hj Hlt'.
      destruct (decide (j = 0)) as [->|Hnz].
      -- by rewrite Z.mul_0_r, Z.add_0_r.
      -- replace (entry + 8 * j) with (entry + 8 + 8 * (j - 1)) by lia.
         apply He; lia.
Qed.

(** X8. [findGlobalOffsetEntry(address)] returns the first entry of the
    table that holds [address] and leaves the cache marked patchable; when
    no entry of the table holds [address] it returns NULL and leaves the
    cache as it is. *)
Theorem findGlobalOffsetEntry_first (page_mask : Z) (mem : Z -> Z)
        (address : Z) (c : CodeCache.t) :
  0 < CodeCache._got_start c ->
  exists c' e,
    CodeCache.findGlobalOffsetEntry page_mask mem address c = Ret (c', e)
    /\ ((e = 0 /\ c' = c
         /\ forall j, 0 <= j ->
              CodeCache._got_start c + 8 * j < CodeCache._got_end c ->
              mem (CodeCache._got_start c + 8 * j) <> address)
        \/ (exists j, 0 <= j /\ e = CodeCache._got_start c + 8 * j
              /\ e < CodeCache._got_end c /\ mem e = address
              /\ (forall j', 0 <= j' < j ->
                    mem (CodeCache._got_start c + 8 * j') <> address)
              /\ CodeCache._got_patchable c' = true
              /\ CodeCache._got_start c' = CodeCache._got_start c
              /\ CodeCache._got_end c' = CodeCache._got_end c
              /\ CodeCache.live c' = CodeCache.live c)).
Proof.
intros Hpos. unfold CodeCache.findGlobalOffsetEntry.
destruct (got_scan_first mem address (CodeCache._got_end c)
            (Z.to_nat ((CodeCache._got_end c - CodeCache._got_start c + 7) / 8))
            (CodeCache._got_start c)) as (found & -> & He); [lia|].
cbn [mbind outcome_bind obind].
destruct found as [e|].
- destruct He as (j & Hj & -> & Hin & Hmem & Hfirst).
  eexists _, _. split; [reflexivity|]. right. exists j.
  split_and!; try done;
    unfold CodeCache.makeGotPatchable;
    by destruct (CodeCache._got_patchable c) eqn:Hp.
- exists c, 0. split; [done|]. left. done.
Qed.

Lemma findGlobalOffsetEntry_first_witness :
  exists c' e,
    CodeCache.findGlobalOffsetEntry 4095
      (fun a => if a =? 0x2010 then 0x7777 else 0) 0x7777
      (CodeCache.setGlobalOffsetTable 0x2000 0x2020 false
         (CodeCache.make "libdemo.so" 0 0 0)) = Ret (c', e)
    /\ e = 0x2010 /\ CodeCache._got_patchable c' = true.
Proof.
destruct (findGlobalOffsetEntry_first 4095
            (fun a => if a =? 0x2010 then 0x7777 else 0) 0x7777
            (CodeCache.setGlobalOffsetTable 0x2000 0x2020 false
               (CodeCache.make "libdemo.so" 0 0 0)))
  as (c' & e & Hr & _); [cbn; lia|].
exists c', e. split; [exact Hr|].
vm_compute in Hr. injection Hr as <- <-. split; reflexivity.
Defined.

End GlobalOffsetTable.

Section NativeLibraries.

Import CodeCacheArray.

Lemma add_all_extends (libs : list (option CodeCache.t)) : forall a,
  0 <= _count a <= Z.of_nat (length (_libs a)) ->
  (_count a + Z.of_nat (length libs) <= Z.of_nat (length (_libs a)) ->
     exists a', add_all libs a = Ret a'
       /\ _count a' = _count a + Z.of_nat (length libs)
       /\ length (_libs a') = length (_libs a)
       /\ take (Z.to_nat (_count a')) (_libs a')
          = take (Z.to_nat (_count a)) (_libs a) ++ libs)
  /\ (Z.of_nat (length (_libs a)) < _count a + Z.of_nat (length libs) ->
      add_all libs a = Undefined).
Proof.
induction libs as [|lib libs IH]; intros a Hc.
- split.
  + intros _. exists a. cbn. split_and!; [done|lia|done|by rewrite app_nil_r].
  + cbn [length]. lia.
- cbn [add_all length]. unfold add.
  destruct (decide (_count a < Z.of_nat (length (_libs a)))) as [Hlt|Hge].
  + rewrite awrite_in_range by lia. cbn [mbind outcome_bind obind].
    set (a1 := {| _libs := _; _count := _ |}).
    destruct (IH a1) as [IH1 IH2].
    { subst a1. cbn. rewrite length_insert. lia. }
    subst a1. cbn [_count _libs] in *. rewrite length_insert in *. split.
    * intros Hfit. destruct IH1 as (a' & -> & Hcnt & Hlen & Htake); [lia|].
      exists a'. split_and!; [done|lia|done|].
      rewrite Htake.
      replace (Z.to_nat (_count a + 1)) with (S (Z.to_nat (_count a))) by lia.
      erewrite take_S_r; [|apply list_lookup_insert_eq; lia].
      rewrite take_insert_ge by lia. by rewrite <- app_assoc.
    * intros Hover. apply IH2. lia.
  + split; [lia|]. intros _. unfold awrite.
    destruct (Z.ltb_spec (_count a) 0); [done|].
    destruct (Z.leb_spec (Z.of_nat (length (_libs a))) (_count a)); [done|lia].
Qed.

(** X9. The array of native libraries is append-only: after the
    libraries [libs] have been added to the empty array, [count()] is
    their number and [operator[]] returns the i-th of them at index i, as
    long as there are at most [MAX_NATIVE_LIBS] of them; one library more
    is stored past the end of the array. *)
Theorem add_all_indexes (libs : list (option CodeCache.t)) :
  (Z.of_nat (length libs) <= MAX_NATIVE_LIBS ->
     exists a, add_all libs make = Ret a
       /\ count a = Z.of_nat (length libs)
       /\ forall (i : nat) lib, libs !! i = Some lib ->
                                get a (Z.of_nat i) = Ret lib)
  /\ (MAX_NATIVE_LIBS < Z.of_nat (length libs) ->
      add_all libs make = Undefined).
Proof.
destruct (add_all_extends libs make) as [H1 H2].
{ cbn. rewrite length_replicate. unfold MAX_NATIVE_LIBS. lia. }
cbn [_count _libs make] in *. rewrite length_replicate, Z2Nat.id in *
  by (unfold MAX_NATIVE_LIBS; lia).
split; [|intros H; apply H2; lia].
intros Hfit. destruct H1 as (a & Ha & Hcnt & Hlen & Htake); [lia|].
exists a. split_and!; [done|unfold count; lia|].
intros i lib Hi. unfold get, aread.
destruct (Z.ltb_spec (Z.of_nat i) 0); [lia|]. rewrite Nat2Z.id.
assert (take (Z.to_nat (_count a)) (_libs a) !! i = Some lib) as Ht
  by (rewrite Htake; cbn; done).
apply lookup_take_Some in Ht as [-> _]. done.
Qed.

Lemma add_all_indexes_witness :
  exists a,
    add_all [Some (Scenario.S1_cache "libdemo.so" 0); None] make = Ret a
    /\ count a = 2
    /\ get a 0 = Ret (Some (Scenario.S1_cache "libdemo.so" 0)).
Proof.
destruct (add_all_indexes [Some (Scenario.S1_cache "libdemo.so" 0); None])
  as [H _].
destruct H as (a & Ha & Hc & Hg); [cbn; unfold MAX_NATIVE_LIBS; lia|].
exists a. split; [exact Ha|]. split; [exact Hc|].
exact (Hg 0%nat _ eq_refl).
Defined.

End NativeLibraries.

Section SymbolsByPrefix.

Import CodeCacheSpec Scenario.

Lemma aread_lookup {A} (a : list A) (i : Z) (x : A) :
  0 <= i -> a !! Z.to_nat i = Some x -> aread a i = Ret x.
Proof.
intros Hi Hx. unfold aread. destruct (Z.ltb_spec i 0); [lia|]. by rewrite Hx.
Qed.

Lemma scan_blobs_single (blobs : list CodeBlob.t) (p : string) (b0 : CodeBlob.t) :
  blobs !! 0%nat = Some b0 ->
  forall todo symbols,
    CodeCache.scan_blobs blobs [p] todo symbols
    = Ret (symbols
           ++ replicate (length (List.filter (CodeCache.name_starts p) todo))
                        (CodeBlob._start b0)).
Proof.
intros H0. induction todo as [|b todo IH]; intros symbols.
- cbn. by rewrite app_nil_r.
- cbn [CodeCache.scan_blobs List.filter]. unfold CodeCache.name_starts at 1.
  destruct (CodeBlob._name b) as [f|]; [|apply IH].
  cbn [CodeCache.push_matches].
  destruct (String.prefix p (NativeFunc._name f)).
  + rewrite (aread_lookup blobs 0 b0) by done.
    cbn [mbind outcome_bind obind CodeCache.push_matches].
    rewrite IH. cbn [length replicate]. by rewrite <- app_assoc.
  + cbn [mbind outcome_bind obind]. apply IH.
Qed.

(** X10. Called with a single prefix, [findSymbolsByPrefix] appends one
    address for every blob in use whose name starts with the prefix, and
    each of these addresses is the start of the first slot of the blob
    array, whichever blob matched: the inner loop's counter hides the
    outer one. *)
Theorem findSymbolsByPrefix_single (c : CodeCache.t) (p : string)
        (symbols : list Z) (b0 : CodeBlob.t) :
  CodeCache._blobs c !! 0%nat = Some b0 ->
  CodeCache.findSymbolsByPrefix c [p] symbols
  = Ret (symbols
         ++ replicate
              (length (List.filter (CodeCache.name_starts p) (CodeCache.live c)))
              (CodeBlob._start b0)).
Proof.
intros H0. unfold CodeCache.findSymbolsByPrefix.
by apply scan_blobs_single.
Qed.

Lemma findSymbolsByPrefix_single_witness :
  CodeCache.findSymbolsByPrefix (S1_cache "libdemo.so" 0) ["ba"%string] []
  = Ret [0x1000].
Proof.
exact (findSymbolsByPrefix_single (S1_cache "libdemo.so" 0) "ba" [] (foo 0)
         eq_refl).
Defined.

End SymbolsByPrefix.

(** ** Context table: allocation of pages *)

Section ContextPages.

Import Contexts.

Variable shift : Z.
Hypothesis shift_pos : 0 <= shift.

(** X11. [getPage(tid)] on a thread id of the table's range returns the
    storage of the page of [tid] and leaves the table well formed. If the
    page was not allocated before, it is a page of zeroed records, and
    [get(tid)] afterwards returns the slot of [tid] in it, which holds the
    all-zero record, rather than the shared empty record. If the page was
    allocated, the table is left exactly as it was. *)
Theorem getPage_then_get (st : t) (tid : Z) :
  wf shift st -> 0 <= tid -> Z.shiftr tid shift < _max_pages st ->
  exists st' page,
    getPage shift st tid = Ret (st', Some page)
    /\ wf shift st'
    /\ _pages st' !! Z.to_nat (Z.shiftr tid shift) = Some (Some page)
    /\ (_pages st !! Z.to_nat (Z.shiftr tid shift) = Some None ->
        page = replicate (Z.to_nat (DD_CONTEXT_PAGE_SIZE shift)) DD_EMPTY_CONTEXT
        /\ get shift st' tid
           = Ret (SlotRef (Z.shiftr tid shift)
                          (Z.land tid (DD_CONTEXT_PAGE_MASK shift)))
        /\ deref st' (SlotRef (Z.shiftr tid shift)
                              (Z.land tid (DD_CONTEXT_PAGE_MASK shift)))
           = Ret DD_EMPTY_CONTEXT)
    /\ (forall p, _pages st !! Z.to_nat (Z.shiftr tid shift) = Some (Some p) ->
                  st' = st /\ page = p).
Proof.
intros Hwf Htid Hpage. pose proof Hwf as (_ & Hlen & Hpages).
assert (0 <= Z.shiftr tid shift) as Hp0 by (by apply Z.shiftr_nonneg).
set (pageIndex := Z.shiftr tid shift) in *.
pose proof (slot_in_range shift shift_pos tid Htid) as Hslot.
set (slot := Z.land tid (DD_CONTEXT_PAGE_MASK shift)) in *.
pose proof (page_size_pos shift shift_pos) as Hps.
unfold getPage. fold pageIndex.
destruct (lookup_lt_is_Some_2 (_pages st) (Z.to_nat pageIndex)) as [pg Hpg];
  [lia|].
unfold initialize. rewrite (aread_lookup _ pageIndex pg) by done.
cbn [mbind outcome_bind obind].
destruct pg as [p|].
- cbn [mbind outcome_bind obind]. rewrite (aread_lookup _ pageIndex (Some p)) by done.
  cbn [mbind outcome_bind obind]. exists st, p.
  split_and!; [done|done|done|congruence|]. intros p' Hp'. split; congruence.
- cbn [mbind outcome_bind obind].
  set (zeroed := replicate _ DD_EMPTY_CONTEXT).
  set (st' := {| _max_pages := _; _pages := _ |}).
  assert (_pages st' !! Z.to_nat pageIndex = Some (Some zeroed)) as Hnew
    by (subst st'; cbn; apply list_lookup_insert_eq; lia).
  rewrite (aread_lookup _ pageIndex (Some zeroed)) by done.
  cbn [mbind outcome_bind obind]. exists st', zeroed.
  assert (zeroed !! Z.to_nat slot = Some DD_EMPTY_CONTEXT) as Hz
    by (subst zeroed; apply lookup_replicate_2; lia).
  split_and!; [done| |done| |congruence].
  + apply (initialize_wf shift shift_pos pageIndex st st' Hwf).
    unfold initialize. rewrite (aread_lookup _ pageIndex None) by done. done.
  + intros _. split_and!; [done| |].
    * unfold get. fold pageIndex. fold slot. subst st'. cbn [_max_pages].
      destruct (Z.ltb_spec pageIndex (_max_pages st)); [|lia]. cbn [negb].
      rewrite (aread_lookup _ pageIndex (Some zeroed)) by done.
      cbn [mbind outcome_bind obind].
      rewrite (aread_lookup _ slot DD_EMPTY_CONTEXT) by (done || lia).
      cbn [mbind outcome_bind obind]. done.
    * unfold deref. rewrite (aread_lookup _ pageIndex (Some zeroed)) by done.
      cbn [mbind outcome_bind obind].
      by rewrite (aread_lookup _ slot DD_EMPTY_CONTEXT) by (done || lia).
Qed.

(** X12. [initialize(pageIndex)] never replaces a page: every page
    allocated before is the same page after; when the page at [pageIndex]
    was allocated the table is left as it was; and [get] answers as
    before for every thread id of another page. *)
Theorem initialize_keeps_pages (pageIndex : Z) (st st' : t) :
  initialize shift pageIndex st = Ret st' ->
  _max_pages st' = _max_pages st
  /\ (forall (q : nat) p, _pages st !! q = Some (Some p) ->
                          _pages st' !! q = Some (Some p))
  /\ (forall p, _pages st !! Z.to_nat pageIndex = Some (Some p) -> st' = st)
  /\ (forall tid, Z.shiftr tid shift <> pageIndex ->
                  get shift st' tid = get shift st tid).
Proof.
unfold initialize. intros H. outcome_step H.
pose proof (aread_Ret _ _ _ E) as Hr.
assert (_pages st !! Z.to_nat pageIndex = Some a) as Ha.
{ unfold aread in E. destruct (pageIndex <? 0); [done|].
  destruct (_pages st !! Z.to_nat pageIndex); congruence. }
destruct a as [p|]; injection H as <-; [split_and!; done|].
cbn [_max_pages _pages]. split_and!; [done| | |].
- intros q p Hq. destruct (decide (q = Z.to_nat pageIndex)) as [->|Hne];
    [congruence|]. by rewrite list_lookup_insert_ne.
- intros p Hp. congruence.
- intros tid Hne.
  unfold get. cbn [_max_pages _pages].
  destruct (negb _); [done|]. unfold aread.
  destruct (Z.ltb_spec (Z.shiftr tid shift) 0); [done|].
  rewrite list_lookup_insert_ne by lia. done.
Qed.

(** X13. [getMaxPages(maxTid)] is the least number of pages that holds
    every thread id below [maxTid]: each such id falls on one of these
    pages, and the greatest of them, [maxTid - 1], on the last. *)
Theorem getMaxPages_least (maxTid : Z) :
  0 <= maxTid < 2 ^ 31 ->
  (forall tid, 0 <= tid < maxTid ->
               0 <= Z.shiftr tid shift < getMaxPages shift maxTid)
  /\ (0 < maxTid ->
      Z.shiftr (maxTid - 1) shift = getMaxPages shift maxTid - 1)
  /\ (maxTid = 0 -> getMaxPages shift maxTid = 0).
Proof.
intros Hm. split_and!.
- intros tid Ht. by apply (page_index_in_range shift shift_pos maxTid).
- intros Hpos. destruct (getMaxPages_ceiling shift shift_pos maxTid Hm) as [-> _].
  unfold DD_CONTEXT_PAGE_SIZE. rewrite Z.shiftr_div_pow2 by lia. lia.
- intros ->. destruct (getMaxPages_ceiling shift shift_pos 0 Hm) as [-> _].
  pose proof (page_size_pos shift shift_pos).
  change (0 - 1) with (-1).
  assert (-1 / DD_CONTEXT_PAGE_SIZE shift = -1); [|lia].
  symmetry. apply (Z.div_unique_pos _ _ _ (DD_CONTEXT_PAGE_SIZE shift - 1)); lia.
Qed.

End ContextPages.

Lemma getPage_then_get_witness :
  exists st' page,
    Contexts.getPage 10 (Contexts.startup 10 4096) 1500 = Ret (st', Some page)
    /\ Contexts.get 10 st' 1500 = Ret (Contexts.SlotRef 1 476)
    /\ Contexts.deref st' (Contexts.SlotRef 1 476) = Ret Contexts.DD_EMPTY_CONTEXT.
Proof.
destruct (getPage_then_get 10 ltac:(lia) (Contexts.startup 10 4096) 1500)
  as (st' & page & H1 & _ & _ & H4 & _).
- apply startup_wf; lia.
- lia.
- vm_compute. reflexivity.
- exists st', page. split; [exact H1|].
  destruct (H4 eq_refl) as (_ & H5 & H6). split; [exact H5|exact H6].
Defined.

Lemma initialize_keeps_pages_witness :
  exists st',
    Contexts.initialize 10 2 (Contexts.startup 10 4096) = Ret st'
    /\ Contexts.get 10 st' 1500 = Contexts.get 10 (Contexts.startup 10 4096) 1500.
Proof.
eexists. split; [vm_compute; reflexivity|].
match goal with
| |- Contexts.get _ ?st' _ = _ =>
    destruct (initialize_keeps_pages 10 2 (Contexts.startup 10 4096) st')
      as (_ & _ & _ & H); [vm_compute; reflexivity|]
end.
apply H. vm_compute. discriminate.
Defined.

Lemma getMaxPages_least_witness :
  Z.shiftr (4096 - 1) 10 = Contexts.getMaxPages 10 4096 - 1.
Proof.
destruct (getMaxPages_least 10 ltac:(lia) 4096 ltac:(lia)) as (_ & H & _).
apply H. lia.
Defined.

(** ** Liveness tracker: what a cleanup keeps and what it releases *)

Section Compaction.

Import LivenessTracker LivenessSpec.

Lemma drop_lookup_cons {A} (l : list A) (i : nat) (x : A) :
  l !! i = Some x -> drop i l = x :: drop (S i) l.
Proof.
revert i. induction l as [|a l IH]; intros [|i] H; try done.
- simpl in H. injection H as ->. done.
- simpl in *. by apply IH.
Qed.

(** The loop of [cleanup_table], turn by turn: the slots below [newsz]
    receive the survivors in their order, the entries from [i] on are
    read as they were, and the references and frames of the dead entries
    are released. *)
Lemma cleanup_loop_compacts collected diff (k : nat) : forall i newsz s,
  0 <= newsz <= i -> i + Z.of_nat k <= Z.of_nat (length (_table s)) ->
  i + Z.of_nat k < 2 ^ 32 ->
  exists s',
    cleanup_loop collected diff k i newsz s
    = Ret (s', newsz + Z.of_nat (length (compacted collected diff (newsz =? i)
                                  (take k (drop (Z.to_nat i) (_table s))))))
    /\ take (Z.to_nat (newsz + Z.of_nat (length (compacted collected diff (newsz =? i)
                                  (take k (drop (Z.to_nat i) (_table s)))))))
            (_table s')
       = take (Z.to_nat newsz) (_table s)
         ++ compacted collected diff (newsz =? i)
                      (take k (drop (Z.to_nat i) (_table s)))
    /\ length (_table s') = length (_table s)
    /\ deleted_refs s'
       = rev (ref <$> dead_of collected (take k (drop (Z.to_nat i) (_table s))))
         ++ deleted_refs s
    /\ freed_frames s'
       = rev (frames <$> dead_of collected (take k (drop (Z.to_nat i) (_table s))))
         ++ freed_frames s
    /\ _gc_epoch s' = _gc_epoch s /\ _last_gc_epoch s' = _last_gc_epoch s
    /\ _table_cap s' = _table_cap s /\ _table_max_cap s' = _table_max_cap s
    /\ _initialized s' = _initialized s
    /\ _record_heap_usage s' = _record_heap_usage s.
Proof.
induction k as [|k IH]; intros i newsz s Hn Hlen Hu.
- exists s. cbn. rewrite Z.add_0_r, app_nil_r. split_and!; done.
- cbn [cleanup_loop].
  destruct (lookup_lt_is_Some_2 (_table s) (Z.to_nat i)) as [e He]; [lia|].
  rewrite (aread_lookup _ i e) by (done || lia).
  cbn [mbind outcome_bind obind].
  rewrite (drop_lookup_cons _ _ _ He). cbn [take compacted].
  unfold dead_of. rewrite filter_cons. fold (dead_of collected).
  assert (alive collected e = negb (IsSameObject_null collected (ref e)))
    as Hal by done.
  destruct (IsSameObject_null collected (ref e)) eqn:Hdead;
    cbn [negb] in Hal |- *; rewrite !Hal.
  + (* the referent is gone *)
    rewrite awrite_in_range by lia. cbn [mbind outcome_bind obind].
    set (s1 := log_release _ _ _).
    destruct (IH (i + 1) newsz s1) as (s' & Hrun & Htake & Hl & Hd & Hf & Hrest).
    { lia. }
    { subst s1. cbn. rewrite length_insert. lia. }
    { lia. }
    assert (drop (Z.to_nat (i + 1)) (_table s1) = drop (S (Z.to_nat i)) (_table s))
      as Hdrop.
    { subst s1. cbn. replace (Z.to_nat (i + 1)) with (S (Z.to_nat i)) by lia.
      apply drop_insert_lt. lia. }
    rewrite Hdrop in *.
    assert ((newsz =? i + 1) = false) as Hflag by (apply Z.eqb_neq; lia).
    rewrite Hflag in *.
    exists s'. rewrite decide_True by done. cbn [fmap list_fmap rev].
    split_and!.
    * exact Hrun.
    * rewrite Htake. subst s1. cbn. by rewrite take_insert_ge by lia.
    * rewrite Hl. subst s1. cbn. apply length_insert.
    * rewrite Hd. subst s1. cbn. by rewrite <- app_assoc.
    * rewrite Hf. subst s1. cbn. by rewrite <- app_assoc.
    * destruct Hrest as (-> & _). done.
    * destruct Hrest as (_ & -> & _). done.
    * destruct Hrest as (_ & _ & -> & _). done.
    * destruct Hrest as (_ & _ & _ & -> & _). done.
    * destruct Hrest as (_ & _ & _ & _ & -> & _). done.
    * destruct Hrest as (_ & _ & _ & _ & _ & ->). done.
  + (* it survived *)
    set (e1 := set_age e (age e + diff)).
    rewrite awrite_in_range by lia. cbn [mbind outcome_bind obind].
    rewrite awrite_in_range by (rewrite length_insert; lia).
    cbn [mbind outcome_bind obind].
    set (t2 := <[Z.to_nat newsz := e1]> (<[Z.to_nat i := e1]> (_table s))).
    assert (length t2 = length (_table s)) as Hl2
      by (subst t2; by rewrite !length_insert).
    assert (t2 !! Z.to_nat i = Some e1) as Hi2.
    { subst t2. destruct (decide (Z.to_nat newsz = Z.to_nat i)) as [->|Hne].
      - apply list_lookup_insert_eq. rewrite length_insert. lia.
      - rewrite list_lookup_insert_ne by done.
        apply list_lookup_insert_eq. lia. }
    rewrite (aread_lookup _ i e1) by (done || lia).
    cbn [mbind outcome_bind obind].
    rewrite awrite_in_range by lia. cbn [mbind outcome_bind obind].
    assert (u32 (newsz + 1) = newsz + 1) as ->
      by (unfold u32; apply Z.mod_small; lia).
    set (s1 := set_table s _ _).
    destruct (IH (i + 1) (newsz + 1) s1) as (s' & Hrun & Htake & Hl & Hd & Hf & Hrest).
    { lia. }
    { subst s1. cbn. rewrite length_insert. lia. }
    { lia. }
    assert (drop (Z.to_nat (i + 1)) (_table s1) = drop (S (Z.to_nat i)) (_table s))
      as Hdrop.
    { subst s1 t2. cbn. replace (Z.to_nat (i + 1)) with (S (Z.to_nat i)) by lia.
      rewrite !drop_insert_lt by lia. done. }
    rewrite Hdrop in *.
    assert ((newsz + 1 =? i + 1) = (newsz =? i)) as Hflag.
    { destruct (Z.eqb_spec newsz i); [apply Z.eqb_eq|apply Z.eqb_neq]; lia. }
    rewrite Hflag in *.
    rewrite decide_False by done.
    set (rest := compacted collected diff (newsz =? i) _) in *.
    cbn [length].
    replace (newsz + Z.of_nat (S (length rest)))
      with (newsz + 1 + Z.of_nat (length rest)) by lia.
    exists s'. split_and!.
    * exact Hrun.
    * rewrite Htake. rewrite (cons_middle _ (take _ _) rest), app_assoc.
      f_equal. subst s1. cbn [_table set_table].
      replace (Z.to_nat (newsz + 1)) with (S (Z.to_nat newsz)) by lia.
      destruct (Z.eqb_spec newsz i) as [->|Hne].
      -- erewrite take_S_r; [|apply list_lookup_insert_eq; lia].
         rewrite take_insert_ge by lia. subst t2.
         rewrite !take_insert_ge by lia. done.
      -- erewrite take_S_r.
         2: { rewrite list_lookup_insert_ne by lia. subst t2.
              apply list_lookup_insert_eq. rewrite length_insert. lia. }
         rewrite take_insert_ge by lia. subst t2.
         rewrite !take_insert_ge by lia. done.
    * rewrite Hl. subst s1. cbn. by rewrite length_insert.
    * rewrite Hd. done.
    * rewrite Hf. done.
    * destruct Hrest as (-> & _). done.
    * destruct Hrest as (_ & -> & _). done.
    * destruct Hrest as (_ & _ & -> & _). done.
    * destruct Hrest as (_ & _ & _ & -> & _). done.
    * destruct Hrest as (_ & _ & _ & _ & -> & _). done.
    * destruct Hrest as (_ & _ & _ & _ & _ & ->). done.
Qed.

(** [cleanup_table] after a collection, in full. *)
Lemma cleanup_table_runs collected (s : t) :
  sized s -> allocated s -> _gc_epoch s <> _last_gc_epoch s ->
  let diff := to_int (u64 (_gc_epoch s - _last_gc_epoch s)) in
  let old := take (Z.to_nat (_table_size s)) (_table s) in
  exists s',
    cleanup_table collected s = Ret s'
    /\ _table_size s' = Z.of_nat (length (compacted collected diff true old))
    /\ take (Z.to_nat (_table_size s')) (_table s')
       = compacted collected diff true old
    /\ length (_table s') = length (_table s)
    /\ deleted_refs s' = rev (ref <$> dead_of collected old) ++ deleted_refs s
    /\ freed_frames s' = rev (frames <$> dead_of collected old) ++ freed_frames s
    /\ _gc_epoch s' = _gc_epoch s /\ _last_gc_epoch s' = _gc_epoch s
    /\ _table_cap s' = _table_cap s /\ _table_max_cap s' = _table_max_cap s.
Proof.
intros (H0 & [H1 H2] & H3) Ha Hne diff old. unfold cleanup_table, allocated in *.
destruct (Z.eqb_spec (_gc_epoch s) (_last_gc_epoch s)); [done|].
cbn [_table_size set_epochs].
assert (u32 (_table_size s) = _table_size s) as ->
    by (unfold u32; apply Z.mod_small; lia).
destruct (cleanup_loop_compacts collected diff (Z.to_nat (_table_size s)) 0 0
            (set_epochs s (_gc_epoch s) (_gc_epoch s)))
  as (s' & Hrun & Htake & Hl & Hd & Hf & Hg & Hlast & Hcap & Hmax & _);
  [lia|cbn; lia|lia|].
cbn [_table set_epochs Z.to_nat drop Z.eqb] in *. fold old in Hrun, Htake, Hd, Hf.
fold diff. rewrite Hrun. cbn [mbind outcome_bind obind fst snd].
eexists. split; [reflexivity|]. cbn [_table_size _table set_table deleted_refs
  freed_frames _gc_epoch _last_gc_epoch _table_cap _table_max_cap].
rewrite Z.add_0_l in *. cbn [take app] in Htake.
split_and!; done.
Qed.

End Compaction.

Section TrackerOperations.

Import LivenessTracker LivenessSpec.

(** Whatever it releases, [compacted] keeps the survivors in their order,
    each with its age raised. *)
Lemma compacted_survivors collected diff (l : list TrackingEntry) : forall in_place,
  (fun e => set_ref e None) <$> compacted collected diff in_place l
  = (fun e => set_ref (set_age e (age e + diff)) None)
      <$> List.filter (alive collected) l.
Proof.
induction l as [|e l IH]; intros in_place; [done|].
cbn [compacted List.filter]. destruct (alive collected e); [|apply IH].
cbn [fmap list_fmap]. fold (@fmap list _). f_equal; [by destruct in_place|].
apply IH.
Qed.

(** X14. A [cleanup_table] that finds a new collection keeps exactly the
    entries whose referent is alive, in their order at the front of the
    table, each with its age raised by the number of collections since
    the last cleanup; the sizes of the table are not touched. A survivor
    that stood behind a dead entry is moved down with its reference; one
    that stood before every dead entry stays in its slot and is left with
    a NULL reference. *)
Theorem cleanup_table_compacts collected (s : t) :
  sized s -> allocated s -> _gc_epoch s <> _last_gc_epoch s ->
  exists s',
    cleanup_table collected s = Ret s'
    /\ _table_size s'
       = Z.of_nat (length (List.filter (alive collected)
                             (take (Z.to_nat (_table_size s)) (_table s))))
    /\ (fun e => set_ref e None)
         <$> take (Z.to_nat (_table_size s')) (_table s')
       = (fun e => set_ref (set_age e (age e + to_int (u64 (_gc_epoch s
                                                        - _last_gc_epoch s)))) None)
           <$> List.filter (alive collected)
                 (take (Z.to_nat (_table_size s)) (_table s))
    /\ take (Z.to_nat (_table_size s')) (_table s')
       = compacted collected (to_int (u64 (_gc_epoch s - _last_gc_epoch s))) true
                   (take (Z.to_nat (_table_size s)) (_table s))
    /\ _table_cap s' = _table_cap s /\ _table_max_cap s' = _table_max_cap s
    /\ length (_table s') = length (_table s).
Proof.
intros Hs Ha Hne.
destruct (cleanup_table_runs collected s Hs Ha Hne)
  as (s' & Hrun & Hsz & Htake & Hl & _ & _ & _ & _ & Hcap & Hmax).
exists s'. split_and!; try done.
- rewrite Hsz. f_equal.
  rewrite <- (length_fmap (fun e => set_ref e None)), compacted_survivors.
  by rewrite length_fmap.
- rewrite Htake. apply compacted_survivors.
Qed.

Lemma cleanup_table_compacts_witness :
  exists s',
    cleanup_table (fun h => h =? 7) (set_epochs
       (set_table (blank 0 4 4)
          [new_entry sample; set_ref (new_entry sample) (Some 8);
           set_ref (new_entry sample) (Some 9); uninit] 3) 2 0) = Ret s'
    /\ _table_size s' = 2
    /\ take 2 (_table s')
       = [set_age (set_ref (new_entry sample) (Some 8)) 2;
          set_age (set_ref (new_entry sample) (Some 9)) 2].
Proof.
destruct (cleanup_table_compacts (fun h => h =? 7) (set_epochs
       (set_table (blank 0 4 4)
          [new_entry sample; set_ref (new_entry sample) (Some 8);
           set_ref (new_entry sample) (Some 9); uninit] 3) 2 0))
  as (s' & H1 & H2 & _ & H4 & _).
- unfold sized, inv. cbn. lia.
- reflexivity.
- cbn. lia.
- exists s'. split; [exact H1|]. split; [exact H2|].
  rewrite H2 in H4. exact H4.
Defined.

(** X15. The weak references [cleanup_table] deletes and the frame arrays
    it frees are those of the entries whose referent is gone, each once
    and in the order of the table; nothing of a survivor is released. *)
Theorem cleanup_table_releases collected (s : t) :
  sized s -> allocated s -> _gc_epoch s <> _last_gc_epoch s ->
  exists s',
    cleanup_table collected s = Ret s'
    /\ deleted_refs s'
       = rev (ref <$> dead_of collected
                        (take (Z.to_nat (_table_size s)) (_table s)))
         ++ deleted_refs s
    /\ freed_frames s'
       = rev (frames <$> dead_of collected
                           (take (Z.to_nat (_table_size s)) (_table s)))
         ++ freed_frames s.
Proof.
intros Hs Ha Hne.
destruct (cleanup_table_runs collected s Hs Ha Hne)
  as (s' & Hrun & _ & _ & _ & Hd & Hf & _).
exists s'. done.
Qed.

Lemma cleanup_table_releases_witness :
  exists s',
    cleanup_table (fun h => h =? 7) (set_epochs
       (set_table (blank 0 4 4)
          [new_entry sample; set_ref (new_entry sample) (Some 8);
           set_ref (new_entry sample) (Some 9); uninit] 3) 2 0) = Ret s'
    /\ deleted_refs s' = [Some 7]
    /\ freed_frames s' = [[(1, 2)]].
Proof.
apply (cleanup_table_releases (fun h => h =? 7) (set_epochs
       (set_table (blank 0 4 4)
          [new_entry sample; set_ref (new_entry sample) (Some 8);
           set_ref (new_entry sample) (Some 9); uninit] 3) 2 0)).
- unfold sized, inv. cbn. lia.
- reflexivity.
- cbn. lia.
Defined.

(** The loop of [cleanup_table] leaves the epochs alone. *)
Lemma cleanup_loop_epochs collected epoch_diff (k : nat) : forall i newsz s r,
  cleanup_loop collected epoch_diff k i newsz s = Ret r ->
  _gc_epoch (fst r) = _gc_epoch s /\ _last_gc_epoch (fst r) = _last_gc_epoch s.
Proof.
induction k as [|k IH]; intros i newsz s r Hrun; cbn in Hrun.
- injection Hrun as <-. done.
- outcome_step Hrun.
  destruct (IsSameObject_null collected (ref a)); cbn [negb] in Hrun.
  + outcome_step Hrun. apply IH in Hrun. done.
  + outcome_step Hrun. outcome_step Hrun. outcome_step Hrun. outcome_step Hrun.
    apply IH in Hrun. done.
Qed.

Lemma cleanup_table_settles collected (s s' : t) :
  cleanup_table collected s = Ret s' ->
  _last_gc_epoch s' = _gc_epoch s' /\ _gc_epoch s' = _gc_epoch s.
Proof.
unfold cleanup_table.
destruct (Z.eqb_spec (_gc_epoch s) (_last_gc_epoch s)) as [He|Hne].
- intros [= <-]. done.
- intros H. outcome_step H. injection H as <-.
  apply cleanup_loop_epochs in E as [E1 E2]. cbn in *. lia.
Qed.

(** X16. The [cleanup_table] that [stop] runs first makes the one inside
    [flush_table] find nothing to do: [stop] leaves the state and reports
    the events that [flush_table] alone would. *)
Theorem stop_is_flush_table collected (s : t) :
  stop collected s = flush_table collected s.
Proof.
unfold stop, flush_table.
destruct (cleanup_table collected s) as [s1| | |] eqn:Hc; try done.
cbn [mbind outcome_bind obind].
apply cleanup_table_settles in Hc as [Hc _].
unfold cleanup_table at 1. rewrite Hc, Z.eqb_refl. done.
Qed.

Lemma flush_loop_filter collected (k : nat) : forall i table,
  0 <= i -> i + Z.of_nat k <= Z.of_nat (length table) ->
  flush_loop collected k i table
  = Ret (List.filter (alive collected) (take k (drop (Z.to_nat i) table))).
Proof.
induction k as [|k IH]; intros i table Hi Hk; [done|].
cbn [flush_loop].
destruct (lookup_lt_is_Some_2 table (Z.to_nat i)) as [e He]; [lia|].
rewrite (aread_lookup _ i e) by (done || lia).
cbn [mbind outcome_bind obind]. rewrite IH by lia.
cbn [mbind outcome_bind obind].
rewrite (drop_lookup_cons _ _ _ He). cbn [take List.filter].
replace (Z.to_nat (i + 1)) with (S (Z.to_nat i)) by lia.
assert (alive collected e = negb (IsSameObject_null collected (ref e)))
  as -> by done.
by destruct (IsSameObject_null collected (ref e)).
Qed.

(** X17. [flush_table] reports exactly the entries of the cleaned-up
    table whose reference is not NULL and whose referent is alive, in the
    order of the table: no entry with a dead referent is ever reported.
    When no collection has happened since the last cleanup the table is
    not modified. *)
Theorem flush_table_reports_live collected (s : t) :
  sized s -> allocated s ->
  exists s',
    cleanup_table collected s = Ret s'
    /\ flush_table collected s
       = Ret (s', List.filter (alive collected)
                    (take (Z.to_nat (_table_size s')) (_table s')))
    /\ (_gc_epoch s = _last_gc_epoch s -> s' = s).
Proof.
intros Hs Ha.
destruct (cleanup_table_returns collected s Hs Ha) as [s' Hc].
destruct (cleanup_table_sized collected s s' Hs Hc)
  as ((H0 & [H1 H2] & H3) & Hl & Hcap & _).
exists s'. split; [done|]. unfold flush_table. rewrite Hc.
cbn [mbind outcome_bind obind]. unfold allocated in Ha. split.
- rewrite flush_loop_filter by lia. done.
- intros He. unfold cleanup_table in Hc.
  apply Z.eqb_eq in He. rewrite He in Hc. congruence.
Qed.

Lemma flush_table_reports_live_witness :
  exists s',
    cleanup_table (fun h => h =? 7) (set_table (blank 0 4 4)
          [new_entry sample; set_ref (new_entry sample) (Some 8);
           set_ref (new_entry sample) None; uninit] 3) = Ret s'
    /\ flush_table (fun h => h =? 7) (set_table (blank 0 4 4)
          [new_entry sample; set_ref (new_entry sample) (Some 8);
           set_ref (new_entry sample) None; uninit] 3)
       = Ret (s', List.filter (alive (fun h => h =? 7))
                    (take (Z.to_nat (_table_size s')) (_table s')))
    /\ (0 = 0 -> s' = set_table (blank 0 4 4)
          [new_entry sample; set_ref (new_entry sample) (Some 8);
           set_ref (new_entry sample) None; uninit] 3).
Proof.
apply (flush_table_reports_live (fun h => h =? 7) (set_table (blank 0 4 4)
          [new_entry sample; set_ref (new_entry sample) (Some 8);
           set_ref (new_entry sample) None; uninit] 3)).
- unfold sized, inv. cbn. lia.
- reflexivity.
Defined.

(** X18. [track] with the lock free and room in the table stores the
    sample in the slot at [_table_size], with age 0 and the frames,
    thread, time and context given, counts it, and touches nothing
    else. *)
Theorem track_stores_sample collected (inp : TrackInput) (s : t) :
  _table_max_cap s <> 0 -> is_Some (in_ref inp) -> lock_first inp = true ->
  0 <= _table_size s < _table_cap s -> allocated s ->
  track collected inp s
  = Ret (set_table s (<[Z.to_nat (_table_size s) := new_entry inp]> (_table s))
                   (_table_size s + 1))
  /\ age (new_entry inp) = 0
  /\ <[Z.to_nat (_table_size s) := new_entry inp]> (_table s)
       !! Z.to_nat (_table_size s) = Some (new_entry inp).
Proof.
intros Hmax [h Hh] Hlock Hsz Ha. unfold allocated in Ha. split_and!.
- unfold track. destruct (Z.eqb_spec (_table_max_cap s) 0); [done|].
  rewrite Hh. unfold track_attempt at 1. rewrite Hlock. cbn [negb].
  destruct (Z.ltb_spec (_table_size s) (_table_cap s)); [|lia].
  rewrite awrite_in_range by lia. cbn [mbind outcome_bind obind].
  cbn [_table_cap set_table].
  destruct (Z.eqb_spec (_table_size s) (_table_cap s)); [lia|done].
- done.
- apply list_lookup_insert_eq. lia.
Qed.

Lemma track_stores_sample_witness :
  track all_alive sample one_survivor
  = Ret (set_table one_survivor
           (<[1%nat := new_entry sample]> (_table one_survivor)) 2).
Proof.
destruct (track_stores_sample all_alive sample one_survivor) as [H _].
- cbn. lia.
- cbn. eauto.
- reflexivity.
- cbn. lia.
- reflexivity.
- exact H.
Defined.

(** X19. At the maximal capacity a sample that meets a full table is
    never stored: [track] does what [cleanup_table] alone does, also when
    that cleanup has just made room. *)
Theorem track_full_at_max_drops collected (inp : TrackInput) (s : t) :
  sized s -> _table_max_cap s <> 0 -> is_Some (in_ref inp) ->
  lock_first inp = true ->
  _table_size s = _table_cap s -> _table_cap s = _table_max_cap s ->
  track collected inp s = cleanup_table collected s.
Proof.
intros Hs Hmax [h Hh] Hlock Hfull Hcap. unfold track.
destruct (Z.eqb_spec (_table_max_cap s) 0); [done|].
rewrite Hh. unfold track_attempt at 1. rewrite Hlock. cbn [negb].
destruct (Z.ltb_spec (_table_size s) (_table_cap s)); [lia|].
cbn [mbind outcome_bind obind].
destruct (Z.eqb_spec (_table_size s) (_table_cap s)); [|lia]. cbn [negb].
destruct (cleanup_table collected s) as [s2| | |] eqn:Hc; try done.
cbn [mbind outcome_bind obind].
destruct (cleanup_table_sized collected s s2 Hs Hc) as (_ & _ & -> & -> & _).
destruct (Z.ltb_spec (_table_cap s) (_table_max_cap s)); [lia|done].
Qed.

Lemma track_full_at_max_drops_witness :
  track (fun _ => true) sample
        (set_epochs (set_table (blank 0 1 1) [new_entry sample] 1) 1 0)
  = cleanup_table (fun _ => true)
        (set_epochs (set_table (blank 0 1 1) [new_entry sample] 1) 1 0)
  /\ exists s', cleanup_table (fun _ => true)
        (set_epochs (set_table (blank 0 1 1) [new_entry sample] 1) 1 0) = Ret s'
        /\ _table_size s' = 0.
Proof.
split.
- apply (track_full_at_max_drops (fun _ => true) sample).
  + unfold sized, inv. cbn. lia.
  + cbn. lia.
  + cbn. eauto.
  + reflexivity.
  + reflexivity.
  + reflexivity.
- eexists. split; [vm_compute; reflexivity|reflexivity].
Defined.



(** X21. When the table is full below its maximal capacity and the
    reallocation that is to grow it fails, [_table_cap] has been raised
    all the same, and the second attempt of [track] stores the sample
    past the end of the table, which still has its old size. *)
Theorem track_failed_realloc_overflows collected (inp : TrackInput) (s : t) :
  is_Some (in_ref inp) -> lock_first inp = true -> lock_retry inp = true ->
  realloc_ok inp = false ->
  0 < _table_cap s < _table_max_cap s -> _table_size s = _table_cap s ->
  allocated s -> _gc_epoch s = _last_gc_epoch s ->
  track collected inp s = Undefined.
Proof.
intros [h Hh] Hl1 Hl2 Hok Hcap Hfull Ha He. unfold allocated in Ha.
unfold track. destruct (Z.eqb_spec (_table_max_cap s) 0); [lia|].
rewrite Hh. unfold track_attempt at 1. rewrite Hl1. cbn [negb].
destruct (Z.ltb_spec (_table_size s) (_table_cap s)); [lia|].
cbn [mbind outcome_bind obind].
destruct (Z.eqb_spec (_table_size s) (_table_cap s)); [|lia]. cbn [negb].
unfold cleanup_table. apply Z.eqb_eq in He. rewrite He.
cbn [mbind outcome_bind obind].
destruct (Z.ltb_spec (_table_cap s) (_table_max_cap s)); [|lia].
set (newcap := Z.min (_table_cap s * 2) (_table_max_cap s)).
assert (_table_cap s < newcap) as Hnew by (subst newcap; lia).
destruct (Z.eqb_spec (_table_cap s) newcap); [lia|]. cbn [negb].
rewrite Hok. unfold grow.
unfold track_attempt. rewrite Hl2. cbn [negb].
cbn [_table_size _table_cap _table set_table set_caps].
destruct (Z.ltb_spec (_table_size s) newcap); [|lia].
unfold awrite.
destruct (Z.ltb_spec (_table_size s) 0); [done|].
destruct (Z.leb_spec (Z.of_nat (length (_table s))) (_table_size s)); [done|lia].
Qed.

Lemma track_failed_realloc_overflows_witness :
  track all_alive
    {| in_event := 0; in_tid := 42; in_ref := Some 7; in_num_frames := 1;
       in_frames := [(1, 2)]; in_ticks := 100;
       in_ctx := Contexts.DD_EMPTY_CONTEXT;
       lock_first := true; lock_retry := true; realloc_ok := false |}
    (set_table (blank 0 1 4) [new_entry sample] 1) = Undefined.
Proof.
apply track_failed_realloc_overflows; try reflexivity.
- cbn. eauto.
- cbn. lia.
Defined.

End TrackerOperations.

Section TrackerSetup.

Import LivenessTracker LivenessSpec.

(** X22. On a JVM before Java 11, without a heap size to be had, or
    without [java.lang.Class#getName], [initialize] leaves the tracker
    switched off: [_table_max_cap] is 0 and the table is the one the
    tracker had, and every later [track] returns without any effect. *)
Theorem initialize_disabled_ignores (MAX : Z) (env : InitEnv) (s : t) :
  _initialized s = false ->
  java_version env < 11 \/ max_heap_of env = -1
  \/ class_getName_found env = false ->
  _table_max_cap (initialize MAX env s) = 0
  /\ _table (initialize MAX env s) = _table s
  /\ _table_size (initialize MAX env s) = _table_size s
  /\ forall collected inp,
       track collected inp (initialize MAX env s) = Ret (initialize MAX env s).
Proof.
intros Hi Hoff.
assert (_table_max_cap (initialize MAX env s) = 0
        /\ _table (initialize MAX env s) = _table s
        /\ _table_size (initialize MAX env s) = _table_size s) as (Hm & Ht & Hs).
{ unfold initialize. rewrite Hi.
  destruct (Z.ltb_spec (java_version env) 11); [done|].
  unfold initialize_table. fold (max_heap_of env).
  destruct (Z.eqb_spec (max_heap_of env) (-1)); cbn [fst snd]; [done|].
  destruct (class_getName_found env); [lia|done]. }
split_and!; [done..|].
intros collected inp. unfold track. by rewrite Hm.
Qed.

Lemma initialize_disabled_ignores_witness :
  _table_max_cap (initialize 262144 (jvm_without_getName (1 * GiB) (512 * KiB))
                             (blank 0 0 0)) = 0
  /\ track all_alive sample
       (initialize 262144 (jvm_without_getName (1 * GiB) (512 * KiB)) (blank 0 0 0))
     = Ret (initialize 262144 (jvm_without_getName (1 * GiB) (512 * KiB))
                       (blank 0 0 0)).
Proof.
destruct (initialize_disabled_ignores 262144
            (jvm_without_getName (1 * GiB) (512 * KiB)) (blank 0 0 0))
  as (H1 & _ & _ & H4).
- reflexivity.
- right. right. reflexivity.
- split; [exact H1|apply H4].
Defined.

Lemma onGC_iter (n : nat) (s : t) :
  _initialized s = true -> 0 <= _gc_epoch s < 2 ^ 64 ->
  _gc_epoch (Nat.iter n onGC s) = u64 (_gc_epoch s + Z.of_nat n)
  /\ _last_gc_epoch (Nat.iter n onGC s) = _last_gc_epoch s
  /\ _table (Nat.iter n onGC s) = _table s
  /\ _table_size (Nat.iter n onGC s) = _table_size s
  /\ _table_cap (Nat.iter n onGC s) = _table_cap s
  /\ _table_max_cap (Nat.iter n onGC s) = _table_max_cap s
  /\ _initialized (Nat.iter n onGC s) = true.
Proof.
intros Hi Hg. induction n as [|n IH].
- cbn. rewrite Z.add_0_r. unfold u64. rewrite Z.mod_small by lia. done.
- rewrite !Nat.iter_succ. destruct IH as (H1 & H2 & H3 & H4 & H5 & H6 & H7).
  assert (onGC (Nat.iter n onGC s)
          = set_epochs (Nat.iter n onGC s)
                       (u64 (_gc_epoch (Nat.iter n onGC s) + 1))
                       (_last_gc_epoch (Nat.iter n onGC s))) as ->
    by (unfold onGC at 1; by rewrite H7).
  cbn [_gc_epoch _last_gc_epoch _table _table_size _table_cap _table_max_cap
       _initialized set_epochs].
  split_and!; try done.
  rewrite H1. unfold u64. rewrite Z.add_mod_idemp_l by lia.
  f_equal. lia.
Qed.

(** X23. The age a survivor gains in a cleanup is the number of
    collections the tracker was told of since the last cleanup: after
    [n] calls of [onGC], [cleanup_table] compacts the table with an age
    increment of exactly [n], also when the epoch counter has wrapped
    around in between, as long as [n] is below [2^31]. *)
Theorem ages_count_collections collected (n : nat) (s : t) :
  _initialized s = true -> sized s -> allocated s ->
  0 <= _gc_epoch s < 2 ^ 64 -> _last_gc_epoch s = _gc_epoch s ->
  0 < Z.of_nat n < 2 ^ 31 ->
  exists s',
    cleanup_table collected (Nat.iter n onGC s) = Ret s'
    /\ take (Z.to_nat (_table_size s')) (_table s')
       = compacted collected (Z.of_nat n) true
                   (take (Z.to_nat (_table_size s)) (_table s))
    /\ _last_gc_epoch s' = u64 (_gc_epoch s + Z.of_nat n).
Proof.
intros Hi Hs Ha Hg Hl Hn.
destruct (onGC_iter n s Hi Hg) as (H1 & H2 & H3 & H4 & H5 & H6 & H7).
assert (2 ^ 31 < 2 ^ 64) as Hpow by (apply Z.pow_lt_mono_r; lia).
assert (u64 (_gc_epoch s + Z.of_nat n) <> _gc_epoch s) as Hmoved.
{ unfold u64. intros Heq.
  destruct (decide (_gc_epoch s + Z.of_nat n < 2 ^ 64)).
  - rewrite Z.mod_small in Heq by lia. lia.
  - replace (_gc_epoch s + Z.of_nat n)
      with (_gc_epoch s + Z.of_nat n - 2 ^ 64 + 1 * 2 ^ 64) in Heq by lia.
    rewrite Z.mod_add, Z.mod_small in Heq by lia. lia. }
destruct (cleanup_table_runs collected (Nat.iter n onGC s))
  as (s' & Hrun & _ & Htake & _ & _ & _ & _ & Hlast & _).
{ destruct Hs as (? & [? ?] & ?). unfold sized, inv. rewrite H4, H5, H6. done. }
{ unfold allocated in *. by rewrite H3, H5. }
{ rewrite H1, H2, Hl. done. }
exists s'. split; [done|]. rewrite H1, H2, H3, H4, Hl in *. split; [|done].
rewrite Htake. f_equal.
unfold u64. rewrite Zminus_mod_idemp_l.
replace (_gc_epoch s + Z.of_nat n - _gc_epoch s) with (Z.of_nat n) by lia.
rewrite Z.mod_small by lia. apply to_int_small. lia.
Qed.

Lemma ages_count_collections_witness :
  exists s',
    cleanup_table all_alive
      (Nat.iter 3 onGC
         (set_epochs (set_flags (set_table (blank 0 2 2) [new_entry sample; uninit] 1)
                                true false)
                     (2 ^ 64 - 1) (2 ^ 64 - 1))) = Ret s'
    /\ take (Z.to_nat (_table_size s')) (_table s')
       = compacted all_alive 3 true [new_entry sample]
    /\ _last_gc_epoch s' = 2.
Proof.
apply (ages_count_collections all_alive 3
         (set_epochs (set_flags (set_table (blank 0 2 2) [new_entry sample; uninit] 1)
                                true false)
                     (2 ^ 64 - 1) (2 ^ 64 - 1))).
- reflexivity.
- unfold sized, inv. cbn. lia.
- reflexivity.
- cbn. lia.
- reflexivity.
- lia.
Defined.

End TrackerSetup.

(** ** Buffer: strings, patched sizes and whole events *)

Section Events.

Import BufferSpec.

Lemma store_appended (bytes : list Z) (b : Buffer.t) :
  room b (Z.of_nat (length bytes)) ->
  exists b', Buffer.store bytes b = Ret b' /\ appended b bytes b'.
Proof.
intros [H0 H1]. unfold Buffer.store.
destruct (Z.ltb_spec (Buffer._offset b) 0); [lia|].
destruct (Z.ltb_spec (Z.of_nat (length (Buffer._data b)))
                     (Buffer._offset b + Z.of_nat (length bytes))); [lia|].
cbn [orb]. eexists. split; [reflexivity|]. split; done.
Qed.

Lemma encode_nonempty (v : Z) : (1 <= length (Varint.encode v))%nat.
Proof.
destruct (Z_gt_dec v 0x7f).
- rewrite encode_more by done. cbn. lia.
- rewrite encode_last by lia. cbn. lia.
Qed.

(** [putVar64] stores between one and nine bytes, which the 64-bit
    reader turns back into the value. *)
Lemma putVar64_bytes (v : Z) (b : Buffer.t) :
  room b 9 ->
  exists b' bytes,
    Buffer.putVar64 v b = Ret b' /\ appended b bytes b'
    /\ (1 <= length bytes <= 9)%nat
    /\ forall rest, Varint.decode64 (bytes ++ rest) = Some (u64 v, rest).
Proof.
intros Hroom.
assert (Buffer.putVar64 v b = Buffer.putVar64 (u64 v) b) as ->
  by (unfold Buffer.putVar64, u64; by rewrite Z.mod_mod).
assert (0 <= u64 v < 2 ^ 64) as Hv by (unfold u64; apply Z.mod_pos_bound; lia).
assert (u64 (u64 v) = u64 v) as Hid by (unfold u64; by rewrite Z.mod_mod).
set (w := u64 v) in *.
destruct (Z_lt_le_dec w (2 ^ 63)) as [Hlt|Hge].
- destruct (putVar64_below w b ltac:(lia) Hroom) as (b' & Hput & Hb').
  exists b', (Varint.encode w). split_and!; [done|done| | |].
  + apply encode_nonempty.
  + apply (encode_length 8). change (7 * Z.of_nat 9) with 63. lia.
  + intros rest. apply (decode_capped_encode 8).
    change (7 * Z.of_nat 9) with 63. lia.
- destruct (putVar64_top w b ltac:(lia) Hroom) as (b' & Hput & Hb').
  exists b', (take 9 (Varint.encode w)). split_and!; [done|done| | |].
  + pose proof (encode_nonempty w). rewrite length_take. lia.
  + rewrite length_take. lia.
  + intros rest. apply (decode_capped_full 8).
    change (7 * Z.of_nat 9) with 63. change (63 + 1) with 64. lia.
Qed.

Lemma char_lor_flag (v : Z) :
  Buffer.char (Z.lor v 0x80) = Z.lor (Buffer.char v) 0x80.
Proof. unfold Buffer.char. by rewrite Z.land_lor_distr_l. Qed.

(** The five bytes of a patched size read back as the value. *)
Lemma decode_padded5 (v : Z) (rest : list Z) :
  0 <= v < 2 ^ 32 -> Varint.decode (padded5 v ++ rest) = Some (v, rest).
Proof.
intros Hv. unfold padded5. rewrite !char_lor_flag.
cbn [app Varint.decode]. rewrite !flagged_bit, !flagged_payload.
assert (0 <= Z.shiftr v 28 < 16) as H28.
{ rewrite Z.shiftr_div_pow2 by lia. split; [apply Z.div_pos; lia|].
  apply Z.div_lt_upper_bound; lia. }
rewrite (char_small (Z.shiftr v 28)) by lia.
rewrite (small_bit (Z.shiftr v 28)) by lia.
f_equal. f_equal.
replace (Z.shiftr v 28) with (Z.shiftr (Z.shiftr v 21) 7)
  by (rewrite Z.shiftr_shiftr by lia; done).
rewrite septet_split.
replace (Z.shiftr v 21) with (Z.shiftr (Z.shiftr v 14) 7)
  by (rewrite Z.shiftr_shiftr by lia; done).
rewrite septet_split.
replace (Z.shiftr v 14) with (Z.shiftr (Z.shiftr v 7) 7)
  by (rewrite Z.shiftr_shiftr by lia; done).
rewrite septet_split. apply septet_split.
Qed.

Lemma put8_at_Ret (offset v : Z) (b : Buffer.t) :
  0 <= offset < Z.of_nat (length (Buffer._data b)) ->
  Buffer.put8_at offset v b
  = Ret {| Buffer._offset := Buffer._offset b;
           Buffer._data := <[Z.to_nat offset := Buffer.char v]> (Buffer._data b) |}.
Proof.
intros H. unfold Buffer.put8_at.
destruct (Z.ltb_spec offset 0); [lia|].
destruct (Z.leb_spec (Z.of_nat (length (Buffer._data b))) offset); [lia|]. done.
Qed.

Lemma insert5 {A} (l : list A) (i : nat) (a0 a1 a2 a3 a4 : A) :
  (i + 5 <= length l)%nat ->
  <[(i + 4)%nat := a4]> (<[(i + 3)%nat := a3]> (<[(i + 2)%nat := a2]>
    (<[(i + 1)%nat := a1]> (<[i := a0]> l))))
  = take i l ++ [a0; a1; a2; a3; a4] ++ drop (i + 5) l.
Proof.
intros Hl. apply list_eq. intros j.
destruct (decide (j < i)%nat).
{ rewrite !list_lookup_insert_ne by lia.
  rewrite lookup_app_l by (rewrite length_take; lia).
  by rewrite lookup_take_lt by lia. }
rewrite lookup_app_r by (rewrite length_take; lia).
rewrite length_take, Nat.min_l by lia.
destruct (decide (j = i + 4)%nat) as [->|].
{ rewrite list_lookup_insert_eq by (rewrite !length_insert; lia).
  by replace (i + 4 - i)%nat with 4%nat by lia. }
rewrite list_lookup_insert_ne by lia.
destruct (decide (j = i + 3)%nat) as [->|].
{ rewrite list_lookup_insert_eq by (rewrite !length_insert; lia).
  by replace (i + 3 - i)%nat with 3%nat by lia. }
rewrite list_lookup_insert_ne by lia.
destruct (decide (j = i + 2)%nat) as [->|].
{ rewrite list_lookup_insert_eq by (rewrite !length_insert; lia).
  by replace (i + 2 - i)%nat with 2%nat by lia. }
rewrite list_lookup_insert_ne by lia.
destruct (decide (j = i + 1)%nat) as [->|].
{ rewrite list_lookup_insert_eq by (rewrite !length_insert; lia).
  by replace (i + 1 - i)%nat with 1%nat by lia. }
rewrite list_lookup_insert_ne by lia.
destruct (decide (j = i)) as [->|].
{ rewrite list_lookup_insert_eq by lia. by rewrite Nat.sub_diag. }
rewrite list_lookup_insert_ne by lia.
rewrite (lookup_app_r [a0; a1; a2; a3; a4]) by (cbn; lia). cbn [length].
rewrite lookup_drop. f_equal. lia.
Qed.

Lemma putVar32_at_stores (offset v : Z) (b : Buffer.t) :
  0 <= offset -> offset + 5 <= Z.of_nat (length (Buffer._data b)) ->
  Buffer.putVar32_at offset v b
  = Ret {| Buffer._offset := Buffer._offset b;
           Buffer._data := take (Z.to_nat offset) (Buffer._data b)
                           ++ padded5 (u32 v)
                           ++ drop (Z.to_nat offset + 5) (Buffer._data b) |}.
Proof.
intros H0 H5. unfold Buffer.putVar32_at.
rewrite put8_at_Ret by lia. cbn [mbind outcome_bind obind].
rewrite put8_at_Ret by (cbn; rewrite !length_insert; lia).
cbn [mbind outcome_bind obind].
rewrite put8_at_Ret by (cbn; rewrite !length_insert; lia).
cbn [mbind outcome_bind obind].
rewrite put8_at_Ret by (cbn; rewrite !length_insert; lia).
cbn [mbind outcome_bind obind].
rewrite put8_at_Ret by (cbn; rewrite !length_insert; lia).
cbn [Buffer._offset Buffer._data]. do 2 f_equal.
replace (Z.to_nat (offset + 1)) with (Z.to_nat offset + 1)%nat by lia.
replace (Z.to_nat (offset + 2)) with (Z.to_nat offset + 2)%nat by lia.
replace (Z.to_nat (offset + 3)) with (Z.to_nat offset + 3)%nat by lia.
replace (Z.to_nat (offset + 4)) with (Z.to_nat offset + 4)%nat by lia.
rewrite insert5 by lia. done.
Qed.

(** X24. [putVar32(offset, v)] overwrites the five bytes at [offset] and
    nothing else, cursor included; read as a varint they give back [v],
    for every [u32] value. *)
Theorem putVar32_at_round_trip (offset v : Z) (b : Buffer.t) :
  0 <= offset -> offset + 5 <= Z.of_nat (length (Buffer._data b)) ->
  exists b',
    Buffer.putVar32_at offset v b = Ret b'
    /\ Buffer._offset b' = Buffer._offset b
    /\ length (Buffer._data b') = length (Buffer._data b)
    /\ take (Z.to_nat offset) (Buffer._data b')
       = take (Z.to_nat offset) (Buffer._data b)
    /\ drop (Z.to_nat offset + 5) (Buffer._data b')
       = drop (Z.to_nat offset + 5) (Buffer._data b)
    /\ forall rest,
         Varint.decode (take 5 (drop (Z.to_nat offset) (Buffer._data b')) ++ rest)
         = Some (u32 v, rest).
Proof.
intros H0 H5. eexists. split; [by apply putVar32_at_stores|].
cbn [Buffer._offset Buffer._data].
assert (length (take (Z.to_nat offset) (Buffer._data b)) = Z.to_nat offset)
  as Hlt by (rewrite length_take; lia).
split_and!; [done| | | |].
- rewrite !length_app, length_take, length_drop. cbn. lia.
- rewrite take_app_length'; done.
- rewrite app_assoc, drop_app_length'; [done|].
  rewrite length_app, Hlt. done.
- intros rest. rewrite drop_app_length' by done.
  rewrite (take_app_length' (padded5 _)) by done.
  apply decode_padded5. unfold u32. apply Z.mod_pos_bound. lia.
Qed.

Lemma putVar32_at_round_trip_witness :
  exists b',
    Buffer.putVar32_at 2 300 (Buffer.fresh 8) = Ret b'
    /\ Buffer._data b' = [0; 0; 172; 130; 128; 128; 0; 0]
    /\ Varint.decode (take 5 (drop 2 (Buffer._data b'))) = Some (300, []).
Proof.
destruct (putVar32_at_round_trip 2 300 (Buffer.fresh 8)) as (b' & H1 & _ & _ & _ & _ & H6);
  [lia|vm_compute; discriminate|].
exists b'. split; [exact H1|].
split; [vm_compute in H1; injection H1 as <-; reflexivity|].
specialize (H6 []). rewrite app_nil_r in H6. exact H6.
Defined.

Lemma appended_refl (b : Buffer.t) :
  0 <= Buffer._offset b -> appended b [] b.
Proof.
intros H. split; cbn; [lia|]. by rewrite Nat.add_0_r, take_drop.
Qed.

Lemma decode64_many_app (n m : nat) : forall l vs1 r1 vs2 r2,
  decode64_many n l = Some (vs1, r1) -> decode64_many m r1 = Some (vs2, r2) ->
  decode64_many (n + m) l = Some (vs1 ++ vs2, r2).
Proof.
induction n as [|n IH]; intros l vs1 r1 vs2 r2 H1 H2.
- cbn in H1. injection H1 as <- <-. done.
- cbn [decode64_many Nat.add] in *.
  destruct (Varint.decode64 l) as [[v rest]|]; [|done].
  destruct (decode64_many n rest) as [[vs rest']|] eqn:Hn; [|done].
  injection H1 as <- <-. by rewrite (IH _ _ _ _ _ Hn H2).
Qed.

(** One more value stored by [putVar64] behind the bytes [pre]. *)
Lemma putVar64_step (v : Z) (b0 b : Buffer.t) (pre : list Z) (k : nat)
      (vs : list Z) :
  appended b0 pre b -> room b0 (Z.of_nat (length pre) + 9) ->
  (length pre <= 9 * k)%nat ->
  (forall rest, decode64_many k (pre ++ rest) = Some (vs, rest)) ->
  exists b' pre',
    Buffer.putVar64 v b = Ret b' /\ appended b0 pre' b'
    /\ (length pre < length pre' <= 9 * S k)%nat
    /\ forall rest, decode64_many (S k) (pre' ++ rest) = Some (vs ++ [u64 v], rest).
Proof.
intros Hap Hroom Hlen Hdec.
destruct (putVar64_bytes v b) as (b' & bytes & Hput & Hb' & Hl & Hd).
{ eapply appended_room; [exact Hap|exact Hroom]. }
exists b', (pre ++ bytes). split_and!; [done| | | |].
- eapply appended_app; [|exact Hap|exact Hb']. destruct Hroom. split; lia.
- rewrite length_app. lia.
- rewrite length_app. lia.
- intros rest. rewrite <- app_assoc.
  replace (S k) with (k + 1)%nat by lia.
  apply (decode64_many_app k 1 _ vs (bytes ++ rest)); [apply Hdec|].
  cbn [decode64_many]. by rewrite Hd.
Qed.

Lemma bytes_of_length (s : string) : length (Buffer.bytes_of s) = String.length s.
Proof.
unfold Buffer.bytes_of. rewrite length_map.
induction s as [|a s IH]; cbn; [done|]. by rewrite IH.
Qed.

(** [putUtf8(v, len)] behind the bytes [pre]: the tag, the length and the
    first [len] bytes of [v], which read back as that string. *)
Lemma putUtf8_len_step (v : list Z) (len : Z) (b0 b : Buffer.t) (pre : list Z) :
  appended b0 pre b -> 0 <= len <= Buffer.MAX_STRING_LENGTH ->
  len <= Z.of_nat (length v) ->
  room b0 (Z.of_nat (length pre) + 3 + len) ->
  exists b' bytes,
    Buffer.putUtf8_len v len b = Ret b'
    /\ appended b0 (pre ++ bytes) b'
    /\ Z.of_nat (length bytes) <= 3 + len
    /\ forall rest, decode_utf8 (bytes ++ rest) = Some (take (Z.to_nat len) v, rest).
Proof.
intros Hap Hlen Hv Hroom. unfold Buffer.MAX_STRING_LENGTH in Hlen.
assert (0 <= len < 2 ^ (7 * Z.of_nat 2)) as Hl14
  by (change (2 ^ (7 * Z.of_nat 2)) with 16384; lia).
pose proof (encode_length 1 len Hl14) as Henc.
assert (0 <= Buffer._offset b0
        /\ Buffer._offset b0 + (Z.of_nat (length pre) + 3 + len)
           <= Z.of_nat (length (Buffer._data b0))) as [Hr0 Hr1] by exact Hroom.
assert (u32 len = len) as Hu by (unfold u32; apply Z.mod_small; lia).
unfold Buffer.putUtf8_len.
destruct (put8_appended 3 b) as (b1 & -> & Hb1).
{ eapply appended_room; [exact Hap|]. split; lia. }
rewrite (char_small 3) in Hb1 by lia.
assert (appended b0 (pre ++ [3]) b1) as Hap1.
{ eapply appended_app; [|exact Hap|exact Hb1]. split; lia. }
cbn [mbind outcome_bind obind]. unfold Buffer.putVar32. rewrite Hu.
destruct (put_septets_appended 1 len b1 Hl14) as (b2 & -> & Hb2).
{ eapply appended_room; [exact Hap1|]. rewrite length_app. cbn [length].
  split; lia. }
assert (appended b0 ((pre ++ [3]) ++ Varint.encode len) b2) as Hap2.
{ eapply appended_app; [|exact Hap1|exact Hb2]. rewrite length_app. cbn [length].
  split; lia. }
cbn [mbind outcome_bind obind]. unfold Buffer.put. rewrite Hu.
destruct (Z.ltb_spec (Z.of_nat (length v)) len); [lia|].
assert (length (take (Z.to_nat len) v) = Z.to_nat len) as Htl
  by (rewrite length_take; lia).
destruct (store_appended (take (Z.to_nat len) v) b2) as (b3 & -> & Hb3).
{ eapply appended_room; [exact Hap2|]. rewrite !length_app, Htl. cbn [length].
  split; lia. }
exists b3, (3 :: Varint.encode len ++ take (Z.to_nat len) v). split_and!.
- done.
- replace (pre ++ 3 :: Varint.encode len ++ take (Z.to_nat len) v)
    with (((pre ++ [3]) ++ Varint.encode len) ++ take (Z.to_nat len) v)
    by (by rewrite <- !app_assoc).
  eapply appended_app; [|exact Hap2|exact Hb3].
  rewrite !length_app. cbn [length]. split; lia.
- cbn [length]. rewrite length_app, Htl. lia.
- intros rest. cbn [app decode_utf8]. rewrite <- app_assoc.
  rewrite (decode_encode 1 len _ Hl14).
  rewrite length_app, Htl.
  destruct (Z.ltb_spec (Z.of_nat (Z.to_nat len + length rest)) len); [lia|].
  rewrite take_app_length', drop_app_length' by done. done.
Qed.

(** X25. [putUtf8] of a string stores the tag 3, the length as a varint
    and the bytes, cut after [MAX_STRING_LENGTH] = 8191 of them, 8194
    bytes at the most; a reader that takes tag, length and bytes gets
    the string back, or its first 8191 bytes. For NULL the single byte
    0 is stored. *)
Theorem putUtf8_round_trip (s : string) (b : Buffer.t) :
  room b (3 + Z.min (Z.of_nat (String.length s)) Buffer.MAX_STRING_LENGTH) ->
  (exists b' bytes,
     Buffer.putUtf8 (Some s) b = Ret b'
     /\ appended b bytes b'
     /\ Z.of_nat (length bytes) <= 3 + Buffer.MAX_STRING_LENGTH
     /\ forall rest,
          decode_utf8 (bytes ++ rest)
          = Some (take (Z.to_nat Buffer.MAX_STRING_LENGTH) (Buffer.bytes_of s),
                  rest))
  /\ (exists b', Buffer.putUtf8 None b = Ret b' /\ appended b [0] b').
Proof.
intros Hroom. pose proof Hroom as [Hr0 Hr1]. split.
- unfold Buffer.putUtf8.
  set (len := if _ <? _ then _ else _).
  assert (len = Z.min (Z.of_nat (String.length s)) Buffer.MAX_STRING_LENGTH)
    as Hlen by (subst len; destruct (Z.ltb_spec (Z.of_nat (String.length s))
                  Buffer.MAX_STRING_LENGTH); lia).
  destruct (putUtf8_len_step (Buffer.bytes_of s) len b b [])
    as (b' & bytes & Hput & Hap & Hl & Hd).
  { by apply appended_refl. }
  { unfold Buffer.MAX_STRING_LENGTH in *. lia. }
  { rewrite bytes_of_length. lia. }
  { cbn [length]. split; lia. }
  exists b', bytes. split_and!; [done|done|lia|].
  intros rest. rewrite Hd. do 2 f_equal.
  destruct (Z.ltb_spec (Z.of_nat (String.length s)) Buffer.MAX_STRING_LENGTH).
  + rewrite !take_ge; [done|rewrite bytes_of_length; lia..].
  + by replace len with Buffer.MAX_STRING_LENGTH by lia.
- unfold Buffer.putUtf8.
  destruct (put8_appended 0 b) as (b' & -> & Hb');
    [unfold Buffer.MAX_STRING_LENGTH in *; split; lia|].
  exists b'. done.
Qed.

Lemma putUtf8_round_trip_witness :
  exists b' bytes,
    Buffer.putUtf8 (Some "main"%string) (Buffer.fresh 16) = Ret b'
    /\ appended (Buffer.fresh 16) bytes b'
    /\ Z.of_nat (length bytes) <= 3 + Buffer.MAX_STRING_LENGTH
    /\ forall rest,
         decode_utf8 (bytes ++ rest)
         = Some (take (Z.to_nat Buffer.MAX_STRING_LENGTH)
                      (Buffer.bytes_of "main"), rest).
Proof.
destruct (putUtf8_round_trip "main" (Buffer.fresh 16)) as [H _];
  [split; vm_compute; discriminate|exact H].
Defined.

Lemma appended_length (b b' : Buffer.t) (bytes : list Z) :
  room b (Z.of_nat (length bytes)) -> appended b bytes b' ->
  length (Buffer._data b') = length (Buffer._data b).
Proof.
intros [H0 H1] [_ Hd]. rewrite Hd, !length_app, length_take, length_drop. lia.
Qed.

(** The size byte of an event, stored in the slot that [skip(1)] left
    open in front of its fields. *)
Lemma frame_byte (b b9 : Buffer.t) (payload : list Z) (sz : Z) :
  room b (1 + Z.of_nat (length payload)) ->
  appended (snd (Buffer.skip 1 b)) payload b9 ->
  exists b',
    Buffer.put8_at (Buffer._offset b) sz b9 = Ret b'
    /\ appended b (Buffer.char sz :: payload) b'.
Proof.
intros [H0 H1] Hap.
assert (room (snd (Buffer.skip 1 b)) (Z.of_nat (length payload))) as Hr
  by (split; cbn [Buffer.skip snd Buffer._offset Buffer._data]; lia).
pose proof (appended_length _ _ _ Hr Hap) as Hlen.
destruct Hap as [Ho Hd]. cbn [Buffer.skip snd Buffer._offset Buffer._data] in *.
rewrite put8_at_Ret by lia. eexists. split; [reflexivity|].
split; cbn [Buffer._offset Buffer._data length]; [lia|].
rewrite Hd.
destruct (lookup_lt_is_Some_2 (Buffer._data b) (Z.to_nat (Buffer._offset b)))
  as [d Hdd]; [lia|].
replace (Z.to_nat (Buffer._offset b + 1)) with (S (Z.to_nat (Buffer._offset b)))
  by lia.
rewrite (take_S_r _ _ d Hdd), <- app_assoc.
rewrite insert_app_r_alt by (rewrite length_take; lia).
rewrite length_take, Nat.min_l, Nat.sub_diag by lia. cbn.
by rewrite Nat.add_succ_r.
Qed.

(** The five-byte size of an event, patched into the slot that [skip(5)]
    left open in front of its fields. *)
Lemma frame_var32 (b b9 : Buffer.t) (payload : list Z) (sz : Z) :
  room b (5 + Z.of_nat (length payload)) ->
  appended (snd (Buffer.skip 5 b)) payload b9 ->
  exists b',
    Buffer.putVar32_at (Buffer._offset b) sz b9 = Ret b'
    /\ appended b (padded5 (u32 sz) ++ payload) b'.
Proof.
intros [H0 H1] Hap.
assert (room (snd (Buffer.skip 5 b)) (Z.of_nat (length payload))) as Hr
  by (split; cbn [Buffer.skip snd Buffer._offset Buffer._data]; lia).
pose proof (appended_length _ _ _ Hr Hap) as Hlen.
destruct Hap as [Ho Hd]. cbn [Buffer.skip snd Buffer._offset Buffer._data] in *.
rewrite putVar32_at_stores by lia. eexists. split; [reflexivity|].
split; cbn [Buffer._offset Buffer._data]; [rewrite length_app; cbn; lia|].
rewrite Hd. rewrite <- app_assoc.
replace (Z.to_nat (Buffer._offset b + 5)) with (Z.to_nat (Buffer._offset b) + 5)%nat
  by lia.
rewrite (take_app_le (take _ _)) by (rewrite length_take; lia).
rewrite take_take, Nat.min_l by lia.
rewrite (drop_app_length' (take _ _)) by (rewrite length_take; lia).
do 4 f_equal. rewrite length_app. cbn [padded5 length]. lia.
Qed.

(** X26. An execution sample is written as one size byte followed by
    eight varints. The byte is the length of the whole record, at most
    73, so it is a complete one-byte varint, and the 64-bit reader gets
    the eight fields back from what follows. *)
Theorem recordExecutionSample_framed
        (T_EXECUTION_SAMPLE ticks tid call_trace_id thread_state spanId
         rootSpanId weight : Z) (buf : Buffer.t) :
  room buf 73 ->
  exists buf' payload,
    Recording.recordExecutionSample T_EXECUTION_SAMPLE ticks tid call_trace_id
      thread_state spanId rootSpanId weight buf = Ret buf'
    /\ appended buf (Z.of_nat (S (length payload)) :: payload) buf'
    /\ (length payload <= 72)%nat
    /\ Varint.decode (Z.of_nat (S (length payload)) :: payload)
       = Some (Z.of_nat (S (length payload)), payload)
    /\ decode64_many 8 payload
       = Some ([u64 T_EXECUTION_SAMPLE; u64 ticks; u64 tid; u64 call_trace_id;
                u64 thread_state; u64 spanId; u64 rootSpanId; u64 weight], []).
Proof.
intros Hroom. pose proof Hroom as [H0 H1].
unfold Recording.recordExecutionSample.
set (b1 := snd (Buffer.skip 1 buf)).
assert (room b1 72) as Hroom1 by (subst b1; cbn; split; cbn; lia).
assert (forall p : list Z, (length p <= 63)%nat -> room b1 (Z.of_nat (length p) + 9))
  as Hfit by (intros p Hp; destruct Hroom1; split; lia).
pose proof (appended_refl b1 ltac:(subst b1; cbn; lia)) as Hap0.
assert (forall rest : list Z, decode64_many 0 ([] ++ rest) = Some ([], rest))
  as Hd0 by done.
destruct (putVar64_step T_EXECUTION_SAMPLE b1 b1 [] 0 [] Hap0)
  as (b2 & p1 & -> & Hap1 & Hl1 & Hd1); [apply Hfit; cbn; lia|cbn; lia|done|].
cbn [mbind outcome_bind obind].
destruct (putVar64_step ticks b1 b2 p1 1
            [u64 T_EXECUTION_SAMPLE] Hap1)
  as (b3 & p2 & -> & Hap2 & Hl2 & Hd2); [apply Hfit; lia|lia|done|].
cbn [mbind outcome_bind obind].
destruct (putVar64_step tid b1 b3 p2 2
            [u64 T_EXECUTION_SAMPLE; u64 ticks] Hap2)
  as (b4 & p3 & -> & Hap3 & Hl3 & Hd3); [apply Hfit; lia|lia|done|].
cbn [mbind outcome_bind obind].
destruct (putVar64_step call_trace_id b1 b4 p3 3
            [u64 T_EXECUTION_SAMPLE; u64 ticks; u64 tid] Hap3)
  as (b5 & p4 & -> & Hap4 & Hl4 & Hd4); [apply Hfit; lia|lia|done|].
cbn [mbind outcome_bind obind].
destruct (putVar64_step thread_state b1 b5 p4 4
            [u64 T_EXECUTION_SAMPLE; u64 ticks; u64 tid; u64 call_trace_id] Hap4)
  as (b6 & p5 & -> & Hap5 & Hl5 & Hd5); [apply Hfit; lia|lia|done|].
cbn [mbind outcome_bind obind].
destruct (putVar64_step spanId b1 b6 p5 5
            [u64 T_EXECUTION_SAMPLE; u64 ticks; u64 tid; u64 call_trace_id; u64 thread_state] Hap5)
  as (b7 & p6 & -> & Hap6 & Hl6 & Hd6); [apply Hfit; lia|lia|done|].
cbn [mbind outcome_bind obind].
destruct (putVar64_step rootSpanId b1 b7 p6 6
            [u64 T_EXECUTION_SAMPLE; u64 ticks; u64 tid; u64 call_trace_id; u64 thread_state; u64 spanId] Hap6)
  as (b8 & p7 & -> & Hap7 & Hl7 & Hd7); [apply Hfit; lia|lia|done|].
cbn [mbind outcome_bind obind].
destruct (putVar64_step weight b1 b8 p7 7
            [u64 T_EXECUTION_SAMPLE; u64 ticks; u64 tid; u64 call_trace_id; u64 thread_state; u64 spanId; u64 rootSpanId] Hap7)
  as (b9 & p8 & -> & Hap8 & Hl8 & Hd8); [apply Hfit; lia|lia|done|].
cbn [mbind outcome_bind obind].
destruct (frame_byte buf b9 p8 (Buffer._offset b9 - fst (Buffer.skip 1 buf)))
  as (buf' & Hput & Hap'); [split; lia|exact Hap8|].
assert (Buffer._offset b9 - fst (Buffer.skip 1 buf) = Z.of_nat (S (length p8)))
  as Hsz.
{ destruct Hap8 as [Ho _]. rewrite Ho. subst b1. cbn. lia. }
rewrite Hsz in *. rewrite char_small in Hap' by lia.
exists buf', p8. split_and!; [done|done|lia| |].
- cbn [Varint.decode]. rewrite small_bit by lia. done.
- specialize (Hd8 []). rewrite app_nil_r in Hd8. exact Hd8.
Qed.

Lemma recordExecutionSample_framed_witness :
  exists buf' payload,
    Recording.recordExecutionSample 101 1000000 42 7 1 0 0 1 (Buffer.fresh 128)
    = Ret buf'
    /\ appended (Buffer.fresh 128) (Z.of_nat (S (length payload)) :: payload) buf'
    /\ (length payload <= 72)%nat
    /\ Varint.decode (Z.of_nat (S (length payload)) :: payload)
       = Some (Z.of_nat (S (length payload)), payload)
    /\ decode64_many 8 payload
       = Some ([u64 101; u64 1000000; u64 42; u64 7; u64 1; u64 0; u64 0; u64 1],
               []).
Proof.
apply (recordExecutionSample_framed 101 1000000 42 7 1 0 0 1 (Buffer.fresh 128)).
split; vm_compute; discriminate.
Defined.

(** X27. [recordLog] cuts the message after [MAX_STRING_LENGTH] bytes and
    builds the record in a stack buffer of [len + 40] bytes, which it
    never overruns: the record takes at most [len + 35] of the [len + 36]
    bytes behind the cursor field, whatever the type, time and level.
    The record starts with its own length as a five-byte varint, followed
    by the three varints and the string. *)
Theorem recordLog_fits (T_LOG ticks level : Z) (message : list Z) (len : Z)
        (junk : nat -> Z) :
  0 <= len ->
  Z.min len Buffer.MAX_STRING_LENGTH <= Z.of_nat (length message) ->
  exists bytes payload str,
    Recording.recordLog true T_LOG ticks level message len junk
    = Ret (Some bytes)
    /\ Z.of_nat (length bytes) <= Z.min len Buffer.MAX_STRING_LENGTH + 35
    /\ Varint.decode bytes = Some (Z.of_nat (length bytes), payload)
    /\ decode64_many 3 payload = Some ([u64 T_LOG; u64 ticks; u64 level], str)
    /\ decode_utf8 str
       = Some (take (Z.to_nat (Z.min len Buffer.MAX_STRING_LENGTH)) message, []).
Proof.
intros Hlen Hmsg. unfold Recording.recordLog. cbn [negb].
set (len' := if len >? Buffer.MAX_STRING_LENGTH then _ else len).
assert (len' = Z.min len Buffer.MAX_STRING_LENGTH) as Hlen'
  by (subst len'; destruct (Z.gtb_spec len Buffer.MAX_STRING_LENGTH); lia).
rewrite <- Hlen' in *. clearbody len'.
assert (0 <= len' <= Buffer.MAX_STRING_LENGTH) as Hrange
  by (unfold Buffer.MAX_STRING_LENGTH in *; lia).
set (buf := Buffer.reset _).
assert (Buffer._offset buf = 0) as Hoff by done.
assert (Z.of_nat (length (Buffer._data buf)) = len' + 36) as Hcap.
{ subst buf. cbn. rewrite length_map, length_seq. lia. }
set (b1 := snd (Buffer.skip 5 buf)).
assert (room b1 (len' + 31)) as Hroom1.
{ subst b1. split; cbn [Buffer.skip snd Buffer._offset Buffer._data]; lia. }
assert (forall p : list Z, (length p <= 18)%nat -> room b1 (Z.of_nat (length p) + 9))
  as Hfit by (intros p Hp; destruct Hroom1; split; lia).
pose proof (appended_refl b1 ltac:(subst b1; cbn; lia)) as Hap0.
destruct (putVar64_step T_LOG b1 b1 [] 0 [] Hap0)
  as (b2 & p1 & -> & Hap1 & Hl1 & Hd1); [apply Hfit; cbn; lia|cbn; lia|done|].
cbn [mbind outcome_bind obind].
destruct (putVar64_step ticks b1 b2 p1 1 [u64 T_LOG] Hap1)
  as (b3 & p2 & -> & Hap2 & Hl2 & Hd2); [apply Hfit; lia|lia|done|].
cbn [mbind outcome_bind obind].
destruct (putVar64_step level b1 b3 p2 2 [u64 T_LOG; u64 ticks] Hap2)
  as (b4 & p3 & -> & Hap3 & Hl3 & Hd3); [apply Hfit; lia|lia|done|].
cbn [mbind outcome_bind obind].
destruct (putUtf8_len_step message len' b1 b4 p3 Hap3 Hrange Hmsg)
  as (b5 & utf & -> & Hap4 & Hl4 & Hd4); [destruct Hroom1; split; lia|].
cbn [mbind outcome_bind obind].
assert (room buf (5 + Z.of_nat (length (p3 ++ utf)))) as Hroom5
  by (rewrite length_app; split; lia).
destruct (frame_var32 buf b5 (p3 ++ utf)
            (Buffer._offset b5 - fst (Buffer.skip 5 buf)) Hroom5 Hap4)
  as (b6 & Hput & Hap5).
change (fst (Buffer.skip 5 buf)) with (Buffer._offset buf) in *.
rewrite Hput. cbn [mbind outcome_bind obind].
assert (Buffer._offset b5 - Buffer._offset buf
        = Z.of_nat (5 + length (p3 ++ utf))) as Hsz.
{ destruct Hap4 as [Ho _]. rewrite Ho. subst b1. cbn. lia. }
rewrite Hsz in Hap5.
assert (u32 (Z.of_nat (5 + length (p3 ++ utf))) = Z.of_nat (5 + length (p3 ++ utf)))
  as Hu.
{ unfold u32. apply Z.mod_small. rewrite length_app.
  unfold Buffer.MAX_STRING_LENGTH in *. lia. }
rewrite Hu in Hap5.
set (bytes := padded5 _ ++ p3 ++ utf) in Hap5.
assert (length bytes = (5 + length (p3 ++ utf))%nat) as Hbl
  by (subst bytes; rewrite length_app; done).
assert (take (Z.to_nat (Buffer._offset b6)) (Buffer._data b6) = bytes) as Htake.
{ pose proof (appended_written buf b6 bytes) as Hw. unfold Buffer.written in Hw.
  rewrite Hoff in Hw. cbn [Z.to_nat drop] in Hw. rewrite Z.sub_0_r in Hw.
  apply Hw; [|done]. rewrite Hbl. split; [lia|]. rewrite length_app in *. lia. }
rewrite Htake.
exists bytes, (p3 ++ utf), utf. split_and!.
- done.
- rewrite Hbl, length_app. lia.
- rewrite Hbl. subst bytes. apply decode_padded5.
  rewrite length_app. unfold Buffer.MAX_STRING_LENGTH in *. lia.
- apply Hd3.
- specialize (Hd4 []). rewrite app_nil_r in Hd4. exact Hd4.
Qed.

Lemma recordLog_fits_witness :
  exists bytes payload str,
    Recording.recordLog true 109 123456 3 [111; 111; 112; 115] 4 (fun _ => 255)
    = Ret (Some bytes)
    /\ Z.of_nat (length bytes) <= Z.min 4 Buffer.MAX_STRING_LENGTH + 35
    /\ Varint.decode bytes = Some (Z.of_nat (length bytes), payload)
    /\ decode64_many 3 payload = Some ([u64 109; u64 123456; u64 3], str)
    /\ decode_utf8 str
       = Some (take (Z.to_nat (Z.min 4 Buffer.MAX_STRING_LENGTH))
                    [111; 111; 112; 115], []).
Proof.
apply (recordLog_fits 109 123456 3 [111; 111; 112; 115] 4 (fun _ => 255)).
- lia.
- vm_compute. discriminate.
Defined.

End Events.

(** ** Chunk header *)

Section ChunkHeader.

Import BufferSpec.

Lemma be_decode_acc (l : list Z) : forall acc,
  foldl (fun acc x => acc * 256 + x) acc l
  = acc * 256 ^ Z.of_nat (length l) + be_decode l.
Proof.
unfold be_decode. induction l as [|x l IH]; intros acc.
- cbn. lia.
- cbn [foldl length]. rewrite IH, (IH (0 * 256 + x)).
  rewrite Nat2Z.inj_succ, Z.pow_succ_r by lia. lia.
Qed.

Lemma be_bytes_length (n : nat) (v : Z) : length (Buffer.be_bytes n v) = n.
Proof. induction n as [|n IH]; cbn; [done|]. by rewrite IH. Qed.

(** A big-endian store read back: the value in the width of the store. *)
Lemma be_decode_be_bytes (n : nat) (v : Z) :
  be_decode (Buffer.be_bytes n v) = v mod 2 ^ (8 * Z.of_nat n).
Proof.
induction n as [|n IH].
- cbn. by rewrite Z.mod_1_r.
- cbn [Buffer.be_bytes]. unfold be_decode. cbn [foldl].
  rewrite be_decode_acc, be_bytes_length, IH. unfold Buffer.char.
  change 0xff with (Z.ones 8). rewrite Z.land_ones, Z.shiftr_div_pow2 by lia.
  replace (8 * Z.of_nat (S n)) with (8 * Z.of_nat n + 8) by lia.
  rewrite Z.pow_add_r by lia.
  assert (0 < 2 ^ (8 * Z.of_nat n)) by (apply Z.pow_pos_nonneg; lia).
  rewrite Z.rem_mul_r by lia.
  replace (256 ^ Z.of_nat n) with (2 ^ (8 * Z.of_nat n))
    by (rewrite Z.pow_mul_r by lia; done).
  lia.
Qed.

Lemma store_step (bytes : list Z) (b0 b : Buffer.t) (pre : list Z) :
  appended b0 pre b ->
  room b0 (Z.of_nat (length pre) + Z.of_nat (length bytes)) ->
  exists b', Buffer.store bytes b = Ret b' /\ appended b0 (pre ++ bytes) b'.
Proof.
intros Hap Hroom.
destruct (store_appended bytes b) as (b' & Hs & Hb').
{ eapply appended_room; [exact Hap|exact Hroom]. }
exists b'. split; [done|].
eapply appended_app; [|exact Hap|exact Hb']. destruct Hroom. split; lia.
Qed.

(** One store of the header or of its patch. *)
Ltac header_step Hfit :=
  match goal with
  | Hap : appended _ _ ?b |- context [Buffer.store ?bytes ?b] =>
      let b' := fresh "b" in
      let Hap' := fresh "Hap" in
      destruct (store_step bytes _ b _ Hap) as (b' & -> & Hap');
      [apply Hfit; rewrite ?length_app, ?be_bytes_length; cbn [length]; lia|];
      cbn [mbind outcome_bind obind]
  end.

(** X28. [writeHeader] lays down 68 bytes: the magic, the version 2.0,
    seven 64-bit fields and the 32-bit features word, all big-endian. The
    68 that [finishChunk] later records as the offset of the metadata is
    the length of this header, and the 56 bytes it patches at offset 8
    are the seven 64-bit fields, of which the start time, the start ticks
    and the frequency are written again with their values. *)
Theorem writeHeader_layout (start_ticks frequency chunk_start cpool_offset
                            chunk_end stop_time : Z)
        (r : Recording.t) (buf : Buffer.t) :
  room buf 68 ->
  exists buf' bytes patch,
    Recording.writeHeader start_ticks frequency r buf = Ret buf'
    /\ appended buf bytes buf'
    /\ length bytes = 68%nat
    /\ take 4 bytes = Recording.magic
    /\ be_decode (take 2 (drop 4 bytes)) = 2
    /\ be_decode (take 2 (drop 6 bytes)) = 0
    /\ be_decode (take 8 (drop 32 bytes)) = u64 (Recording._start_time r * 1000)
    /\ be_decode (take 8 (drop 48 bytes)) = u64 start_ticks
    /\ be_decode (take 8 (drop 56 bytes)) = u64 frequency
    /\ be_decode (drop 64 bytes) = 1
    /\ Recording.header_patch chunk_start cpool_offset chunk_end stop_time
         start_ticks frequency r (Buffer.reset buf') = Ret patch
    /\ length patch = 56%nat
    /\ take 8 (Recording.pwrite bytes patch 8) = take 8 bytes
    /\ drop 64 (Recording.pwrite bytes patch 8) = drop 64 bytes
    /\ be_decode (take 8 (drop 8 (Recording.pwrite bytes patch 8)))
       = u64 (chunk_end - chunk_start)
    /\ be_decode (take 8 (drop 16 (Recording.pwrite bytes patch 8)))
       = u64 (cpool_offset - chunk_start)
    /\ be_decode (take 8 (drop 24 (Recording.pwrite bytes patch 8)))
       = Z.of_nat (length bytes)
    /\ take 8 (drop 32 (Recording.pwrite bytes patch 8)) = take 8 (drop 32 bytes)
    /\ take 16 (drop 48 (Recording.pwrite bytes patch 8))
       = take 16 (drop 48 bytes).
Proof.
intros Hroom. pose proof Hroom as [H0 H1].
unfold Recording.writeHeader, Buffer.put16, Buffer.put32, Buffer.put64.
change (Buffer.put Recording.magic 4 buf) with (Buffer.store [70; 76; 82; 0] buf).
pose proof (appended_refl buf H0) as Hap0.
assert (forall pre bytes : list Z, (length pre + length bytes <= 68)%nat ->
          room buf (Z.of_nat (length pre) + Z.of_nat (length bytes))) as Hfit
  by (intros pre bytes Hl; split; lia).
header_step Hfit. header_step Hfit. header_step Hfit.
header_step Hfit. header_step Hfit. header_step Hfit.
header_step Hfit. header_step Hfit. header_step Hfit.
header_step Hfit.
header_step Hfit.
set (bytes := (_ ++ Buffer.be_bytes 4 1)) in *.
match goal with Hap : appended buf bytes ?b |- _ => rename b into b9; rename Hap into Hap10 end.
assert (length (Buffer._data b9) = length (Buffer._data buf)) as Hlen9.
{ apply (appended_length buf b9 bytes); [|done]. subst bytes.
  rewrite ?length_app, ?be_bytes_length. cbn [length]. split; lia. }
(* the patch *)
assert (exists patch,
          Recording.header_patch chunk_start cpool_offset chunk_end stop_time
            start_ticks frequency r (Buffer.reset b9) = Ret patch
          /\ patch = Buffer.be_bytes 8 (u64 (chunk_end - chunk_start))
               ++ Buffer.be_bytes 8 (u64 (cpool_offset - chunk_start))
               ++ Buffer.be_bytes 8 68
               ++ Buffer.be_bytes 8 (u64 (Recording._start_time r * 1000))
               ++ Buffer.be_bytes 8
                    (u64 (u64 (stop_time - Recording._start_time r) * 1000))
               ++ Buffer.be_bytes 8 start_ticks
               ++ Buffer.be_bytes 8 frequency) as (patch & Hrun & Hpatch).
{ unfold Recording.header_patch, Buffer.put64.
  assert (room (Buffer.reset b9) 56) as Hroomp
    by (split; cbn [Buffer.reset Buffer._offset Buffer._data]; lia).
  pose proof (appended_refl (Buffer.reset b9) ltac:(cbn; lia)) as Hq0.
  assert (forall pre bs : list Z, (length pre + length bs <= 56)%nat ->
            room (Buffer.reset b9) (Z.of_nat (length pre) + Z.of_nat (length bs)))
    as Hfitp by (intros pre bs Hl; destruct Hroomp; split; lia).
  header_step Hfitp. header_step Hfitp. header_step Hfitp.
  header_step Hfitp. header_step Hfitp. header_step Hfitp.
  header_step Hfitp.
  eexists. split; [reflexivity|].
  match goal with Hap : appended (Buffer.reset b9) _ _ |- _ => destruct Hap as [_ Hd] end.
  rewrite Hd.
  cbn [Buffer.reset Buffer._offset Z.to_nat take app].
  rewrite <- !app_assoc. rewrite !app_assoc.
  rewrite take_app_length'
    by (rewrite ?length_app, ?be_bytes_length; done).
  by rewrite <- !app_assoc. }
exists b9, bytes, patch.
assert (forall v, be_decode (Buffer.be_bytes 8 v) = u64 v) as Hbe8
  by (intros v; apply (be_decode_be_bytes 8)).
assert (forall v, 0 <= v < 2 ^ 64 -> be_decode (Buffer.be_bytes 8 v) = v) as Hbe8'
  by (intros v Hv; rewrite Hbe8; unfold u64; by apply Z.mod_small).
assert (forall v, 0 <= u64 v < 2 ^ 64) as Hu
  by (intros v; unfold u64; apply Z.mod_pos_bound; lia).
subst bytes patch. unfold Recording.pwrite.
cbn [Buffer.be_bytes app length take drop Nat.add Z.to_nat Pos.to_nat Pos.iter_op].
split_and!; try done.
- exact (Hbe8' _ (Hu _)).
- exact (Hbe8 _).
- exact (Hbe8 _).
- exact (Hbe8' _ (Hu _)).
- exact (Hbe8' _ (Hu _)).
Qed.

Lemma writeHeader_layout_witness :
  exists buf' bytes patch,
    Recording.writeHeader 7 1000000000
      (Recording.make 5 (Arguments.mk 0 0)) (Buffer.fresh 128) = Ret buf'
    /\ appended (Buffer.fresh 128) bytes buf'
    /\ length bytes = 68%nat
    /\ Recording.header_patch 0 500 600 9 7 1000000000
         (Recording.make 5 (Arguments.mk 0 0)) (Buffer.reset buf') = Ret patch
    /\ be_decode (take 8 (drop 24 (Recording.pwrite bytes patch 8))) = 68.
Proof.
destruct (writeHeader_layout 7 1000000000 0 500 600 9
            (Recording.make 5 (Arguments.mk 0 0)) (Buffer.fresh 128))
  as (buf' & bytes & patch & H1 & H2 & H3 & _ & _ & _ & _ & _ & _ & _ & H11 & _
      & _ & _ & _ & _ & H17 & _);
  [split; vm_compute; discriminate|].
exists buf', bytes, patch.
split; [exact H1|]. split; [exact H2|]. split; [exact H3|]. split; [exact H11|].
rewrite H17, H3. reflexivity.
Defined.

End ChunkHeader.

(** ** Line numbers and constant-pool keys *)

Section LineNumbers.

Import MethodInfo.

Lemma getLineNumber_loop_stops (mi : t) (bci : Z) (fuel : nat) : forall i,
  _line_number_table_size mi = Z.of_nat (length (_line_number_table mi)) ->
  1 <= i <= _line_number_table_size mi ->
  _line_number_table_size mi - i <= Z.of_nat fuel ->
  exists i',
    getLineNumber_loop fuel mi bci i = Ret i'
    /\ i <= i' <= _line_number_table_size mi
    /\ (forall (j : nat) e, i <= Z.of_nat j < i' ->
          _line_number_table mi !! j = Some e -> start_location e <= bci)
    /\ (i' < _line_number_table_size mi ->
        exists e, _line_number_table mi !! Z.to_nat i' = Some e
                  /\ bci < start_location e).
Proof.
induction fuel as [|fuel IH]; intros i Hsz Hi Hfuel.
- assert (i = _line_number_table_size mi) as -> by lia.
  exists (_line_number_table_size mi). cbn. rewrite Z.ltb_irrefl.
  split_and!; try done; lia.
- cbn [getLineNumber_loop].
  destruct (Z.ltb_spec i (_line_number_table_size mi)) as [Hlt|Hge].
  2: { exists i. split_and!; try done; lia. }
  destruct (lookup_lt_is_Some_2 (_line_number_table mi) (Z.to_nat i))
    as [e He]; [lia|].
  rewrite (aread_lookup _ i e) by (done || lia).
  cbn [mbind outcome_bind obind].
  destruct (Z.geb_spec bci (start_location e)) as [Hbe|Hbl].
  + destruct (IH (i + 1)) as (i' & -> & Hr & Hbelow & Hstop); [done|lia|lia|].
    exists i'. split_and!; try done; try lia.
    intros j ej Hj Hej. destruct (decide (Z.of_nat j = i)) as [Heq|Hne].
    * replace (Z.to_nat i) with j in He by lia.
      assert (ej = e) as -> by congruence. lia.
    * apply (Hbelow j); [lia|done].
  + exists i. split_and!; try done; try lia.
    intros _. exists e. done.
Qed.

(** X29. Over a line-number table ordered by start location,
    [getLineNumber(bci)] returns the line of the last entry that starts
    at or before [bci]; when [bci] lies before every entry it returns the
    line of the first entry, and for a method without table 0. *)
Theorem getLineNumber_entry (mi : t) (bci : Z) :
  _line_number_table_size mi = Z.of_nat (length (_line_number_table mi)) ->
  StronglySorted (fun a b => start_location a <= start_location b)
                 (_line_number_table mi) ->
  match _line_number_table mi with
  | [] => getLineNumber mi bci = Ret 0
  | first :: _ =>
      exists e,
        getLineNumber mi bci = Ret (line_number e)
        /\ e ∈ _line_number_table mi
        /\ (forall e', e' ∈ _line_number_table mi ->
                       start_location e' <= bci ->
                       start_location e' <= start_location e)
        /\ (start_location e <= bci
            \/ (e = first
                /\ forall e', e' ∈ _line_number_table mi ->
                              bci < start_location e'))
  end.
Proof.
intros Hsz Hs. unfold getLineNumber.
destruct (_line_number_table mi) as [|first rest] eqn:Htab.
{ rewrite Hsz. done. }
rewrite <- Htab in *.
assert (_line_number_table mi !! 0%nat = Some first) as Hfirst
  by (by rewrite Htab).
assert (1 <= _line_number_table_size mi)
  by (rewrite Hsz, Htab; cbn [length]; lia).
destruct (Z.eqb_spec (_line_number_table_size mi) 0); [lia|].
destruct (getLineNumber_loop_stops mi bci
            (Z.to_nat (_line_number_table_size mi)) 1 Hsz)
  as (i & -> & Hi & Hbelow & Hstop); [lia|lia|].
cbn [mbind outcome_bind obind].
destruct (lookup_lt_is_Some_2 (_line_number_table mi) (Z.to_nat (i - 1)))
  as [e He]; [lia|].
rewrite (aread_lookup _ (i - 1) e) by (done || lia).
cbn [mbind outcome_bind obind].
pose proof (strongly_sorted_lookup _ _ Hs) as Hsl. cbn beta in Hsl.
assert (forall (j : nat) e', i <= Z.of_nat j ->
          _line_number_table mi !! j = Some e' -> bci < start_location e')
  as Habove.
{ intros j e' Hj He'.
  assert (i < _line_number_table_size mi)
    by (apply lookup_lt_Some in He'; lia).
  destruct (Hstop ltac:(lia)) as (ei & Hei & Hlt).
  destruct (decide (j = Z.to_nat i)) as [->|Hne].
  - assert (e' = ei) as -> by congruence. done.
  - pose proof (Hsl (Z.to_nat i) j ei e' ltac:(lia) Hei He'). lia. }
exists e. split_and!.
- done.
- apply list_elem_of_lookup. eauto.
- intros e' [j Hj]%list_elem_of_lookup Hle.
  destruct (decide (Z.of_nat j < i - 1)) as [Hlt|Hge].
  + apply (Hsl j (Z.to_nat (i - 1))); [lia|done..].
  + destruct (decide (Z.of_nat j = i - 1)) as [Heq|Hne].
    * replace (Z.to_nat (i - 1)) with j in He by lia.
      assert (e' = e) as -> by congruence. lia.
    * pose proof (Habove j e' ltac:(lia) Hj). lia.
- destruct (decide (i = 1)) as [->|Hne].
  + change (Z.to_nat (1 - 1)) with 0%nat in He.
    assert (e = first) as -> by congruence.
    destruct (decide (start_location first <= bci)); [by left|right].
    split; [done|]. intros e' [j Hj]%list_elem_of_lookup.
    destruct j as [|j].
    * assert (e' = first) as -> by congruence. lia.
    * apply (Habove (S j)); [lia|done].
  + left. apply (Hbelow (Z.to_nat (i - 1))); [lia|done].
Qed.

Lemma getLineNumber_entry_witness :
  exists e,
    getLineNumber (mk 1 3 [mkLine 0 10; mkLine 4 11; mkLine 9 13]) 7
    = Ret (line_number e)
    /\ e ∈ [mkLine 0 10; mkLine 4 11; mkLine 9 13]
    /\ (forall e', e' ∈ [mkLine 0 10; mkLine 4 11; mkLine 9 13] ->
                   start_location e' <= 7 ->
                   start_location e' <= start_location e)
    /\ (start_location e <= 7
        \/ (e = mkLine 0 10
            /\ forall e', e' ∈ [mkLine 0 10; mkLine 4 11; mkLine 9 13] ->
                          7 < start_location e')).
Proof.
apply (getLineNumber_entry (mk 1 3 [mkLine 0 10; mkLine 4 11; mkLine 9 13]) 7).
- reflexivity.
- cbn. repeat constructor; cbn; lia.
Defined.

End LineNumbers.

Section PoolKeys.

Import Recording BufferSpec.

Lemma rotate_base_id (stops : list Z) : forall r,
  0 <= _base_id r < 2 ^ 64 ->
  _base_id (rotate stops r)
  = u64 (_base_id r + 0x1000000 * Z.of_nat (length stops)).
Proof.
unfold rotate. induction stops as [|st stops IH]; intros r Hr.
- cbn. rewrite Z.add_0_r. unfold u64. by rewrite Z.mod_small by lia.
- cbn [foldl]. rewrite IH.
  + cbn [_base_id switchChunk length]. unfold u64.
    rewrite Z.add_mod_idemp_l by lia. f_equal. lia.
  + cbn. unfold u64. apply Z.mod_pos_bound. lia.
Qed.

Lemma lor_disjoint (id n : Z) :
  0 <= id < 2 ^ 24 -> 0 <= n -> Z.lor id (2 ^ 24 * n) = id + 2 ^ 24 * n.
Proof.
intros Hid Hn.
assert (Z.land id (2 ^ 24 * n) = 0) as Hland.
{ apply Z.bits_inj'. intros k Hk. rewrite Z.land_spec, Z.bits_0.
  destruct (Z_lt_le_dec k 24).
  - rewrite (Z.mul_comm (2 ^ 24)), Z.mul_pow2_bits_low by lia.
    apply andb_false_r.
  - rewrite <- (Z.mod_small id (2 ^ 24)) by lia.
    rewrite Z.mod_pow2_bits_high by lia. done. }
rewrite Z.add_nocarry_lxor by done. symmetry. by apply Z.lxor_lor.
Qed.

(** Bytes appended in the buffer are appended to the stream. *)
Lemma stream_appended (out : list Z) (b b' : Buffer.t) (bytes : list Z) :
  room b (Z.of_nat (length bytes)) -> appended b bytes b' ->
  stream out b' = stream out b ++ bytes.
Proof.
intros [H0 H1] [Ho Hd]. unfold stream. rewrite Ho, Hd, <- app_assoc. f_equal.
rewrite app_assoc. apply take_app_length'.
rewrite length_app, length_take. lia.
Qed.

(** A flush moves bytes from the buffer to the file and leaves the
    stream as it is; behind [flushIfNeeded] the cursor is below the
    limit. *)
Lemma flushIfNeeded_stream (limit : Z) (r : t) (out : list Z) (buf : Buffer.t) :
  0 < limit -> 0 <= Buffer._offset buf ->
  let st := flushIfNeeded limit r out buf in
  stream (snd (fst st)) (snd st) = stream out buf
  /\ _base_id (fst (fst st)) = _base_id r
  /\ Buffer._data (snd st) = Buffer._data buf
  /\ 0 <= Buffer._offset (snd st) < limit.
Proof.
intros Hl Ho. unfold flushIfNeeded, flush.
destruct (Z.geb_spec (Buffer._offset buf) limit) as [Hge|Hlt]; cbn.
- split_and!; try done; try lia.
  + unfold stream. cbn. by rewrite app_nil_r.
  + by destruct (_ >? 0).
- split_and!; try done; lia.
Qed.

(** The loop of [writeConstantPoolSection]: every constant is stored
    inside the buffer as long as a key and the longest string fit behind
    the limit, and the stream grows by the constants, which read back
    with their keys. *)
Lemma write_constants_stream (maxlen : Z) (r : t) :
  forall (constants : list (Z * string)) (r0 : t) (out : list Z) (buf : Buffer.t),
    _base_id r0 = _base_id r ->
    0 <= maxlen <= Buffer.MAX_STRING_LENGTH ->
    Forall (fun c => Z.of_nat (String.length (snd c)) <= maxlen) constants ->
    RECORDING_BUFFER_LIMIT - 1 + 12 + maxlen
    <= Z.of_nat (length (Buffer._data buf)) ->
    room buf (12 + maxlen) ->
    exists r' out' buf' bytes,
      write_constants constants r0 out buf = Ret (r', out', buf')
      /\ _base_id r' = _base_id r
      /\ stream out' buf' = stream out buf ++ bytes
      /\ forall rest,
           decode_constants (length constants) (bytes ++ rest)
           = Some (map (fun c => (u64 (Z.lor (fst c) (_base_id r)),
                                  Buffer.bytes_of (snd c))) constants,
                   rest).
Proof.
induction constants as [|[id s] constants IH];
  intros r0 out buf Hbase Hmax Hlens Hlimit Hroom.
- exists r0, out, buf, []. cbn. rewrite app_nil_r. done.
- apply Forall_cons in Hlens as [Hs Hlens]. cbn [fst snd] in Hs.
  cbn [write_constants fst snd].
  pose proof Hroom as [Hr0 Hr1].
  unfold Buffer.MAX_STRING_LENGTH in Hmax.
  set (len := Z.of_nat (String.length s)) in *.
  destruct (putVar64_bytes (Z.lor id (_base_id r0)) buf)
    as (b1 & bytes1 & -> & Hb1 & Hl1 & Hd1); [split; lia|].
  cbn [mbind outcome_bind obind].
  assert (room buf (Z.of_nat (length bytes1))) as Hroom1 by (split; lia).
  unfold Buffer.putUtf8. fold len.
  assert ((if len <? Buffer.MAX_STRING_LENGTH then len
           else Buffer.MAX_STRING_LENGTH) = len) as ->.
  { unfold Buffer.MAX_STRING_LENGTH.
    destruct (Z.ltb_spec len 8191); lia. }
  destruct (putUtf8_len_step (Buffer.bytes_of s) len buf b1 bytes1)
    as (b2 & bytes2 & -> & Hb2 & Hl2 & Hd2).
  { done. }
  { unfold Buffer.MAX_STRING_LENGTH. lia. }
  { rewrite bytes_of_length. lia. }
  { split; lia. }
  cbn [mbind outcome_bind obind].
  assert (room buf (Z.of_nat (length (bytes1 ++ bytes2)))) as Hroom2
    by (rewrite length_app; split; lia).
  pose proof (appended_length _ _ _ Hroom2 Hb2) as Hlen2.
  pose proof (stream_appended out _ _ _ Hroom2 Hb2) as Hst2.
  assert (0 <= Buffer._offset b2) as Ho2 by (destruct Hb2 as [-> _]; lia).
  destruct (flushIfNeeded_stream RECORDING_BUFFER_LIMIT r0 out b2)
    as (Hst & Hbase' & Hdata & Hoff); [done|done|].
  set (st := flushIfNeeded RECORDING_BUFFER_LIMIT r0 out b2) in *.
  destruct (IH (fst (fst st)) (snd (fst st)) (snd st))
    as (r' & out' & buf' & bytes & Hrun & Hb' & Hstream & Hdec).
  { congruence. }
  { unfold Buffer.MAX_STRING_LENGTH. lia. }
  { done. }
  { rewrite Hdata, Hlen2. done. }
  { split; [lia|]. rewrite Hdata, Hlen2. lia. }
  exists r', out', buf', ((bytes1 ++ bytes2) ++ bytes). split_and!.
  + done.
  + done.
  + rewrite Hstream, Hst, Hst2. by rewrite <- !app_assoc.
  + intros rest. cbn [length decode_constants map fst snd].
    rewrite <- !app_assoc, Hd1, Hd2, Hdec, Hbase.
    rewrite take_ge by (rewrite bytes_of_length; lia). done.
Qed.

(** X30. [writeConstantPoolSection], which writes the symbols and the
    strings of a chunk, stays inside the recording buffer when no string
    is longer than 4063 bytes: the margin of 4096 bytes that
    [flushIfNeeded] keeps is then enough for the type, the count and one
    constant. The bytes it adds to the stream (what was handed to [write]
    and what waits in the buffer) read back as the type, the count and,
    per constant, key and string; in the chunk that follows [n]
    rotations, fewer than [2^40], the key of the constant [id], below
    [2^24], reads back as [id + n * 2^24]. *)
Theorem writeConstantPoolSection_keys (type : Z) (constants : list (Z * string))
        (args : Arguments.t) (micros : Z) (stops : list Z)
        (out : list Z) (buf : Buffer.t) :
  Z.of_nat (length (Buffer._data buf)) = Buffer.RECORDING_BUFFER_SIZE - 4 ->
  0 <= Buffer._offset buf < RECORDING_BUFFER_LIMIT ->
  Z.of_nat (length stops) < 2 ^ 40 ->
  Z.of_nat (length constants) < 2 ^ 32 ->
  Forall (fun c => 0 <= fst c < 2 ^ 24
                   /\ Z.of_nat (String.length (snd c)) <= 4063) constants ->
  exists r' out' buf' bytes,
    writeConstantPoolSection type constants (rotate stops (make micros args))
                             out buf
    = Ret (r', out', buf')
    /\ _base_id r' = 2 ^ 24 * Z.of_nat (length stops)
    /\ stream out' buf' = stream out buf ++ bytes
    /\ forall rest,
         decode_section (bytes ++ rest)
         = Some (u64 type,
                 map (fun c => (fst c + 2 ^ 24 * Z.of_nat (length stops),
                                Buffer.bytes_of (snd c))) constants,
                 rest).
Proof.
intros Hlen Hoff Hstops Hcount Hcs.
unfold Buffer.RECORDING_BUFFER_SIZE in Hlen.
unfold RECORDING_BUFFER_LIMIT, Buffer.RECORDING_BUFFER_SIZE in Hoff.
set (r := rotate stops (make micros args)).
assert (_base_id r = 2 ^ 24 * Z.of_nat (length stops)) as Hbase.
{ subst r. rewrite rotate_base_id by (cbn; lia). cbn [_base_id make].
  unfold u64. rewrite Z.mod_small by lia. done. }
unfold writeConstantPoolSection.
destruct (putVar64_bytes type buf) as (b1 & bytes1 & -> & Hb1 & Hl1 & Hd1);
  [split; lia|].
cbn [mbind outcome_bind obind].
assert (room buf (Z.of_nat (length bytes1))) as Hroom1 by (split; lia).
destruct (putVar64_bytes (Z.of_nat (length constants)) b1)
  as (b2 & bytes2 & -> & Hb2 & Hl2 & Hd2).
{ eapply appended_room; [exact Hb1|]. split; lia. }
cbn [mbind outcome_bind obind].
pose proof (appended_app _ _ _ _ _ Hroom1 Hb1 Hb2) as Hb12.
assert (room buf (Z.of_nat (length (bytes1 ++ bytes2)))) as Hroom2
  by (rewrite length_app; split; lia).
pose proof (appended_length _ _ _ Hroom2 Hb12) as Hlen2.
pose proof (stream_appended out _ _ _ Hroom2 Hb12) as Hst2.
destruct (write_constants_stream 4063 r constants r out b2)
  as (r' & out' & buf' & bytes & Hrun & Hb' & Hstream & Hdec).
{ done. }
{ unfold Buffer.MAX_STRING_LENGTH. lia. }
{ eapply Forall_impl; [exact Hcs|]. cbn. intros c [_ ?]. done. }
{ unfold RECORDING_BUFFER_LIMIT, Buffer.RECORDING_BUFFER_SIZE.
  rewrite Hlen2. lia. }
{ eapply appended_room; [exact Hb12|]. rewrite length_app. split; lia. }
exists r', out', buf', ((bytes1 ++ bytes2) ++ bytes). split_and!.
- done.
- by rewrite Hb'.
- rewrite Hstream, Hst2. by rewrite <- !app_assoc.
- intros rest. unfold decode_section.
  rewrite <- !app_assoc, Hd1, Hd2.
  assert (u64 (Z.of_nat (length constants)) = Z.of_nat (length constants)) as ->
    by (unfold u64; apply Z.mod_small; lia).
  rewrite Nat2Z.id, Hdec. do 3 f_equal.
  clear -Hcs Hbase Hstops. induction Hcs as [|c cs [Hid _] _ IH]; [done|].
  cbn [map]. rewrite IH. do 2 f_equal.
  rewrite Hbase, lor_disjoint by lia.
  unfold u64. apply Z.mod_small. lia.
Qed.

Lemma writeConstantPoolSection_keys_witness :
  exists r' out' buf' bytes,
    writeConstantPoolSection 30 [(5, "main"%string); (6, "run"%string)]
      (rotate [100; 200] (make 0 (Arguments.mk 0 0))) [] (Buffer.fresh 65532)
    = Ret (r', out', buf')
    /\ _base_id r' = 2 ^ 24 * 2
    /\ stream out' buf' = stream [] (Buffer.fresh 65532) ++ bytes
    /\ forall rest,
         decode_section (bytes ++ rest)
         = Some (u64 30,
                 [(5 + 2 ^ 24 * 2, Buffer.bytes_of "main");
                  (6 + 2 ^ 24 * 2, Buffer.bytes_of "run")],
                 rest).
Proof.
apply (writeConstantPoolSection_keys 30 [(5, "main"%string); (6, "run"%string)]
         (Arguments.mk 0 0) 0 [100; 200] [] (Buffer.fresh 65532)).
- unfold Buffer.fresh. cbn [Buffer._data]. rewrite length_replicate. reflexivity.
- split; vm_compute; [discriminate|reflexivity].
- cbn. lia.
- cbn. lia.
- repeat constructor; cbn; lia.
Defined.

(** The bound on the strings is not idle: with the cursor just below the
    limit, a symbol of 4100 bytes is stored past the end of the buffer. *)
Lemma writeConstantPoolSection_long_string :
  let buf := {| Buffer._offset := 61439; Buffer._data := replicate (Z.to_nat 65532) 0 |} in
  Z.of_nat (length (Buffer._data buf)) = Buffer.RECORDING_BUFFER_SIZE - 4
  /\ 0 <= Buffer._offset buf < RECORDING_BUFFER_LIMIT
  /\ writeConstantPoolSection 30
       [(5, string_of_list_ascii (repeat "a"%char 4100))]
       (make 0 (Arguments.mk 0 0)) [] buf
     = Undefined.
Proof.
intros buf. split; [subst buf; cbn [Buffer._data]; by rewrite length_replicate|].
split; [split; vm_compute; [discriminate|reflexivity]|].
vm_compute. reflexivity.
Qed.

End PoolKeys.
